(** * The event hub of [packages/event-bus/src/eventHub.ts]

    A shallow embedding of [createEventHub] and of the objects it works
    on, and the properties of the hub proved over it.

    JavaScript objects are association lists in property order, functions
    of the program are programs of a small free monad whose operations
    are the effects the hub and its listeners have (creating a bus,
    registering and removing a listener, emitting, throwing), and a
    fuelled interpreter runs them over a store of listener registries,
    keeping the chronological trace of what happened. *)

From stdpp Require Import base decidable option list strings numbers relations.

Open Scope string_scope.
Open Scope list_scope.

(** ** JavaScript values *)

(** The payloads ([any] in the source): [undefined], numbers, strings,
    plain objects as their own properties in order, and the built-in
    members of [Object.prototype] by name. *)
#[warnings="-register-all"]
Inductive jsval : Type :=
| VUndefined
| VNum (n : Z)
| VStr (s : string)
| VObj (fields : list (string * jsval))
| VBuiltin (name : string).

Fixpoint jsval_eqb (x y : jsval) {struct x} : bool :=
  match x, y with
  | VUndefined, VUndefined => true
  | VNum a, VNum b => bool_decide (a = b)
  | VStr a, VStr b => bool_decide (a = b)
  | VObj f, VObj g =>
      (fix fields_eqb (f g : list (string * jsval)) {struct f} : bool :=
         match f, g with
         | [], [] => true
         | (k, v) :: f', (k', v') :: g' =>
             bool_decide (k = k') && jsval_eqb v v' && fields_eqb f' g'
         | _, _ => false
         end) f g
  | VBuiltin a, VBuiltin b => bool_decide (a = b)
  | _, _ => false
  end.

(** The object literal [{ name, details: payload }] of line 84. *)
Definition tagged (name : string) (payload : jsval) : jsval :=
  VObj [("name", VStr name); ("details", payload)].

(** What [undefined.listen(..)] and [f.listen(..)] with no such member
    raise. *)
Definition TypeError : jsval := VStr "TypeError".

(** ** Objects used as records of named members *)

(** A JavaScript object: its own enumerable string-keyed properties in
    the order [Object.entries] and the spread enumerate them.  Keys of an
    object are unique. *)
Definition obj (A : Type) : Type := list (string * A).

Fixpoint obj_get {A} (o : obj A) (k : string) : option A :=
  match o with
  | [] => None
  | (k', v) :: o' => if decide (k' = k) then Some v else obj_get o' k
  end.

(** Defining a property: an existing key keeps its place and takes the
    new value, a new key goes last. *)
Fixpoint obj_set {A} (o : obj A) (k : string) (v : A) : obj A :=
  match o with
  | [] => [(k, v)]
  | (k', v') :: o' =>
      if decide (k' = k) then (k, v) :: o' else (k', v') :: obj_set o' k v
  end.

Definition obj_keys {A} (o : obj A) : list string := o.*1.

(** [{ ...src }] onto an object under construction. *)
Definition obj_spread {A B} (f : A -> B) (o : obj B) (src : obj A) : obj B :=
  foldl (fun acc kv => obj_set acc kv.1 (f kv.2)) o src.

(** The members every object literal inherits from [Object.prototype]:
    the [in] operator and a property read see them on [{}]. *)
Definition Object_prototype : list string :=
  [ "constructor"; "hasOwnProperty"; "isPrototypeOf"; "propertyIsEnumerable";
    "toLocaleString"; "toString"; "valueOf"; "__proto__";
    "__defineGetter__"; "__defineSetter__"; "__lookupGetter__";
    "__lookupSetter__" ].

Definition hasOwn {A} (o : obj A) (k : string) : bool :=
  bool_decide (is_Some (obj_get o k)).

(** [k in o] for an object literal [o]. *)
Definition js_in {A} (k : string) (o : obj A) : bool :=
  hasOwn o k || bool_decide (k ∈ Object_prototype).

(** ** Programs *)

Abbreviation bus_id := nat (only parsing).

(** A registration: the bus and the slot the listener took in it. *)
Abbreviation handle := (nat * nat)%type (only parsing).

(** The functions that get registered as listeners.  [Forward g name] is
    the closure [payload => global.emit({ name, details: payload })] that
    line 84 creates, [global] being bus [g]; [User id] is a function of
    the caller, told apart by its identity [id]. *)
Inductive listener : Type :=
| Forward (g : bus_id) (name : string)
| User (id : nat).

Global Instance listener_eq_dec : EqDecision listener.
Proof. solve_decision. Defined.

(** The effects of a JavaScript function of this program, as a free
    monad: the continuation takes what the operation returns. *)
Inductive prog (A : Type) : Type :=
| Ret (a : A)
| Throw (e : jsval)
| NewBus (k : bus_id -> prog A)
| ListenOp (b : bus_id) (l : listener) (k : handle -> prog A)
| UnsubOp (h : handle) (k : prog A)
| EmitOp (b : bus_id) (p : jsval) (k : prog A)
| GetCell (c : nat) (k : jsval -> prog A)
| SetCell (c : nat) (v : jsval) (k : prog A).

Arguments Ret {A} a.
Arguments Throw {A} e.
Arguments NewBus {A} k.
Arguments ListenOp {A} b l k.
Arguments UnsubOp {A} h k.
Arguments EmitOp {A} b p k.
Arguments GetCell {A} c k.
Arguments SetCell {A} c v k.

Fixpoint bind {A B} (m : prog A) (f : A -> prog B) : prog B :=
  match m with
  | Ret a => f a
  | Throw e => Throw e
  | NewBus k => NewBus (fun b => bind (k b) f)
  | ListenOp b l k => ListenOp b l (fun h => bind (k h) f)
  | UnsubOp h k => UnsubOp h (bind k f)
  | EmitOp b p k => EmitOp b p (bind k f)
  | GetCell c k => GetCell c (fun v => bind (k v) f)
  | SetCell c v k => SetCell c v (bind k f)
  end.

Global Instance prog_ret : MRet prog := @Ret.
Global Instance prog_bind : MBind prog := fun A B f m => bind m f.

(** A [VoidFunction]: the unsubscribe function [listen] returns. *)
Definition thunk : Type := prog unit.

(** ** Channels and buses *)

(** [this] in a call of a function: the object the function is called
    on.  [channel.value()] calls [value] on its channel; the getter of a
    property of another object is called on that object, which is given
    by what reading [this.<k>] does. *)
Inductive receiver : Type :=
| ThisChannel
| ThisObject (read : string -> prog jsval).

(** [Accessor<V>]: a function of no argument.  What it does may depend
    on the object it is called on: a closure or an arrow function does
    not use it, a function written as a method reads its [this]. *)
Definition Accessor : Type := receiver -> prog jsval.

(** [EventHubChannel<T, V>] (lines 34-38): what the hub needs of a
    channel.  [value] is optional. *)
Record EventHubChannel : Type := {
  listen : listener -> prog thunk;
  emit : jsval -> prog unit;
  value : option Accessor
}.

(** [channel.value()]: the accessor called on its own channel. *)
Definition call_value (get : Accessor) : prog jsval := get ThisChannel.

(** Modelled from the spec: the bus object that [createEventBus] of
    [./eventBus] returns is not among the sources.  Section 4.1 gives its
    contract: [listen(cb)] registers [cb] and returns an unsubscribe
    function that may be called again without effect, every [listen] call
    being a registration of its own; [emit(payload)] calls the registered
    callbacks in registration order; there is no [value]. *)
Definition eventBus (b : bus_id) : EventHubChannel := {|
  listen := fun cb => ListenOp b cb (fun h => Ret (UnsubOp h (Ret tt)));
  emit := fun payload => EmitOp b payload (Ret tt);
  value := None
|}.

(** Modelled from the spec: [createEventBus()] makes a new bus with no
    listener. *)
Definition createEventBus : prog EventHubChannel :=
  NewBus (fun b => Ret (eventBus b)).

(** ** The hub *)

(** Reading member [k] of an object literal: its own property, else what
    [Object.prototype] has under that name, else [undefined]. *)
Inductive js_member (A : Type) : Type :=
| Own (v : A)
| Inherited
| Undefined.

Arguments Own {A} v.
Arguments Inherited {A}.
Arguments Undefined {A}.

Definition js_read {A} (o : obj A) (k : string) : js_member A :=
  match obj_get o k with
  | Some v => Own v
  | None => if bool_decide (k ∈ Object_prototype) then Inherited else Undefined
  end.

(** [store]: each property is an accessor property, held as its getter. *)
Definition Store : Type := obj Accessor.

(** [Object.defineProperty(store, name, { get, enumerable: true })]; the
    names that [Object.entries] gives are distinct, so that the property
    is a new one each time.  Line 83 gives [bus.value], the function
    itself and not a call of it on [bus], as the getter. *)
Definition defineProperty (store : Store) (name : string) (get : Accessor) : Store :=
  obj_set store name get.

(** The members of the object that [createEventHub] returns. *)
Inductive member : Type :=
| MChannel (bus : EventHubChannel)
| MStore (store : Store)
| MOn (on : string -> listener -> prog thunk)
| MEmit (emit : string -> jsval -> prog unit)
| MListen (listen : listener -> prog thunk).

Definition EventHub : Type := obj member.

(** The argument of [createEventHub]: the channels, or a function from
    [createEventBus] to them ([typeof defineChannels === "function"]). *)
Inductive ChannelsDef : Type :=
| Channels (m : obj EventHubChannel)
| Factory (f : prog EventHubChannel -> prog (obj EventHubChannel)).

(** Lines 82-85: [Object.entries(buses).forEach(([name, bus]) => ...)],
    [global] being bus [g]. *)
Fixpoint forEach_entries (g : bus_id) (entries : obj EventHubChannel)
    (store : Store) : prog Store :=
  match entries with
  | [] => Ret store
  | (name, bus) :: rest =>
      let store' :=
        match value bus with
        | Some get => defineProperty store name get
        | None => store
        end in
      listen bus (Forward g name);;
      forEach_entries g rest store'
  end.

(** [buses[e].listen(a)] and [buses[e].emit(a)]: with no own property [e]
    the call is on [undefined] or on a built-in without such a member. *)
Definition on_ (buses : obj EventHubChannel) (e : string) (a : listener) : prog thunk :=
  match js_read buses e with
  | Own bus => listen bus a
  | Inherited => Throw TypeError
  | Undefined => Throw TypeError
  end.

Definition emit_ (buses : obj EventHubChannel) (e : string) (a : jsval) : prog unit :=
  match js_read buses e with
  | Own bus => emit bus a
  | Inherited => Throw TypeError
  | Undefined => Throw TypeError
  end.

(** Lines 87-93, the object literal. *)
Definition hub_object (g : bus_id) (buses : obj EventHubChannel) (store : Store) : EventHub :=
  let o := obj_spread MChannel [] buses in
  let o := obj_set o "store" (MStore store) in
  let o := obj_set o "on" (MOn (on_ buses)) in
  let o := obj_set o "emit" (MEmit (emit_ buses)) in
  obj_set o "listen" (MListen (listen (eventBus g))).

(** Lines 78-79: the channels are those given, or what the function
    given makes of [createEventBus]. *)
Definition resolve (defineChannels : ChannelsDef) : prog (obj EventHubChannel) :=
  match defineChannels with
  | Factory f => f createEventBus
  | Channels m => Ret m
  end.

(** [createEventHub] (lines 74-94).  [global], the bus that line 77 gets
    from [createEventBus()], is bus [g]. *)
Definition createEventHub (defineChannels : ChannelsDef) : prog EventHub :=
  NewBus (fun g =>
    buses ← resolve defineChannels;
    store ← forEach_entries g buses [];
    Ret (hub_object g buses store)).

(** *** Using a hub *)

(** [hub.on(e, a)], [hub.emit(e, a)], [hub.listen(a)]: calling a member
    that is not a function is a [TypeError]. *)
Definition hub_on (hub : EventHub) (e : string) (a : listener) : prog thunk :=
  match js_read hub "on" with
  | Own (MOn f) => f e a
  | _ => Throw TypeError
  end.

Definition hub_emit (hub : EventHub) (e : string) (a : jsval) : prog unit :=
  match js_read hub "emit" with
  | Own (MEmit f) => f e a
  | _ => Throw TypeError
  end.

Definition hub_listen (hub : EventHub) (a : listener) : prog thunk :=
  match js_read hub "listen" with
  | Own (MListen f) => f a
  | _ => Throw TypeError
  end.

(** [hub.store]. *)
Definition hub_store (hub : EventHub) : Store :=
  match js_read hub "store" with
  | Own (MStore s) => s
  | _ => []
  end.

(** What is thrown when calls are nested deeper than the stack allows. *)
Definition RangeError : jsval := VStr "RangeError".

(** Reading [store.<name>]: an own property is an accessor property and
    the read calls its getter on the store, so that [this] in the getter
    is [store], and a read of [this.<k>] there is a read of [store.<k>];
    otherwise the read gives what every object inherits under that name,
    or [undefined].  [depth] is the number of calls of getters that the
    stack has room for: a getter may read [store] again. *)
Fixpoint read_store (depth : nat) (store : Store) (name : string) : prog jsval :=
  match js_read store name with
  | Own get =>
      match depth with
      | 0 => Throw RangeError
      | S d => get (ThisObject (read_store d store))
      end
  | Inherited => Ret (VBuiltin name)
  | Undefined => Ret VUndefined
  end.

(** [store] as the receiver of its getters, with room for [depth] more
    calls. *)
Definition store_this (depth : nat) (store : Store) : receiver :=
  ThisObject (read_store depth store).

(** ** The store of buses and the interpreter *)

(** What a run leaves in its trace, in the order it happened. *)
Inductive event : Type :=
| EvListen (h : handle) (l : listener)
| EvUnsub (h : handle)
| EvEmit (b : bus_id) (p : jsval)
| EvInvoke (h : handle) (l : listener) (p : jsval).

(** Modelled from the spec: the listener registry of a bus, which
    [./eventBus] keeps and is not among the sources.  A registry is the
    list of its registrations in registration order; the unsubscribe
    function empties the slot of its registration, so that slots are
    never reused and unsubscribing twice changes nothing. *)
Record state : Type := {
  st_buses : list (list (option listener));
  st_cells : list jsval;
  st_trace : list event
}.

Definition registry (st : state) (b : bus_id) : list (option listener) :=
  default [] (st_buses st !! b).

(** The slot of a registration: absent, emptied, or holding its listener. *)
Definition slot (st : state) (h : handle) : option (option listener) :=
  registry st h.1 !! h.2.

Definition log (ev : event) (st : state) : state :=
  {| st_buses := st_buses st; st_cells := st_cells st;
     st_trace := st_trace st ++ [ev] |}.

Definition new_bus (st : state) : state :=
  {| st_buses := st_buses st ++ [[]]; st_cells := st_cells st;
     st_trace := st_trace st |}.

(** Modelled from the spec: [listen(cb)] of a bus puts [cb] last in its
    registry. *)
Definition add_listener (b : bus_id) (l : listener) (st : state) : state :=
  {| st_buses := alter (fun r => r ++ [Some l]) b (st_buses st);
     st_cells := st_cells st; st_trace := st_trace st |}.

(** Modelled from the spec: the unsubscribe function of a registration
    empties its slot. *)
Definition remove_listener (h : handle) (st : state) : state :=
  {| st_buses := alter (fun r => <[h.2 := None]> r) h.1 (st_buses st);
     st_cells := st_cells st; st_trace := st_trace st |}.

Definition set_cell (c : nat) (v : jsval) (st : state) : state :=
  {| st_buses := st_buses st; st_cells := <[c := v]> (st_cells st);
     st_trace := st_trace st |}.

(** How a run ends: it returns, it throws, it is cut short by the fuel,
    or it used a bus, registration or cell that does not exist, which no
    JavaScript program can hold a reference to. *)
Inductive outcome (A : Type) : Type :=
| Done (a : A)
| Thrown (e : jsval)
| OutOfFuel
| Invalid.

Arguments Done {A} a.
Arguments Thrown {A} e.
Arguments OutOfFuel {A}.
Arguments Invalid {A}.

(** The bodies of the caller's functions, by identity. *)
Definition code_table : Type := nat -> jsval -> prog unit.

Section Interpreter.

Variable code : code_table.

(** Calling a listener with a payload; line 84 for the hub's own. *)
Definition invoke (l : listener) (payload : jsval) : prog unit :=
  match l with
  | Forward g name => emit (eventBus g) (tagged name payload)
  | User id => code id payload
  end.

(** Modelled from the spec: [emit(payload)] of a bus, which is in
    [./eventBus].  It goes through the registrations present when the
    emission starts, first registered first, and calls each one that
    has not been unsubscribed by the time it is reached; a listener
    that throws ends the emission.  The spec leaves open whether a
    listener registered while an emission is under way is called by it;
    here it is called from the next emission on. *)
Fixpoint emit_loop (exec : prog unit -> state -> outcome unit * state)
    (b : bus_id) (payload : jsval) (slots : list nat) (st : state)
    : outcome unit * state :=
  match slots with
  | [] => (Done tt, st)
  | i :: rest =>
      match registry st b !! i with
      | Some (Some l) =>
          match exec (invoke l payload) (log (EvInvoke (b, i) l payload) st) with
          | (Done _, st') => emit_loop exec b payload rest st'
          | r => r
          end
      | _ => emit_loop exec b payload rest st
      end
  end.

(** Running a program.  Calls are synchronous: an emission runs its
    listeners, and whatever they emit in turn, before the caller goes
    on.  An emission can emit again without end, hence the fuel. *)
Fixpoint run (fuel : nat) (A : Type) (m : prog A) (st : state) {struct fuel}
    : outcome A * state :=
  match fuel with
  | 0 => (OutOfFuel, st)
  | S n =>
      match m with
      | Ret a => (Done a, st)
      | Throw e => (Thrown e, st)
      | NewBus k => run n A (k (length (st_buses st))) (new_bus st)
      | ListenOp b l k =>
          if decide (b < length (st_buses st)) then
            let h := (b, length (registry st b)) in
            run n A (k h) (log (EvListen h l) (add_listener b l st))
          else (Invalid, st)
      | UnsubOp h k =>
          if decide (h.2 < length (registry st h.1)) then
            run n A k (log (EvUnsub h) (remove_listener h st))
          else (Invalid, st)
      | EmitOp b p k =>
          if decide (b < length (st_buses st)) then
            match emit_loop (run n unit) b p (seq 0 (length (registry st b)))
                    (log (EvEmit b p) st) with
            | (Done _, st') => run n A k st'
            | (Thrown e, st') => (Thrown e, st')
            | (OutOfFuel, st') => (OutOfFuel, st')
            | (Invalid, st') => (Invalid, st')
            end
          else (Invalid, st)
      | GetCell c k =>
          match st_cells st !! c with
          | Some v => run n A (k v) st
          | None => (Invalid, st)
          end
      | SetCell c v k =>
          if decide (c < length (st_cells st)) then run n A k (set_cell c v st)
          else (Invalid, st)
      end
  end.

End Interpreter.

Arguments run code fuel {A} m st.

Definition empty_state : state :=
  {| st_buses := []; st_cells := []; st_trace := [] |}.

(** ** Observations on a trace *)

Definition is_invoke (h : handle) (x : jsval) (ev : event) : bool :=
  match ev with
  | EvInvoke h' _ x' => bool_decide (h' = h) && jsval_eqb x' x
  | _ => false
  end.

Definition is_emit (b : bus_id) (x : jsval) (ev : event) : bool :=
  match ev with
  | EvEmit b' x' => bool_decide (b' = b) && jsval_eqb x' x
  | _ => false
  end.

Fixpoint count (P : event -> bool) (evs : list event) : nat :=
  match evs with
  | [] => 0
  | ev :: evs' => (if P ev then 1 else 0) + count P evs'
  end.

(** The payloads a registration was called with, in order. *)
Definition received (h : handle) (evs : list event) : list jsval :=
  omap (fun ev => match ev with
                  | EvInvoke h' _ x => if decide (h' = h) then Some x else None
                  | _ => None
                  end) evs.

(** [store] as the loop of lines 82-85 leaves it. *)
Definition store_of (buses : obj EventHubChannel) (store : Store) : Store :=
  foldl (fun store kv =>
           match value kv.2 with
           | Some get => defineProperty store kv.1 get
           | None => store
           end) store buses.

(** The members of the hub that are the hub's own (lines 89-92). *)
Definition hub_members : list string := ["store"; "on"; "emit"; "listen"].

(** [exec'] gives every result that [exec] gives. *)
Definition exec_le (exec exec' : prog unit -> state -> outcome unit * state) : Prop :=
  forall m s o s', exec m s = (o, s') -> o ≠ OutOfFuel -> exec' m s = (o, s').

(** What a run added to the trace. *)
Definition new_events (st st' : state) : list event :=
  drop (length (st_trace st)) (st_trace st').

(** A channel that listens and emits on bus [b]; its [value] is free. *)
Definition on_bus (b : bus_id) (bus : EventHubChannel) : Prop :=
  (forall cb, listen bus cb = listen (eventBus b) cb) /\
  (forall p, emit bus p = emit (eventBus b) p).

(** The atomic steps of a run: every change of the state, and every
    entry of the trace, is one of these. *)
Inductive step : state -> state -> Prop :=
| step_new st :
    step st (new_bus st)
| step_listen st b l :
    b < length (st_buses st) ->
    step st (log (EvListen (b, length (registry st b)) l) (add_listener b l st))
| step_unsub st h :
    h.2 < length (registry st h.1) ->
    step st (log (EvUnsub h) (remove_listener h st))
| step_emit st b p :
    b < length (st_buses st) ->
    step st (log (EvEmit b p) st)
| step_invoke st b i l p :
    registry st b !! i = Some (Some l) ->
    step st (log (EvInvoke (b, i) l p) st)
| step_set st c v :
    c < length (st_cells st) ->
    step st (set_cell c v st).

(** Channels that are buses: [entries] names the bus of each channel. *)
Definition channels_on (buses : obj EventHubChannel)
    (entries : list (string * bus_id)) : Prop :=
  Forall2 (fun kv e => kv.1 = e.1 /\ on_bus e.2 kv.2) buses entries.

(** The state after the hub's forwarding listener for each entry has
    been registered, in order, and the registrations made. *)
Fixpoint register_all (g : bus_id) (entries : list (string * bus_id))
    (st : state) : state :=
  match entries with
  | [] => st
  | (name, b) :: rest =>
      register_all g rest
        (log (EvListen (b, length (registry st b)) (Forward g name))
             (add_listener b (Forward g name) st))
  end.

Fixpoint forwarders (g : bus_id) (entries : list (string * bus_id))
    (st : state) : list (string * handle) :=
  match entries with
  | [] => []
  | (name, b) :: rest =>
      (name, (b, length (registry st b)))
        :: forwarders g rest
             (log (EvListen (b, length (registry st b)) (Forward g name))
                  (add_listener b (Forward g name) st))
  end.

(** [x] comes before [y] in [l]. *)
Definition appears_before {A} (x y : A) (l : list A) : Prop :=
  exists l1 l2 l3, l = l1 ++ x :: l2 ++ y :: l3.

(** ** What belongs to a hub *)

(** Calls of a forwarding listener of the hub whose global bus is [g]
    that forward the event [y]. *)
Definition is_forward (g : bus_id) (y : jsval) (ev : event) : bool :=
  match ev with
  | EvInvoke _ (Forward g' name) x => bool_decide (g' = g) && jsval_eqb (tagged name x) y
  | _ => false
  end.

(** The global bus [g] of a hub and the registrations [fw] of its
    forwarding listeners are known to [createEventHub] alone: [global] and
    the closures are local to it, and it drops the unsubscribe functions.
    [outside g fw m]: the program [m] does not emit on [g], does not
    register a forwarding listener of that hub, and does not unsubscribe
    one. *)
Fixpoint outside (g : bus_id) (fw : list handle) {A} (m : prog A) : Prop :=
  match m with
  | Ret _ | Throw _ => True
  | NewBus k => forall b, b ≠ g -> outside g fw (k b)
  | ListenOp b l k =>
      (forall name : string, Forward g name ≠ l) /\
      (forall h, h ∉ fw -> outside g fw (k h))
  | UnsubOp h k => (h ∉ fw) /\ outside g fw k
  | EmitOp b p k => b ≠ g /\ outside g fw k
  | GetCell c k => forall v, outside g fw (k v)
  | SetCell c v k => outside g fw k
  end.

(** The body of a forwarding listener of the hub, line 84. *)
Definition forwarding (g : bus_id) {A} (m : prog A) : Prop :=
  match m with
  | EmitOp b p (Ret _) => b = g /\ exists name x, p = tagged name x
  | _ => False
  end.

(** The emission on [g] that the body of a forwarding listener makes. *)
Definition owed (g : bus_id) (y : jsval) {A} (m : prog A) : nat :=
  match m with
  | EmitOp b p _ => if bool_decide (b = g) && jsval_eqb p y then 1 else 0
  | _ => 0
  end.

(** The entries of a trace that only the hub could make. *)
Definition hub_only (g : bus_id) (fw : list handle) (ev : event) : Prop :=
  match ev with
  | EvListen h (Forward g' _) => g' = g
  | EvUnsub h => h ∈ fw
  | _ => False
  end.

(** A state in which the hub with global bus [g] is in place: its
    forwarding listeners [fws], by channel name, are registered, and no
    other registration is a forwarding listener of it. *)
Record hub_state (g : bus_id) (fws : list (string * handle)) (st : state) : Prop := {
  hs_global : g < length (st_buses st);
  hs_forwarders : forall name h,
    (name, h) ∈ fws -> slot st h = Some (Some (Forward g name));
  hs_only : forall name h,
    slot st h = Some (Some (Forward g name)) -> (name, h) ∈ fws
}.

(** Whether the emission of [p] on [b0] over the slots [sl] is to call
    the registration [(b, j)] with [x]. *)
Definition due (b0 : bus_id) (p : jsval) (sl : list nat) (b j : nat) (x : jsval) : nat :=
  if bool_decide (b0 = b) && jsval_eqb p x && bool_decide (j ∈ sl) then 1 else 0.

(** The global bus and the forwarding registrations exist. *)
Definition hub_refs (g : bus_id) (fw : list handle) (st : state) : Prop :=
  g < length (st_buses st) /\ forall h, h ∈ fw -> h.2 < length (registry st h.1).

(** The names of the channels that have a [value] accessor, in the order
    of the mapping: the names for which line 83 defines a property. *)
Definition valued (buses : obj EventHubChannel) : list string :=
  (filter (fun kv : string * EventHubChannel => is_Some (value kv.2)) buses).*1.

(** The forwarding listeners that line 84 registers on bus [b], in the
    order of the channels. *)
Definition forwarders_on (g : bus_id) (entries : list (string * bus_id))
    (b : bus_id) : list (option listener) :=
  (fun e : string * nat => Some (Forward g e.1))
    <$> filter (fun e : string * nat => e.2 = b) entries.

(** Every call of a forwarding listener of the hub with global bus [g]
    in [evs] is followed at once by the emission on [g] of the object
    [{ name, details: payload }] that line 84 makes of its payload. *)
Definition forwards_at_once (g : bus_id) (evs : list event) : Prop :=
  forall evs1 h name p evs2,
    evs = evs1 ++ EvInvoke h (Forward g name) p :: evs2 ->
    exists evs3,
      evs2 = EvEmit g (VObj [("name", VStr name); ("details", p)]) :: evs3.

(** ** Hubs *)

(** [hub_from code def st buses hub st']: called in state [st],
    [createEventHub def] returned [hub] and left state [st'], [buses]
    being the channels that [def] resolved to. *)
Definition hub_from (code : code_table) (def : ChannelsDef) (st : state)
    (buses : obj EventHubChannel) (hub : EventHub) (st' : state) : Prop :=
  exists fuel st1,
    run code fuel (resolve def) (new_bus st) = (Done buses, st1) /\
    run code fuel (createEventHub def) st = (Done hub, st').

(** ** Sample channels, hubs and listeners *)

(** Listeners that do nothing. *)
Definition no_code : code_table := fun _ _ => Ret tt.

(** A channel on bus [b] that keeps a value in cell [c], as an event
    stack does: [value] is a closure that reads the cell, whatever it is
    called on. *)
Definition stateChannel (b : bus_id) (c : nat) : EventHubChannel := {|
  listen := listen (eventBus b);
  emit := emit (eventBus b);
  value := Some (fun _ => GetCell c (fun v => Ret v))
|}.

(** A channel on bus [b] whose [value] is written as a method,
    [{ cur, value() { return this.cur } }], [cur] being kept in cell [c]:
    called on the channel it reads the cell, called on another object it
    reads that object's [cur]. *)
Definition methodChannel (b : bus_id) (c : nat) : EventHubChannel := {|
  listen := listen (eventBus b);
  emit := emit (eventBus b);
  value := Some (fun this =>
                   match this with
                   | ThisChannel => GetCell c (fun v => Ret v)
                   | ThisObject read => read "cur"
                   end)
|}.

(** [createEventHub({ c: method0 })]. *)
Definition method_channels : obj EventHubChannel := [("c", methodChannel 0 0)].

Definition method_hub : EventHub :=
  hub_object 2 method_channels (store_of method_channels []).

Definition method_state : state :=
  {| st_buses := [[Some (Forward 2 "c")]; []; []]; st_cells := [VNum 0];
     st_trace := [EvListen (0, 0) (Forward 2 "c")] |}.

(** Two buses and one cell, nothing registered. *)
Definition two_buses : state :=
  {| st_buses := [[]; []]; st_cells := [VNum 0]; st_trace := [] |}.

(** [createEventHub({ a: bus0, b: stack1 })]. *)
Definition ab_channels : obj EventHubChannel :=
  [("a", eventBus 0); ("b", stateChannel 1 0)].

Definition ab_hub : EventHub := hub_object 2 ab_channels (store_of ab_channels []).

Definition ab_state : state :=
  {| st_buses := [[Some (Forward 2 "a")]; [Some (Forward 2 "b")]; []];
     st_cells := [VNum 0];
     st_trace := [EvListen (0, 0) (Forward 2 "a"); EvListen (1, 0) (Forward 2 "b")] |}.

(** Channels named as members of the hub and of [Object.prototype] are. *)
Definition odd_channels : obj EventHubChannel :=
  [("store", eventBus 0); ("constructor", eventBus 1)].

Definition odd_hub : EventHub := hub_object 2 odd_channels (store_of odd_channels []).

Definition odd_state : state :=
  {| st_buses := [[Some (Forward 2 "store")]; [Some (Forward 2 "constructor")]; []];
     st_cells := [VNum 0];
     st_trace := [EvListen (0, 0) (Forward 2 "store");
                  EvListen (1, 0) (Forward 2 "constructor")] |}.

(** Listener 0 unsubscribes the registration in slot 2 of bus 0, and
    listener 3 throws. *)
Definition sample_code : code_table := fun id _ =>
  match id with
  | 0 => UnsubOp (0, 2) (Ret tt)
  | 3 => Throw (VStr "boom")
  | _ => Ret tt
  end.

(** [ab_hub] after [hub.on("a", listener0)]. *)
Definition ab_state1 : state :=
  (run sample_code 3 (hub_on ab_hub "a" (User 0)) ab_state).2.

(** ... then [hub.on("a", listener1)] and [hub.on("a", listener2)]. *)
Definition ab_state3 : state :=
  (run sample_code 5 (hub_on ab_hub "a" (User 1);; hub_on ab_hub "a" (User 2))
     ab_state1).2.

(** [ab_hub] after [hub.on("a", ..)] of listeners 1, 3 and 2. *)
Definition ab_throwing : state :=
  (run sample_code 7
     (hub_on ab_hub "a" (User 1);; hub_on ab_hub "a" (User 3);;
      hub_on ab_hub "a" (User 2)) ab_state).2.

(** [createEventHub(bus => ({ a: bus(), b: bus() }))]. *)
Definition ab_factory : ChannelsDef :=
  Factory (fun bus => a ← bus; b ← bus; Ret [("a", a); ("b", b)]).

Definition ab_made : obj EventHubChannel := [("a", eventBus 1); ("b", eventBus 2)].

(** Listener 1 calls [emit(q)] on channel [b] of [chans] from inside its
    callback, as [hub.emit("b", q)] does; listener 0 does nothing. *)
Definition nested_code (chans : obj EventHubChannel) (q : jsval) : code_table :=
  fun id _ =>
    match id with
    | 1 => emit_ chans "b" q
    | _ => Ret tt
    end.

(** The hub makes its channels; listener 0 listens to the hub, listener 1
    is registered on [a] by [hub.on]; then [hub.emit("a", p)]. *)
Definition scenario_on (p : jsval) : prog unit :=
  hub ← createEventHub ab_factory;
  hub_listen hub (User 0);;
  hub_on hub "a" (User 1);;
  hub_emit hub "a" p.

Definition ab_plain : obj EventHubChannel := [("a", eventBus 0); ("b", eventBus 1)].

(** Listener 1 is registered on channel [a] before the hub is made of
    the channels. *)
Definition scenario_before (p : jsval) : prog unit :=
  a ← createEventBus;
  b ← createEventBus;
  listen a (User 1);;
  hub ← createEventHub (Channels [("a", a); ("b", b)]);
  hub_listen hub (User 0);;
  hub_emit hub "a" p.

(** The hub of [ab_factory] just made. *)
Definition empty_hub_state : state :=
  register_all 0 [("a", 1); ("b", 2)] (new_bus (new_bus (new_bus empty_state))).

(** [ab_hub] after [hub.listen(listener3)] and [hub.listen(listener1)]. *)
Definition ab_listened : state :=
  (run sample_code 5 (hub_listen ab_hub (User 3);; hub_listen ab_hub (User 1))
     ab_state).2.

(** The hub of [ab_factory]; [hub.listen(listener0)] and
    [hub.on("a", listener1)]; the states before and after
    [hub.emit("a", 1)], listener 1 being the one of [nested_code]. *)
Definition made_hub : EventHub := hub_object 0 ab_made (store_of ab_made []).

Definition listen_and_on : prog thunk :=
  hub_listen made_hub (User 0);; hub_on made_hub "a" (User 1).

Definition nested_ready : state :=
  (run (nested_code ab_made (VNum 2)) 5 listen_and_on empty_hub_state).2.

Definition nested_done : state :=
  (run (nested_code ab_made (VNum 2)) 8 (hub_emit made_hub "a" (VNum 1)) nested_ready).2.

(** ** Further samples *)

(** A channel whose [listen] throws. *)
Definition brokenChannel (e : jsval) : EventHubChannel := {|
  listen := fun _ => Throw e;
  emit := fun _ => Ret tt;
  value := None
|}.

(** [createEventHub({ a: bus0, x: broken, b: stack1 })]. *)
Definition broken_channels : obj EventHubChannel :=
  [("a", eventBus 0); ("x", brokenChannel (VStr "no")); ("b", stateChannel 1 0)].

(** [createEventHub({ x: bus1, y: bus1 })]: one bus under two names. *)
Definition xy_channels : obj EventHubChannel :=
  [("x", eventBus 1); ("y", eventBus 1)].

(** The state in which that hub is returned when it is made after the
    hub of the nested scenario, and the hub. *)
Definition xy_state : state :=
  register_all 3 [("x", 1); ("y", 1)] (new_bus nested_ready).

Definition xy_hub : EventHub := hub_object 3 xy_channels (store_of xy_channels []).

(** The hub of [ab_factory] with [hub.listen(listener0)] done, and the
    state after [hub.emit("a", 1)] then. *)
Definition listened_state : state :=
  log (EvListen (0, 0) (User 0)) (add_listener 0 (User 0) empty_hub_state).

Definition listened_done : state :=
  (run no_code 8 (hub_emit made_hub "a" (VNum 1)) listened_state).2.

(** * Properties *)

(** ** Values *)

(** [jsval_eqb] decides equality of values. *)
Lemma jsval_eqb_eq : forall x y, jsval_eqb x y = true <-> x = y.
Proof.
  fix IH 1. intros x y.
  destruct x as [|a|a|f|a], y as [|b|b|f'|b]; simpl;
    try (split; [discriminate|discriminate]); try done;
    try (rewrite bool_decide_eq_true; split; congruence).
  revert f'. induction f as [|[k v] f IHf]; intros [|[k' v'] f'].
  - done.
  - split; discriminate.
  - split; discriminate.
  - rewrite !andb_true_iff, bool_decide_eq_true, IH, IHf.
    split; [intros [[-> ->] [= ->]]; done | intros [= -> -> ->]; done].
Qed.

Lemma jsval_eqb_refl x : jsval_eqb x x = true.
Proof. by apply jsval_eqb_eq. Qed.

(** ** Objects *)

Lemma obj_get_set_eq {A} (o : obj A) k v : obj_get (obj_set o k v) k = Some v.
Proof.
  induction o as [|[k' v'] o IH]; simpl.
  - by rewrite decide_True.
  - destruct (decide (k' = k)) as [->|Hne]; simpl.
    + by rewrite decide_True.
    + by rewrite decide_False.
Qed.

Lemma obj_get_set_ne {A} (o : obj A) k k' v :
  k ≠ k' -> obj_get (obj_set o k v) k' = obj_get o k'.
Proof.
  intros Hne. induction o as [|[k0 v0] o IH]; simpl.
  - by rewrite decide_False.
  - destruct (decide (k0 = k)) as [->|Hne0]; simpl.
    + by rewrite !decide_False.
    + destruct (decide (k0 = k')); [done | apply IH].
Qed.

Lemma obj_get_None {A} (o : obj A) k : obj_get o k = None <-> k ∉ obj_keys o.
Proof.
  unfold obj_keys. induction o as [|[k' v'] o IH]; simpl.
  - split; [intros _; apply not_elem_of_nil | done].
  - rewrite not_elem_of_cons. destruct (decide (k' = k)) as [->|Hne].
    + split; [done | intros [? _]; congruence].
    + rewrite IH. split; [intros ?; split; [congruence | done] | by intros [_ ?]].
Qed.

Lemma obj_get_spread {A B} (f : A -> B) (src : obj A) (o : obj B) k :
  NoDup (obj_keys src) ->
  obj_get (obj_spread f o src) k =
    match obj_get src k with
    | Some v => Some (f v)
    | None => obj_get o k
    end.
Proof.
  unfold obj_spread, obj_keys. revert o.
  induction src as [|[k0 v0] src IH]; intros o Hnd; simpl; [done|].
  rewrite fmap_cons in Hnd. apply list.NoDup_cons in Hnd as [Hk0 Hnd].
  simpl in Hk0. rewrite IH by done.
  destruct (decide (k0 = k)) as [->|Hne].
  - apply obj_get_None in Hk0. rewrite Hk0. apply obj_get_set_eq.
  - destruct (obj_get src k); [done|]. by apply obj_get_set_ne.
Qed.

Lemma obj_get_store_of (buses : obj EventHubChannel) (store : Store) name :
  NoDup (obj_keys buses) ->
  obj_get (store_of buses store) name =
    match obj_get buses name with
    | Some bus =>
        match value bus with
        | Some get => Some get
        | None => obj_get store name
        end
    | None => obj_get store name
    end.
Proof.
  unfold store_of, obj_keys. revert store.
  induction buses as [|[k0 bus0] buses IH]; intros store Hnd; simpl; [done|].
  rewrite fmap_cons in Hnd. apply list.NoDup_cons in Hnd as [Hk0 Hnd].
  simpl in Hk0. rewrite IH by done.
  apply obj_get_None in Hk0.
  destruct (decide (k0 = name)) as [->|Hne].
  - rewrite Hk0. destruct (value bus0); [apply obj_get_set_eq | done].
  - destruct (obj_get buses name) as [bus|] eqn:Hb.
    + destruct (value bus); [done|].
      destruct (value bus0); [by apply obj_get_set_ne | done].
    + destruct (value bus0); [by apply obj_get_set_ne | done].
Qed.

(** The hub's own members come after the spread and win over it. *)
Lemma hub_object_own g buses store :
  obj_get (hub_object g buses store) "store" = Some (MStore store) /\
  obj_get (hub_object g buses store) "on" = Some (MOn (on_ buses)) /\
  obj_get (hub_object g buses store) "emit" = Some (MEmit (emit_ buses)) /\
  obj_get (hub_object g buses store) "listen" = Some (MListen (listen (eventBus g))).
Proof.
  unfold hub_object. repeat split.
  - rewrite !obj_get_set_ne by done. apply obj_get_set_eq.
  - rewrite !obj_get_set_ne by done. apply obj_get_set_eq.
  - rewrite !obj_get_set_ne by done. apply obj_get_set_eq.
  - apply obj_get_set_eq.
Qed.

Lemma hub_object_channel g buses store k :
  NoDup (obj_keys buses) -> k ∉ hub_members ->
  obj_get (hub_object g buses store) k = MChannel <$> obj_get buses k.
Proof.
  intros Hnd Hk. unfold hub_members in Hk.
  rewrite !not_elem_of_cons in Hk. destruct Hk as (? & ? & ? & ? & _).
  unfold hub_object. rewrite !obj_get_set_ne by done.
  rewrite obj_get_spread by done. by destruct (obj_get buses k).
Qed.

(** ** The interpreter *)

Section RunFacts.

Context (code : code_table).

Lemma emit_loop_mono exec exec' b p slots st o st' :
  exec_le exec exec' ->
  emit_loop code exec b p slots st = (o, st') -> o ≠ OutOfFuel ->
  emit_loop code exec' b p slots st = (o, st').
Proof.
  intros Hle. revert st.
  induction slots as [|i rest IH]; intros st; simpl; [done|].
  destruct (registry st b !! i) as [[l|]|]; [|by apply IH..].
  destruct (exec _ _) as [o1 s1] eqn:E.
  destruct o1 as [[]| | |]; intros H Ho.
  - rewrite (Hle _ _ _ _ E) by done. by apply IH.
  - rewrite (Hle _ _ _ _ E) by done. done.
  - congruence.
  - rewrite (Hle _ _ _ _ E) by done. done.
Qed.

(** More fuel does not change a result. *)
Lemma run_mono n : forall A (m : prog A) st o st' n',
  run code n m st = (o, st') -> o ≠ OutOfFuel -> n <= n' ->
  run code n' m st = (o, st').
Proof.
  induction n as [|n IH]; intros A m st o st' n' H Ho Hn; simpl in H.
  { congruence. }
  destruct n' as [|n']; [lia|]. assert (n <= n') by lia. simpl.
  destruct m; repeat case_decide; try (by eapply IH); try done.
  - destruct (emit_loop _ _ _ _ _ _) as [o1 s1] eqn:E.
    assert (Hle : exec_le (run code n (A:=unit)) (run code n' (A:=unit))).
    { intros m' s o' s' ? ?. by eapply IH. }
    destruct o1 as [[]| | |].
    + rewrite (emit_loop_mono _ _ _ _ _ _ _ _ Hle E) by done. by eapply IH.
    + rewrite (emit_loop_mono _ _ _ _ _ _ _ _ Hle E) by done. done.
    + congruence.
    + rewrite (emit_loop_mono _ _ _ _ _ _ _ _ Hle E) by done. done.
  - destruct (st_cells st !! c); [by eapply IH | done].
Qed.

Lemma run_det n n' A (m : prog A) st o st' o' st'' :
  run code n m st = (o, st') -> o ≠ OutOfFuel ->
  run code n' m st = (o', st'') -> o' ≠ OutOfFuel ->
  o = o' /\ st' = st''.
Proof.
  intros H Ho H' Ho'.
  apply (run_mono _ _ _ _ _ _ (n `max` n')) in H; [|done|lia].
  apply (run_mono _ _ _ _ _ _ (n `max` n')) in H'; [|done|lia].
  split; congruence.
Qed.

(** A sequence that returns: its first part returned, then the rest. *)
Lemma run_bind_inv n : forall A B (m : prog A) (f : A -> prog B) st o st',
  run code n (m ≫= f) st = (o, st') -> o ≠ OutOfFuel ->
  (exists a st1, run code n m st = (Done a, st1) /\ run code n (f a) st1 = (o, st')) \/
  (exists e, o = Thrown e /\ run code n m st = (Thrown e, st')) \/
  (o = Invalid /\ run code n m st = (Invalid, st')).
Proof.
  unfold mbind, prog_bind.
  induction n as [|n IH]; intros A B m f st o st' H Ho; simpl in H.
  { congruence. }
  assert (Hup : forall (a : A) st1 ,
    (run code n (f a) st1 = (o, st') -> run code (S n) (f a) st1 = (o, st'))).
  { intros. eapply run_mono; [done..|lia]. }
  assert (Hinv : forall st0, (Invalid, st0) = (o, st') ->
    o = Invalid /\ (@Invalid A, st0) = (Invalid, st')).
  { intros st0 [= <- <-]. done. }
  destruct m; simpl in *; repeat case_decide;
    try (apply IH in H as [(a & st1 & ? & ?)|[(e & ? & ?)|[? ?]]]; eauto 10; fail);
    try (right; right; by apply Hinv).
  - left. eauto.
  - right. left. exists e. split; congruence.
  - destruct (emit_loop _ _ _ _ _ _) as [o1 s1] eqn:E.
    destruct o1 as [[]| | |].
    + apply IH in H as [(a & st1 & ? & ?)|[(e & ? & ?)|[? ?]]]; eauto 10.
    + right. left. exists e. split; congruence.
    + congruence.
    + right; right; by apply Hinv.
  - destruct (st_cells st !! c).
    + apply IH in H as [(a & st1 & ? & ?)|[(e & ? & ?)|[? ?]]]; eauto 10.
    + right; right; by apply Hinv.
Qed.

Lemma run_bind n : forall A B (m : prog A) (f : A -> prog B) st a st1 n' o st',
  run code n m st = (Done a, st1) ->
  run code n' (f a) st1 = (o, st') -> o ≠ OutOfFuel ->
  run code (n + n') (m ≫= f) st = (o, st').
Proof.
  unfold mbind, prog_bind.
  induction n as [|n IH]; intros A B m f st a st1 n' o st' H H' Ho; simpl in H.
  { congruence. }
  destruct m;
    [ injection H as -> ->;
      change (run code (S n + n') (f a) st1 = (o, st'));
      eapply run_mono; [done..|lia] | ..];
    simpl in *; repeat case_decide; try (by eapply IH); try done.
  - destruct (emit_loop _ _ _ _ _ _) as [o1 s1] eqn:E.
    assert (Hle : exec_le (run code n (A:=unit)) (run code (n + n') (A:=unit))).
    { intros m' s o' s' ? ?. eapply run_mono; [done..|lia]. }
    destruct o1 as [[]| | |]; try done.
    rewrite (emit_loop_mono _ _ _ _ _ _ _ _ Hle E) by done. by eapply IH.
  - destruct (st_cells st !! c); [by eapply IH | done].
Qed.

(** What the loop of lines 82-85 returns is [store_of]. *)
Lemma forEach_entries_store g buses : forall store n st s st',
  run code n (forEach_entries g buses store) st = (Done s, st') ->
  s = store_of buses store.
Proof.
  induction buses as [|[name bus] buses IH]; intros store n st s st' H.
  - destruct n; simpl in H; [done|]. by injection H as <- <-.
  - simpl in H. apply run_bind_inv in H
      as [(a & st1 & _ & H)|[(e & ? & _)|[? _]]]; [|done..].
    apply IH in H. subst s. done.
Qed.

(** The shape of every hub. *)
Lemma hub_from_inv def st buses hub st' :
  hub_from code def st buses hub st' ->
  hub = hub_object (length (st_buses st)) buses (store_of buses []).
Proof.
  intros (fuel & st1 & Hres & H).
  destruct fuel as [|n]; simpl in H; [congruence|].
  apply run_bind_inv in H as [(buses' & st1' & Hres' & H)|[(e & ? & _)|[? _]]]; [|done..].
  destruct (run_det _ _ _ _ _ _ _ _ _ Hres ltac:(done) Hres' ltac:(done)) as [Hb _].
  injection Hb as <-.
  apply run_bind_inv in H as [(store & st2 & Hstore & H)|[(e & ? & _)|[? _]]]; [|done..].
  apply forEach_entries_store in Hstore. subst store.
  destruct n; simpl in H; [done|]. by injection H as <- <-.
Qed.

End RunFacts.

(** ** Runs as sequences of steps *)

Lemma registry_new_bus st b : registry (new_bus st) b = registry st b.
Proof.
  unfold registry, new_bus; simpl.
  destruct (decide (b < length (st_buses st))) as [Hlt|Hge].
  - by rewrite lookup_app_l.
  - rewrite (lookup_ge_None_2 (st_buses st)) by lia.
    destruct (decide (b = length (st_buses st))) as [->|Hne].
    + by rewrite list_lookup_middle.
    + rewrite lookup_ge_None_2; [done|]. rewrite length_app; simpl; lia.
Qed.

Lemma registry_log st ev b : registry (log ev st) b = registry st b.
Proof. done. Qed.

Lemma registry_set_cell st c v b : registry (set_cell c v st) b = registry st b.
Proof. done. Qed.

Lemma registry_add_listener st b l b' :
  b < length (st_buses st) ->
  registry (add_listener b l st) b' =
    if decide (b' = b) then registry st b ++ [Some l] else registry st b'.
Proof.
  intros Hb. unfold registry, add_listener; simpl.
  destruct (decide (b' = b)) as [->|Hne].
  - rewrite list_lookup_alter, decide_True by done.
    destruct (st_buses st !! b) eqn:E; [done|].
    apply lookup_ge_None in E. lia.
  - by rewrite list_lookup_alter, decide_False.
Qed.

Lemma registry_remove_listener st h b' :
  registry (remove_listener h st) b' =
    if decide (b' = h.1) then <[h.2 := None]> (registry st b') else registry st b'.
Proof.
  unfold registry, remove_listener; simpl.
  destruct (decide (b' = h.1)) as [->|Hne].
  - rewrite list_lookup_alter, decide_True by done.
    by destruct (st_buses st !! h.1).
  - by rewrite list_lookup_alter, decide_False.
Qed.

Section Steps.

Context (code : code_table).

Lemma emit_loop_steps exec b p slots : forall st o st',
  (forall m s o s', exec m s = (o, s') -> rtc step s s') ->
  emit_loop code exec b p slots st = (o, st') -> rtc step st st'.
Proof.
  induction slots as [|i rest IH]; intros st o st' Hexec; simpl.
  { by intros [= <- <-]. }
  destruct (registry st b !! i) as [[l|]|] eqn:Hl; [|by apply IH..].
  destruct (exec _ _) as [o1 s1] eqn:E. intros H.
  apply Hexec in E.
  assert (rtc step st s1) by (eapply rtc_l; [by apply step_invoke|done]).
  destruct o1 as [[]| | |]; try (by injection H as <- <-).
  etrans; [done|]. by eapply IH.
Qed.

(** Every run is a sequence of steps. *)
Lemma run_steps n : forall A (m : prog A) st o st',
  run code n m st = (o, st') -> rtc step st st'.
Proof.
  induction n as [|n IH]; intros A m st o st' H; simpl in H.
  { by injection H as <- <-. }
  destruct m; repeat case_decide; try (by injection H as <- <-).
  - eapply rtc_l; [apply step_new|]. by eapply IH.
  - eapply rtc_l; [by apply step_listen|]. by eapply IH.
  - eapply rtc_l; [by apply step_unsub|]. by eapply IH.
  - destruct (emit_loop _ _ _ _ _ _) as [o1 s1] eqn:E.
    apply emit_loop_steps in E; [|by intros; eapply IH].
    assert (rtc step st s1) by (eapply rtc_l; [by apply step_emit|done]).
    destruct o1 as [[]| | |]; try (by injection H as <- <-).
    etrans; [done|]. by eapply IH.
  - destruct (st_cells st !! c); [by eapply IH | by injection H as <- <-].
  - eapply rtc_l; [by apply step_set|]. by eapply IH.
Qed.

End Steps.

(** *** What steps keep *)

Lemma step_trace st st' :
  step st st' -> exists evs, st_trace st' = st_trace st ++ evs.
Proof.
  destruct 1; simpl; eauto; exists []; by rewrite app_nil_r.
Qed.

Lemma steps_trace st st' :
  rtc step st st' -> st_trace st' = st_trace st ++ new_events st st'.
Proof.
  intros H. assert (exists evs, st_trace st' = st_trace st ++ evs) as [evs Hevs].
  { induction H as [|st st1 st' H1 _ [evs2 IH]]; [exists []; by rewrite app_nil_r|].
    destruct (step_trace _ _ H1) as [evs1 Hevs1].
    exists (evs1 ++ evs2). by rewrite IH, Hevs1, (assoc (++)). }
  unfold new_events. by rewrite Hevs, drop_app_length.
Qed.

Lemma new_events_trans st st1 st' :
  rtc step st st1 -> rtc step st1 st' ->
  new_events st st' = new_events st st1 ++ new_events st1 st'.
Proof.
  intros H1 H2. assert (H3 : rtc step st st') by (by etrans).
  apply steps_trace in H1, H2, H3.
  rewrite H2, H1, <-(assoc (++)) in H3. by apply app_inv_head in H3.
Qed.

Lemma step_buses st st' : step st st' -> length (st_buses st) <= length (st_buses st').
Proof.
  destruct 1; simpl; rewrite ?length_app, ?length_alter; simpl; lia.
Qed.

Lemma steps_buses st st' :
  rtc step st st' -> length (st_buses st) <= length (st_buses st').
Proof.
  induction 1 as [|st st1 st' H1 _ IH]; [done|].
  apply step_buses in H1. lia.
Qed.

(** *** Slots *)

Lemma new_events_same st st' : st_trace st' = st_trace st -> new_events st st' = [].
Proof. intros H. unfold new_events. rewrite H. apply drop_all. Qed.

Lemma new_events_logged st st2 ev :
  st_trace st2 = st_trace st -> new_events st (log ev st2) = [ev].
Proof. intros H. unfold new_events, log; simpl. by rewrite H, drop_app_length. Qed.

(** A step leaves a slot as it is, unless it is the unsubscription of
    that slot, which empties it. *)
Lemma step_slot st st' h x :
  step st st' -> slot st h = Some x ->
  slot st' h = Some x \/ (slot st' h = Some None /\ new_events st st' = [EvUnsub h]).
Proof.
  unfold slot. destruct h as [b i]; cbn [fst snd].
  destruct 1 as [st|st b0 l Hb0|st [b0 i0] Hh|st b0 p Hb0|st b0 i0 l p Hl|st c v Hc];
    intros Hx; rewrite ?registry_log, ?registry_set_cell.
  - left. by rewrite registry_new_bus.
  - left. rewrite registry_add_listener by done.
    case_decide; [subst|done]. by apply lookup_app_l_Some.
  - rewrite registry_remove_listener; cbn [fst snd] in *.
    destruct (decide (b = b0)) as [->|Hne]; [|by left].
    destruct (decide (i = i0)) as [->|Hne].
    + right. rewrite list_lookup_insert_eq by done.
      split; [done|]. by apply new_events_logged.
    + left. by rewrite list_lookup_insert_ne.
  - by left.
  - by left.
  - by left.
Qed.

(** Only a live slot is invoked. *)
Lemma step_invoked st st' h l p :
  step st st' -> EvInvoke h l p ∈ new_events st st' -> slot st h = Some (Some l).
Proof.
  destruct 1; (rewrite new_events_logged by done) || (rewrite new_events_same by done);
    intros Hin; try (by apply elem_of_nil in Hin);
    apply list_elem_of_singleton in Hin; try done.
  by injection Hin as -> -> ->.
Qed.

(** An emptied slot stays empty and is not invoked. *)
Lemma steps_dead st st' h :
  rtc step st st' -> slot st h = Some None ->
  slot st' h = Some None /\ forall l p, EvInvoke h l p ∉ new_events st st'.
Proof.
  induction 1 as [st|st st1 st' H1 H2 IH]; intros Hdead.
  - split; [done|]. intros l p. rewrite new_events_same by done. apply not_elem_of_nil.
  - assert (slot st1 h = Some None) as Hdead1.
    { by destruct (step_slot _ _ _ _ H1 Hdead) as [?|[? _]]. }
    destruct (IH Hdead1) as [? Hno]. split; [done|]. intros l p.
    rewrite (new_events_trans st st1 st') by (done || by apply rtc_once).
    rewrite elem_of_app. intros [Hin|Hin]; [|by eapply Hno].
    apply (step_invoked _ _ _ _ _ H1) in Hin. congruence.
Qed.

(** Once the unsubscription of a registration is in the trace, no call
    of that registration comes after it. *)
Lemma steps_unsub_silent st st' :
  rtc step st st' ->
  forall evs1 h evs2 l p,
    new_events st st' = evs1 ++ EvUnsub h :: evs2 -> EvInvoke h l p ∉ evs2.
Proof.
  induction 1 as [st|st st1 st' H1 H2 IH]; intros evs1 h evs2 l p.
  { rewrite new_events_same by done. by intros ?%app_cons_not_nil. }
  rewrite (new_events_trans st st1 st') by (done || by apply rtc_once).
  assert (Hcase : new_events st st1 = [] \/
            (exists h0, new_events st st1 = [EvUnsub h0] /\ slot st1 h0 = Some None) \/
            (exists ev, new_events st st1 = [ev] /\ forall h0, ev ≠ EvUnsub h0)).
  { destruct H1 as [st|st b0 l0 Hb0|st [b0 i0] Hh|st b0 p0 Hb0|st b0 i0 l0 p0 Hl|st c v Hc];
      (rewrite new_events_logged by done) || (rewrite new_events_same by done);
      eauto 6.
    right; left. exists (b0, i0). split; [done|].
    unfold slot; cbn [fst snd]. rewrite registry_log.
    rewrite registry_remove_listener, decide_True by done.
    by apply list_lookup_insert_eq. }
  destruct Hcase as [->|[(h0 & -> & Hdead)|(ev & -> & Hev)]]; simpl.
  - by apply IH.
  - destruct evs1 as [|ev1 evs1]; simpl; intros [= ? Heq].
    + subst. by apply (steps_dead _ _ _ H2 Hdead).
    + by eapply IH.
  - destruct evs1 as [|ev1 evs1]; simpl; intros [= ? Heq].
    + subst. by destruct (Hev h).
    + by eapply IH.
Qed.

(** ** The hub object *)

Lemma ab_hub_from code :
  hub_from code (Channels ab_channels) two_buses ab_channels ab_hub ab_state.
Proof. exists 5, (new_bus two_buses). split; reflexivity. Qed.

Lemma odd_hub_from code :
  hub_from code (Channels odd_channels) two_buses odd_channels odd_hub odd_state.
Proof. exists 5, (new_bus two_buses). split; reflexivity. Qed.

Section HubObject.

Context (code : code_table) (def : ChannelsDef) (st st' : state).
Context (buses : obj EventHubChannel) (hub : EventHub).
Context (Hhub : hub_from code def st buses hub st').

Lemma hub_store_of : hub_store hub = store_of buses [].
Proof.
  rewrite (hub_from_inv _ _ _ _ _ _ Hhub). unfold hub_store, js_read.
  by destruct (hub_object_own (length (st_buses st)) buses (store_of buses []))
    as (-> & _).
Qed.

Lemma hub_on_eq e a : hub_on hub e a = on_ buses e a.
Proof.
  rewrite (hub_from_inv _ _ _ _ _ _ Hhub). unfold hub_on, js_read.
  by destruct (hub_object_own (length (st_buses st)) buses (store_of buses []))
    as (_ & -> & _).
Qed.

Lemma hub_emit_eq e a : hub_emit hub e a = emit_ buses e a.
Proof.
  rewrite (hub_from_inv _ _ _ _ _ _ Hhub). unfold hub_emit, js_read.
  by destruct (hub_object_own (length (st_buses st)) buses (store_of buses []))
    as (_ & _ & -> & _).
Qed.

Lemma hub_listen_eq a : hub_listen hub a = listen (eventBus (length (st_buses st))) a.
Proof.
  rewrite (hub_from_inv _ _ _ _ _ _ Hhub). unfold hub_listen, js_read.
  by destruct (hub_object_own (length (st_buses st)) buses (store_of buses []))
    as (_ & _ & _ & ->).
Qed.

Lemma hub_dispatch name bus :
  obj_get buses name = Some bus ->
  (forall a, hub_on hub name a = listen bus a) /\
  (forall p, hub_emit hub name p = emit bus p).
Proof.
  intros Hbus. split.
  - intros a. rewrite hub_on_eq. unfold on_, js_read. by rewrite Hbus.
  - intros p. rewrite hub_emit_eq. unfold emit_, js_read. by rewrite Hbus.
Qed.

End HubObject.

(** C2, as amended. Reading [store.<name>] of a hub, for a channel with
    a [value] accessor, is a call of that accessor, made at the time of
    the read (the stack having room for the call) and on the store:
    [this] in it is [store], not the channel. Nothing is kept from
    construction. For an accessor that does not use the object it is
    called on (a closure, an arrow function, a bound function), the read
    is [channel.value()]: in whatever state it is made it returns what
    the accessor returns then. *)
Theorem store_reads_through code def st buses hub st' name bus get depth :
  hub_from code def st buses hub st' ->
  NoDup (obj_keys buses) ->
  obj_get buses name = Some bus ->
  value bus = Some get ->
  read_store (S depth) (hub_store hub) name = get (store_this depth (hub_store hub)) /\
  ((forall this, get this = call_value get) ->
   read_store (S depth) (hub_store hub) name = call_value get /\
   forall fuel s,
     run code fuel (read_store (S depth) (hub_store hub) name) s
       = run code fuel (call_value get) s).
Proof.
  intros Hhub Hnd Hbus Hget.
  assert (Hread : read_store (S depth) (hub_store hub) name
                    = get (store_this depth (hub_store hub))).
  { rewrite (hub_store_of _ _ _ _ _ _ Hhub).
    assert (Hown : js_read (store_of buses []) name = Own get).
    { unfold js_read. rewrite obj_get_store_of by done. by rewrite Hbus, Hget. }
    unfold store_this. cbn [read_store]. by rewrite Hown. }
  split; [done|]. intros Hfree. rewrite Hread, Hfree. done.
Qed.

(** The stack channel [b] of [ab_hub], whose accessor is a closure:
    [store.b] is the cell's content at the time of the read, [5] after
    [5] is written and [7] after [7]. *)
Lemma store_reads_through_witness :
  read_store 1 (hub_store ab_hub) "b" = GetCell 0 (fun v => Ret v) /\
  (run no_code 3 (read_store 1 (hub_store ab_hub) "b") (set_cell 0 (VNum 5) ab_state)).1
    = Done (VNum 5) /\
  (run no_code 3 (read_store 1 (hub_store ab_hub) "b") (set_cell 0 (VNum 7) ab_state)).1
    = Done (VNum 7).
Proof.
  destruct (store_reads_through no_code (Channels ab_channels) two_buses
              ab_channels ab_hub ab_state "b" (stateChannel 1 0)
              (fun _ => GetCell 0 (fun v => Ret v)) 0 (ab_hub_from _)
              ltac:(compute_done) eq_refl eq_refl) as [_ Hfree].
  destruct (Hfree ltac:(reflexivity)) as [Hread Hrun].
  split; [exact Hread|]. split.
  - rewrite (Hrun 3 (set_cell 0 (VNum 5) ab_state)). reflexivity.
  - rewrite (Hrun 3 (set_cell 0 (VNum 7) ab_state)). reflexivity.
Defined.

(** C2 as stated fails: the channel [c] of [method_hub] has its [value]
    written as a method, [value() { return this.cur }]. With [5] as the
    channel's [cur], [channel.value()] returns [5], and the read of
    [store.c], which calls the function on [store], returns [undefined]:
    [store] has no [cur]. *)
Lemma store_reads_through_counterexample :
  hub_from no_code (Channels method_channels) two_buses method_channels method_hub
    method_state /\
  exists get,
    value (methodChannel 0 0) = Some get /\
    run no_code 3 (call_value get) (set_cell 0 (VNum 5) method_state)
      = (Done (VNum 5), set_cell 0 (VNum 5) method_state) /\
    forall depth,
      run no_code 3 (read_store (S depth) (hub_store method_hub) "c")
          (set_cell 0 (VNum 5) method_state)
        = (Done VUndefined, set_cell 0 (VNum 5) method_state).
Proof.
  split.
  { exists 4, (new_bus two_buses). split; reflexivity. }
  eexists. split; [reflexivity|]. split; [reflexivity|].
  intros depth. destruct depth; reflexivity.
Qed.

(** C3, as amended. A channel name is an own property of [hub.store]
    exactly when its channel has a [value] accessor; and [name in store]
    holds exactly when it is such an own property or a name that every
    object inherits from [Object.prototype]. *)
Theorem store_keys code def st buses hub st' name bus :
  hub_from code def st buses hub st' ->
  NoDup (obj_keys buses) ->
  obj_get buses name = Some bus ->
  (hasOwn (hub_store hub) name = true <-> is_Some (value bus)) /\
  (js_in name (hub_store hub) = true <->
     is_Some (value bus) \/ name ∈ Object_prototype).
Proof.
  intros Hhub Hnd Hbus.
  assert (Hown : hasOwn (hub_store hub) name = true <-> is_Some (value bus)).
  { rewrite (hub_store_of _ _ _ _ _ _ Hhub). unfold hasOwn.
    rewrite bool_decide_eq_true, obj_get_store_of, Hbus by done.
    destruct (value bus); simpl; [done|].
    split; intros [? ?]; done. }
  split; [done|]. unfold js_in.
  rewrite orb_true_iff, Hown, bool_decide_eq_true. done.
Qed.

Lemma store_keys_witness :
  (hasOwn (hub_store ab_hub) "b" = true <-> is_Some (value (stateChannel 1 0))) /\
  (js_in "b" (hub_store ab_hub) = true <->
     is_Some (value (stateChannel 1 0)) \/ "b" ∈ Object_prototype).
Proof.
  exact (store_keys no_code (Channels ab_channels) two_buses ab_channels ab_hub
           ab_state "b" (stateChannel 1 0) (ab_hub_from _)
           ltac:(compute_done) eq_refl).
Defined.

(** C3 as stated fails: the channel named [constructor] of [odd_hub] has
    no [value] accessor, and ["constructor" in hub.store] is true. *)
Lemma store_keys_counterexample :
  hub_from no_code (Channels odd_channels) two_buses odd_channels odd_hub odd_state /\
  obj_get odd_channels "constructor" = Some (eventBus 1) /\
  value (eventBus 1) = None /\
  js_in "constructor" (hub_store odd_hub) = true.
Proof. split; [exact (odd_hub_from _)|]. repeat split. Qed.

(** C4, as amended. Every channel whose name is not one of the hub's own
    members [store], [on], [emit], [listen] is a member of the hub under
    its name, the very channel that was given. *)
Theorem hub_channel_member code def st buses hub st' k bus :
  hub_from code def st buses hub st' ->
  NoDup (obj_keys buses) ->
  obj_get buses k = Some bus ->
  k ∉ hub_members ->
  js_read hub k = Own (MChannel bus).
Proof.
  intros Hhub Hnd Hbus Hk. rewrite (hub_from_inv _ _ _ _ _ _ Hhub).
  unfold js_read. rewrite hub_object_channel by done. by rewrite Hbus.
Qed.

Lemma hub_channel_member_witness :
  js_read ab_hub "b" = Own (MChannel (stateChannel 1 0)).
Proof.
  exact (hub_channel_member no_code (Channels ab_channels) two_buses ab_channels
           ab_hub ab_state "b" (stateChannel 1 0) (ab_hub_from _)
           ltac:(compute_done) eq_refl
           ltac:(compute_done)).
Defined.

(** C4 as stated fails: [odd_hub] was given a channel named [store], and
    [hub.store] is the hub's store, not that channel. *)
Lemma hub_channel_member_counterexample :
  hub_from no_code (Channels odd_channels) two_buses odd_channels odd_hub odd_state /\
  obj_get odd_channels "store" = Some (eventBus 0) /\
  js_read odd_hub "store" = Own (MStore []) /\
  js_read odd_hub "store" ≠ Own (MChannel (eventBus 0)).
Proof. split; [exact (odd_hub_from _)|]. repeat split. discriminate. Qed.

(** C5. [hub.on] and [hub.emit] with a name that is not a channel of the
    hub throw a [TypeError], at once and leaving the state as it was:
    the call does not return, and nothing catches the error.  What is
    looked up under the name is [undefined], unless the name is one of
    those that every object inherits, whose built-in has no [listen] or
    [emit] to call. *)
Theorem unknown_channel_throws code def st buses hub st' name :
  hub_from code def st buses hub st' ->
  obj_get buses name = None ->
  (name ∉ Object_prototype -> js_read buses name = Undefined) /\
  forall a p n s,
    hub_on hub name a = Throw TypeError /\
    hub_emit hub name p = Throw TypeError /\
    run code (S n) (hub_on hub name a) s = (Thrown TypeError, s) /\
    run code (S n) (hub_emit hub name p) s = (Thrown TypeError, s).
Proof.
  intros Hhub Hnone. split.
  { intros Hname. unfold js_read. by rewrite Hnone, bool_decide_eq_false_2. }
  intros a p n s.
  rewrite (hub_on_eq _ _ _ _ _ _ Hhub), (hub_emit_eq _ _ _ _ _ _ Hhub).
  unfold on_, emit_, js_read. rewrite Hnone.
  by destruct (bool_decide _).
Qed.

Lemma unknown_channel_throws_witness :
  run no_code 1 (hub_on ab_hub "c" (User 0)) ab_state = (Thrown TypeError, ab_state) /\
  run no_code 1 (hub_emit ab_hub "toString" (VNum 1)) ab_state = (Thrown TypeError, ab_state).
Proof.
  split.
  - exact (proj1 (proj2 (proj2 (proj2 (unknown_channel_throws no_code
             (Channels ab_channels) two_buses ab_channels ab_hub ab_state "c"
             (ab_hub_from _) eq_refl) (User 0) VUndefined 0 ab_state)))).
  - exact (proj2 (proj2 (proj2 (proj2 (unknown_channel_throws no_code
             (Channels ab_channels) two_buses ab_channels ab_hub ab_state "toString"
             (ab_hub_from _) eq_refl) (User 0) (VNum 1) 0 ab_state)))).
Defined.

(** C10. [hub.on] and [hub.emit] look the name up in the channels given
    at construction: for every name among them, the hub's own member
    names included, they are [listen] and [emit] of the channel given
    under that name, while the hub member of such a name is not the
    channel. *)
Theorem dispatch_through_buses code def st buses hub st' name bus :
  hub_from code def st buses hub st' ->
  obj_get buses name = Some bus ->
  (forall a, hub_on hub name a = listen bus a) /\
  (forall p, hub_emit hub name p = emit bus p) /\
  (name ∈ hub_members -> forall c, js_read hub name ≠ Own (MChannel c)).
Proof.
  intros Hhub Hbus. split; [|split].
  - intros a. rewrite (hub_on_eq _ _ _ _ _ _ Hhub). unfold on_, js_read.
    by rewrite Hbus.
  - intros p. rewrite (hub_emit_eq _ _ _ _ _ _ Hhub). unfold emit_, js_read.
    by rewrite Hbus.
  - intros Hk c. rewrite (hub_from_inv _ _ _ _ _ _ Hhub). unfold js_read.
    destruct (hub_object_own (length (st_buses st)) buses (store_of buses []))
      as (Hs & Ho & He & Hl).
    unfold hub_members in Hk. rewrite !elem_of_cons in Hk.
    destruct Hk as [->|[->|[->|[->|Hk]]]].
    + by rewrite Hs.
    + by rewrite Ho.
    + by rewrite He.
    + by rewrite Hl.
    + by apply elem_of_nil in Hk.
Qed.

Lemma dispatch_through_buses_witness :
  (forall a, hub_on odd_hub "store" a = listen (eventBus 0) a) /\
  (forall p, hub_emit odd_hub "store" p = emit (eventBus 0) p) /\
  ("store" ∈ hub_members -> forall c, js_read odd_hub "store" ≠ Own (MChannel c)).
Proof.
  exact (dispatch_through_buses no_code (Channels odd_channels) two_buses
           odd_channels odd_hub odd_state "store" (eventBus 0) (odd_hub_from _) eq_refl).
Defined.

(** ** Unsubscribing and throwing *)

(** C6. [hub.on(name, a)] registers [a] on the channel's bus and returns
    the unsubscribe function of that registration; calling it empties
    the slot; and in no run, whatever the listeners do, is the
    registration called after its unsubscription: not by a later
    emission and not by the emission during which it was unsubscribed. *)
Theorem unsubscribed_never_invoked code def st buses hub st' name bus b a s n :
  hub_from code def st buses hub st' ->
  obj_get buses name = Some bus ->
  on_bus b bus ->
  b < length (st_buses s) ->
  let h := (b, length (registry s b)) in
  run code (S (S n)) (hub_on hub name a) s
    = (Done (UnsubOp h (Ret tt)), log (EvListen h a) (add_listener b a s)) /\
  (forall s2 k, h.2 < length (registry s2 h.1) ->
     run code (S (S k)) (UnsubOp h (Ret tt)) s2
       = (Done tt, log (EvUnsub h) (remove_listener h s2)) /\
     slot (log (EvUnsub h) (remove_listener h s2)) h = Some None) /\
  (forall fuel A (m : prog A) s0 o s1 evs1 evs2 l p,
     run code fuel m s0 = (o, s1) ->
     new_events s0 s1 = evs1 ++ EvUnsub h :: evs2 ->
     EvInvoke h l p ∉ evs2).
Proof.
  intros Hhub Hbus [Hlisten _] Hb h. split; [|split].
  - rewrite (proj1 (hub_dispatch _ _ _ _ _ _ Hhub _ _ Hbus)), Hlisten.
    simpl. by rewrite decide_True.
  - intros s2 k Hh. simpl. rewrite decide_True by done. split; [done|].
    unfold slot. rewrite registry_log, registry_remove_listener, decide_True by done.
    by apply list_lookup_insert_eq.
  - intros fuel A m s0 o s1 evs1 evs2 l p Hrun.
    apply run_steps in Hrun. by apply steps_unsub_silent.
Qed.

(** Listener 0 of [sample_code] unsubscribes listener 1, registered by
    [hub.on] in slot 2, while an emission on [a] is under way: the
    emission goes on to listener 2 and does not call listener 1. *)
Lemma unsubscribed_never_invoked_witness :
  run sample_code 2 (hub_on ab_hub "a" (User 1)) ab_state1
    = (Done (UnsubOp (0, 2) (Ret tt)),
       log (EvListen (0, 2) (User 1)) (add_listener 0 (User 1) ab_state1)) /\
  new_events ab_state3 (run sample_code 5 (hub_emit ab_hub "a" (VNum 1)) ab_state3).2
    = [EvEmit 0 (VNum 1); EvInvoke (0, 0) (Forward 2 "a") (VNum 1);
       EvEmit 2 (tagged "a" (VNum 1)); EvInvoke (0, 1) (User 0) (VNum 1)]
      ++ EvUnsub (0, 2) :: [EvInvoke (0, 3) (User 2) (VNum 1)] /\
  EvInvoke (0, 2) (User 1) (VNum 1) ∉ [EvInvoke (0, 3) (User 2) (VNum 1)].
Proof.
  destruct (unsubscribed_never_invoked sample_code (Channels ab_channels) two_buses
              ab_channels ab_hub ab_state "a" (eventBus 0) 0 (User 1) ab_state1 0
              (ab_hub_from _) eq_refl (conj (fun _ => eq_refl) (fun _ => eq_refl))
              ltac:(compute_done)) as (Hon & _ & Hnever).
  split; [exact Hon|]. split; [reflexivity|].
  exact (Hnever 5 unit (hub_emit ab_hub "a" (VNum 1)) ab_state3 (Done tt)
           (run sample_code 5 (hub_emit ab_hub "a" (VNum 1)) ab_state3).2
           [EvEmit 0 (VNum 1); EvInvoke (0, 0) (Forward 2 "a") (VNum 1);
            EvEmit 2 (tagged "a" (VNum 1)); EvInvoke (0, 1) (User 0) (VNum 1)]
           [EvInvoke (0, 3) (User 2) (VNum 1)]
           (User 1) (VNum 1) eq_refl eq_refl).
Defined.

Lemma emit_loop_app code exec b p pre post st :
  emit_loop code exec b p (pre ++ post) st =
    match emit_loop code exec b p pre st with
    | (Done _, s1) => emit_loop code exec b p post s1
    | r => r
    end.
Proof.
  revert st. induction pre as [|i pre IH]; intros st; simpl; [done|].
  destruct (registry st b !! i) as [[l|]|]; [|done..].
  destruct (exec _ _) as [[[]| | |] s1]; done.
Qed.

(** C9. When the emission on a channel comes to a listener that throws,
    [emit] of the channel and [hub.emit] throw the same exception, in the
    state the listener left: the trace of the emission is its start, what
    the listeners before did, and the call that threw, so that no
    listener registered after it is called by this emission. *)
Theorem listener_throw_propagates code def st buses hub st' name bus b p s n
    pre i post s1 l e s2 :
  hub_from code def st buses hub st' ->
  obj_get buses name = Some bus ->
  on_bus b bus ->
  b < length (st_buses s) ->
  seq 0 (length (registry s b)) = pre ++ i :: post ->
  emit_loop code (run code n) b p pre (log (EvEmit b p) s) = (Done tt, s1) ->
  slot s1 (b, i) = Some (Some l) ->
  run code n (invoke code l p) (log (EvInvoke (b, i) l p) s1) = (Thrown e, s2) ->
  run code (S n) (hub_emit hub name p) s = (Thrown e, s2) /\
  run code (S n) (emit bus p) s = (Thrown e, s2) /\
  new_events s s2 =
    EvEmit b p :: new_events (log (EvEmit b p) s) s1
      ++ EvInvoke (b, i) l p :: new_events (log (EvInvoke (b, i) l p) s1) s2.
Proof.
  intros Hhub Hbus [_ Hemit] Hb Hseq Hpre Hl Hthrow.
  rewrite (proj2 (hub_dispatch _ _ _ _ _ _ Hhub _ _ Hbus)), Hemit.
  assert (run code (S n) (emit (eventBus b) p) s = (Thrown e, s2)) as ->.
  { simpl. rewrite decide_True, Hseq, emit_loop_app, Hpre by done. simpl.
    unfold slot in Hl; simpl in Hl. by rewrite Hl, Hthrow. }
  split; [done|]. split; [done|].
  apply emit_loop_steps in Hpre; [|by intros; eapply run_steps].
  apply run_steps in Hthrow.
  rewrite (new_events_trans s (log (EvEmit b p) s) s2);
    [|by apply rtc_once, step_emit|].
  2:{ etrans; [done|]. eapply rtc_l; [by apply step_invoke|done]. }
  rewrite new_events_logged by done. simpl. f_equal.
  rewrite (new_events_trans _ s1 s2); [|done|].
  2:{ eapply rtc_l; [by apply step_invoke|done]. }
  f_equal.
  rewrite (new_events_trans s1 (log (EvInvoke (b, i) l p) s1) s2);
    [|by apply rtc_once, step_invoke|done].
  by rewrite new_events_logged.
Qed.

(** Listener 3 of [sample_code] throws: the emission on [a] calls the
    forwarding listener and listener 1, then listener 3, and ends there
    with its exception; listener 2, registered after, is not called. *)
Lemma listener_throw_propagates_witness :
  run sample_code 5 (hub_emit ab_hub "a" (VNum 1)) ab_throwing
    = (Thrown (VStr "boom"),
       (run sample_code 5 (hub_emit ab_hub "a" (VNum 1)) ab_throwing).2) /\
  new_events ab_throwing (run sample_code 5 (hub_emit ab_hub "a" (VNum 1)) ab_throwing).2
    = [EvEmit 0 (VNum 1); EvInvoke (0, 0) (Forward 2 "a") (VNum 1);
       EvEmit 2 (tagged "a" (VNum 1)); EvInvoke (0, 1) (User 1) (VNum 1);
       EvInvoke (0, 2) (User 3) (VNum 1)].
Proof.
  destruct (listener_throw_propagates sample_code (Channels ab_channels) two_buses
              ab_channels ab_hub ab_state "a" (eventBus 0) 0 (VNum 1) ab_throwing 4
              [0; 1] 2 [3]
              (emit_loop sample_code (run sample_code 4) 0 (VNum 1) [0; 1]
                 (log (EvEmit 0 (VNum 1)) ab_throwing)).2
              (User 3) (VStr "boom")
              (run sample_code 5 (hub_emit ab_hub "a" (VNum 1)) ab_throwing).2
              (ab_hub_from _) eq_refl (conj (fun _ => eq_refl) (fun _ => eq_refl))
              ltac:(compute_done) eq_refl eq_refl eq_refl eq_refl)
    as (Hrun & _ & Hev).
  split; [exact Hrun|]. rewrite Hev. reflexivity.
Defined.

(** ** Construction *)

(** A slot that no step unsubscribes keeps its listener. *)
Lemma steps_live st st' h x :
  rtc step st st' -> slot st h = Some x ->
  EvUnsub h ∉ new_events st st' -> slot st' h = Some x.
Proof.
  induction 1 as [st|st st1 st' H1 H2 IH]; intros Hx Hno; [done|].
  rewrite (new_events_trans st st1 st') in Hno by (done || by apply rtc_once).
  rewrite elem_of_app in Hno. apply IH; [|tauto].
  destruct (step_slot _ _ _ _ H1 Hx) as [?|[_ Hev]]; [done|].
  destruct Hno. left. rewrite Hev. by apply list_elem_of_singleton.
Qed.

Lemma register_all_steps g entries : forall st,
  (forall e, e ∈ entries -> e.2 < length (st_buses st)) ->
  rtc step st (register_all g entries st).
Proof.
  induction entries as [|[name b] rest IH]; intros st Hvalid; simpl; [done|].
  assert (b < length (st_buses st)) by (apply (Hvalid (name, b)); by left).
  eapply rtc_l; [by apply step_listen|]. apply IH.
  intros e He. simpl. rewrite length_alter. apply Hvalid. by right.
Qed.

Lemma register_all_events g entries : forall st,
  (forall e, e ∈ entries -> e.2 < length (st_buses st)) ->
  new_events st (register_all g entries st) =
    map (fun nh => EvListen nh.2 (Forward g nh.1)) (forwarders g entries st).
Proof.
  induction entries as [|[name b] rest IH]; intros st Hvalid; simpl.
  { by apply new_events_same. }
  assert (b < length (st_buses st)) by (apply (Hvalid (name, b)); by left).
  assert (Hrest : forall e, e ∈ rest -> e.2 < length (st_buses
            (log (EvListen (b, length (registry st b)) (Forward g name))
               (add_listener b (Forward g name) st)))).
  { intros e He. simpl. rewrite length_alter. apply Hvalid. by right. }
  rewrite (new_events_trans st _ _ (rtc_once _ _ (step_listen st b (Forward g name) H))
             (register_all_steps g rest _ Hrest)).
  rewrite new_events_logged by done. simpl. f_equal. by apply IH.
Qed.

Lemma forwarders_names g entries : forall st, (forwarders g entries st).*1 = entries.*1.
Proof.
  induction entries as [|[name b] rest IH]; intros st; simpl; [done|].
  f_equal. apply IH.
Qed.

Lemma forwarders_live g entries : forall st name h,
  (forall e, e ∈ entries -> e.2 < length (st_buses st)) ->
  (name, h) ∈ forwarders g entries st ->
  slot (register_all g entries st) h = Some (Some (Forward g name)).
Proof.
  induction entries as [|[name0 b] rest IH]; intros st name h Hvalid; simpl.
  { by intros ?%elem_of_nil. }
  assert (b < length (st_buses st)) by (apply (Hvalid (name0, b)); by left).
  assert (Hrest : forall e, e ∈ rest -> e.2 < length (st_buses
            (log (EvListen (b, length (registry st b)) (Forward g name0))
               (add_listener b (Forward g name0) st)))).
  { intros e He. simpl. rewrite length_alter. apply Hvalid. by right. }
  rewrite elem_of_cons. intros [[= -> ->]|Hin]; [|by apply IH].
  eapply steps_live; [by apply register_all_steps| |].
  - unfold slot; cbn [fst snd].
    rewrite registry_log, registry_add_listener, decide_True by done.
    by apply list_lookup_middle.
  - rewrite register_all_events by done.
    rewrite list_elem_of_fmap. by intros (? & ? & _).
Qed.

Section Construction.

Context (code : code_table).

(** The loop of lines 82-85 over channels that are buses. *)
Lemma forEach_on_buses g buses entries :
  channels_on buses entries ->
  forall store st,
    (forall e, e ∈ entries -> e.2 < length (st_buses st)) ->
    run code (length buses + 1) (forEach_entries g buses store) st
      = (Done (store_of buses store), register_all g entries st).
Proof.
  induction 1 as [|[name bus] [name' b] buses entries [Hname [Hlisten _]] _ IH];
    intros store st Hvalid; [done|].
  simpl in Hname, Hlisten. subst name'.
  assert (b < length (st_buses st)) by (apply (Hvalid (name, b)); by left).
  cbn [forEach_entries length Nat.add]. rewrite Hlisten.
  cbn [listen eventBus mbind prog_bind bind run]. rewrite decide_True by done.
  cbn [register_all store_of foldl fst snd]. apply IH.
  intros e He. simpl. rewrite length_alter. apply Hvalid. by right.
Qed.

End Construction.


(** ** Counting deliveries *)

Lemma count_app P evs1 evs2 : count P (evs1 ++ evs2) = count P evs1 + count P evs2.
Proof. induction evs1 as [|ev evs1 IH]; simpl; [done|]. rewrite IH. lia. Qed.

Lemma count_cons_app P ev evs1 evs2 :
  count P (ev :: evs1 ++ evs2) = (if P ev then 1 else 0) + count P evs1 + count P evs2.
Proof. simpl. rewrite count_app. lia. Qed.

Lemma count_ext P Q evs :
  (forall ev, ev ∈ evs -> P ev = Q ev) -> count P evs = count Q evs.
Proof.
  induction evs as [|ev evs IH]; intros H; simpl; [done|].
  rewrite (H ev) by (by left). rewrite IH; [done|]. intros ev' ?. apply H. by right.
Qed.

Lemma steps_slot st st' h x :
  rtc step st st' -> slot st h = Some x ->
  slot st' h = Some x \/ slot st' h = Some None.
Proof.
  induction 1 as [st|st st1 st' H1 H2 IH]; intros Hx; [by left|].
  destruct (step_slot _ _ _ _ H1 Hx) as [?|[? _]]; [by apply IH|].
  right. by apply (steps_dead _ _ _ H2).
Qed.

Lemma steps_registry_length st st' b :
  rtc step st st' -> length (registry st b) <= length (registry st' b).
Proof.
  intros H. destruct (decide (length (registry st b) = 0)) as [|Hne]; [lia|].
  destruct (registry st b !! (length (registry st b) - 1)) as [x|] eqn:Hx.
  - assert (slot st (b, length (registry st b) - 1) = Some x) as Hs by done.
    destruct (steps_slot _ _ _ _ H Hs) as [Hs'|Hs'];
      unfold slot in Hs'; simpl in Hs'; apply lookup_lt_Some in Hs'; lia.
  - apply lookup_ge_None in Hx. lia.
Qed.

(** A registration that is there at the start of a run and live at its
    end was live all along. *)
Lemma steps_live_before st st' b j l :
  rtc step st st' -> j < length (registry st b) ->
  slot st' (b, j) = Some (Some l) -> slot st (b, j) = Some (Some l).
Proof.
  intros H Hj Hl.
  destruct (registry st b !! j) as [x|] eqn:Hx.
  - assert (slot st (b, j) = Some x) as Hs by done.
    destruct (steps_slot _ _ _ _ H Hs); congruence.
  - apply lookup_ge_None in Hx. lia.
Qed.


Lemma due_nil b0 p b j x : due b0 p [] b j x = 0.
Proof.
  unfold due. rewrite (bool_decide_eq_false_2 (j ∈ [])) by apply not_elem_of_nil.
  by rewrite andb_false_r.
Qed.

Lemma due_cons_invoked b0 p i rest b j x l0 :
  i ∉ rest ->
  (if is_invoke (b, j) x (EvInvoke (b0, i) l0 p) then 1 else 0) + due b0 p rest b j x
    = due b0 p (i :: rest) b j x.
Proof.
  intros Hi. unfold due, is_invoke.
  destruct (jsval_eqb p x); rewrite ?andb_false_r; simpl; [|done].
  rewrite !andb_true_r.
  destruct (decide (b0 = b)) as [->|Hb].
  - rewrite (bool_decide_eq_true_2 (b = b)) by done. simpl.
    destruct (decide (i = j)) as [->|Hij].
    + rewrite (bool_decide_eq_true_2 ((b, j) = (b, j))) by done.
      rewrite (bool_decide_eq_false_2 (j ∈ rest)) by done.
      rewrite (bool_decide_eq_true_2 (j ∈ j :: rest)) by (by left). done.
    + rewrite (bool_decide_eq_false_2 ((b, i) = (b, j))) by congruence.
      rewrite (bool_decide_ext (j ∈ i :: rest) (j ∈ rest)); [done|].
      rewrite elem_of_cons. split; [intros [?|?]; [congruence|done] | by right].
  - rewrite (bool_decide_eq_false_2 (b0 = b)) by done.
    rewrite (bool_decide_eq_false_2 ((b0, i) = (b, j))) by congruence. done.
Qed.

Lemma due_cons_skipped b0 p i rest b j x :
  (b0 = b -> j ≠ i) -> due b0 p (i :: rest) b j x = due b0 p rest b j x.
Proof.
  intros Hne. unfold due.
  destruct (jsval_eqb p x); rewrite ?andb_false_r; simpl; [|done].
  destruct (decide (b0 = b)) as [->|Hb].
  - rewrite (bool_decide_ext (j ∈ i :: rest) (j ∈ rest)); [done|].
    rewrite elem_of_cons. specialize (Hne eq_refl).
    split; [intros [?|?]; [congruence|done] | by right].
  - by rewrite (bool_decide_eq_false_2 (b0 = b)).
Qed.

Lemma due_seq b0 p n b j x :
  (b0 = b -> j < n) ->
  due b0 p (seq 0 n) b j x = if is_emit b x (EvEmit b0 p) then 1 else 0.
Proof.
  intros Hj. unfold due, is_emit.
  destruct (jsval_eqb p x); rewrite ?andb_false_r; simpl; [|done].
  rewrite !andb_true_r.
  destruct (decide (b0 = b)) as [->|Hb].
  - rewrite (bool_decide_eq_true_2 (j ∈ seq 0 n)); [by rewrite andb_true_r|].
    apply elem_of_seq. specialize (Hj eq_refl). lia.
  - by rewrite (bool_decide_eq_false_2 (b0 = b)).
Qed.

Section Deliveries.

Context (code : code_table).

(** One emission calls a registration that is there when it starts and
    live when it ends once, if it is on its bus. *)
Lemma emit_loop_balanced n b0 p sl :
  (forall A (m : prog A) s a s' b j x l,
     run code n m s = (Done a, s') ->
     j < length (registry s b) -> slot s' (b, j) = Some (Some l) ->
     count (is_invoke (b, j) x) (new_events s s')
       = count (is_emit b x) (new_events s s')) ->
  NoDup sl ->
  forall st a st' b j x l,
    emit_loop code (run code n) b0 p sl st = (Done a, st') ->
    j < length (registry st b) -> slot st' (b, j) = Some (Some l) ->
    count (is_invoke (b, j) x) (new_events st st')
      = count (is_emit b x) (new_events st st') + due b0 p sl b j x.
Proof.
  intros IHn. induction sl as [|i rest IH]; intros Hnd st a st' b j x l H Hj Hl.
  { simpl in H. injection H as _ <-. rewrite new_events_same, due_nil by done. done. }
  apply list.NoDup_cons in Hnd as [Hi Hnd].
  assert (Hsteps : rtc step st st').
  { eapply emit_loop_steps; [|done]. intros. by eapply run_steps. }
  pose proof (steps_live_before _ _ _ _ _ Hsteps Hj Hl) as Hl0.
  simpl in H.
  destruct (registry st b0 !! i) as [[l0|]|] eqn:Hi0.
  - destruct (run code n (invoke code l0 p) _) as [o1 s1] eqn:E.
    destruct o1 as [[]| | |]; try done.
    assert (Hs0 : rtc step st (log (EvInvoke (b0, i) l0 p) st))
      by (by apply rtc_once, step_invoke).
    assert (Hs1 : rtc step (log (EvInvoke (b0, i) l0 p) st) s1) by (by eapply run_steps).
    assert (Hs2 : rtc step s1 st').
    { eapply emit_loop_steps; [|done]. intros. by eapply run_steps. }
    assert (Hj1 : j < length (registry s1 b)).
    { pose proof (steps_registry_length _ _ b Hs1). rewrite registry_log in *. lia. }
    rewrite (new_events_trans st _ st' Hs0) by (by etrans).
    rewrite (new_events_trans _ s1 st' Hs1 Hs2).
    rewrite new_events_logged by done. rewrite !count_app.
    rewrite (IHn _ _ _ _ _ b j x l E);
      [|by rewrite registry_log|by eapply steps_live_before].
    rewrite (IH Hnd _ _ _ b j x l H Hj1 Hl).
    rewrite <-(due_cons_invoked b0 p i rest b j x l0 Hi). simpl. lia.
  - rewrite (IH Hnd _ _ _ b j x l H Hj Hl). f_equal. symmetry.
    apply due_cons_skipped. intros -> ->. unfold slot in Hl0; simpl in Hl0. congruence.
  - rewrite (IH Hnd _ _ _ b j x l H Hj Hl). f_equal. symmetry.
    apply due_cons_skipped. intros -> ->. unfold slot in Hl0; simpl in Hl0. congruence.
Qed.

(** In a run that returns, a registration that is there at the start and
    live at the end is called with [x] as many times as [x] is emitted on
    its bus. *)
Lemma run_balanced n : forall A (m : prog A) st a st' b j x l,
  run code n m st = (Done a, st') ->
  j < length (registry st b) -> slot st' (b, j) = Some (Some l) ->
  count (is_invoke (b, j) x) (new_events st st')
    = count (is_emit b x) (new_events st st').
Proof.
  induction n as [|n IH]; intros A m st a st' b j x l H Hj Hl; [done|].
  simpl in H.
  assert (Hstep : forall st1 ev,
    step st st1 -> new_events st st1 = ev ->
    count (is_invoke (b, j) x) ev = count (is_emit b x) ev ->
    forall k : prog A, run code n k st1 = (Done a, st') ->
    count (is_invoke (b, j) x) (new_events st st')
      = count (is_emit b x) (new_events st st')).
  { intros st1 ev Hst Hev Hcount k Hk.
    assert (Hs1 : rtc step st st1) by (by apply rtc_once).
    rewrite (new_events_trans st st1 st' Hs1) by (by eapply run_steps).
    rewrite !count_app, Hev, Hcount. f_equal.
    eapply IH; [done| |done].
    pose proof (steps_registry_length _ _ b Hs1). lia. }
  destruct m; repeat case_decide; try done.
  - injection H as _ <-. by rewrite new_events_same.
  - eapply Hstep; [apply step_new|by apply new_events_same|done|done].
  - eapply Hstep; [by apply step_listen|by apply new_events_logged|done|done].
  - eapply Hstep; [by apply step_unsub|by apply new_events_logged|done|done].
  - destruct (emit_loop _ _ _ _ _ _) as [o1 s1] eqn:E.
    destruct o1 as [[]| | |]; try done.
    assert (Hs0 : rtc step st (log (EvEmit b0 p) st)) by (by apply rtc_once, step_emit).
    assert (Hs1 : rtc step (log (EvEmit b0 p) st) s1).
    { eapply emit_loop_steps; [|done]. intros. by eapply run_steps. }
    assert (Hs2 : rtc step s1 st') by (by eapply run_steps).
    assert (Hj1 : j < length (registry s1 b)).
    { pose proof (steps_registry_length _ _ b Hs1). rewrite registry_log in *. lia. }
    rewrite (new_events_trans st _ st' Hs0) by (by etrans).
    rewrite (new_events_trans _ s1 st' Hs1 Hs2).
    rewrite new_events_logged by done. rewrite !count_app.
    rewrite (emit_loop_balanced n b0 p _ IH (NoDup_seq _ _) _ _ _ b j x l E);
      [|by rewrite registry_log|by eapply steps_live_before].
    rewrite (IH _ _ _ _ _ b j x l H Hj1 Hl).
    rewrite due_seq by (by intros ->). simpl. lia.
  - destruct (st_cells st !! c); [|done].
    eapply IH; [done..].
  - eapply Hstep; [by apply step_set|by apply new_events_same|done|done].
Qed.

End Deliveries.

(** ** Programs that have no reference to the hub's own *)

Lemma hub_refs_steps g fw st st' :
  rtc step st st' -> hub_refs g fw st -> hub_refs g fw st'.
Proof.
  intros H [Hg Hfw]. split.
  - pose proof (steps_buses _ _ H). lia.
  - intros h Hh. pose proof (steps_registry_length _ _ h.1 H).
    specialize (Hfw h Hh). lia.
Qed.

Lemma outside_owed g fw y A (m : prog A) : outside g fw m -> owed g y m = 0.
Proof.
  destruct m; simpl; try done. intros [Hb _]. by rewrite bool_decide_eq_false_2.
Qed.

Lemma forwarding_ret g A (m : prog A) :
  forwarding g m -> exists p r, m = EmitOp g p (Ret r).
Proof.
  destruct m as [| | | | |b p k| |]; simpl; try done.
  destruct k; try done. intros [-> _]. eauto.
Qed.

Section Outside.

Context (code : code_table) (g : bus_id) (fw : list handle).
Context (Hcode : forall id p, outside g fw (code id p)).

Lemma invoke_allowed l p :
  outside g fw (invoke code l p) \/ forwarding g (invoke code l p).
Proof.
  destruct l as [g' name|id]; simpl; [|by left].
  destruct (decide (g' = g)) as [->|Hne]; [right|left]; eauto.
Qed.

Lemma owed_invoke y l p h :
  owed g y (invoke code l p) = if is_forward g y (EvInvoke h l p) then 1 else 0.
Proof.
  destruct l as [g' name|id]; simpl; [done|]. by eapply outside_owed.
Qed.

Lemma emit_loop_outside n b p sl :
  (forall A (m : prog A) st o st',
     hub_refs g fw st -> outside g fw m \/ forwarding g m ->
     run code n m st = (o, st') ->
     (forall ev, ev ∈ new_events st st' -> ~ hub_only g fw ev) /\
     (forall a y, o = Done a ->
        count (is_emit g y) (new_events st st')
          = count (is_forward g y) (new_events st st') + owed g y m)) ->
  forall st o st',
    hub_refs g fw st ->
    emit_loop code (run code n) b p sl st = (o, st') ->
    (forall ev, ev ∈ new_events st st' -> ~ hub_only g fw ev) /\
    (forall a y, o = Done a ->
       count (is_emit g y) (new_events st st')
         = count (is_forward g y) (new_events st st')).
Proof.
  intros IHn. induction sl as [|i rest IH]; intros st o st' Hrefs H; simpl in H.
  { injection H as <- <-. rewrite new_events_same by done.
    split; [by intros ev ?%elem_of_nil | done]. }
  destruct (registry st b !! i) as [[l0|]|] eqn:Hi0; [|by apply IH..].
  destruct (run code n (invoke code l0 p) _) as [o1 s1] eqn:E.
  assert (Hs0 : rtc step st (log (EvInvoke (b, i) l0 p) st))
    by (by apply rtc_once, step_invoke).
  assert (Hs1 : rtc step (log (EvInvoke (b, i) l0 p) st) s1) by (by eapply run_steps).
  destruct (IHn _ _ _ _ _ (hub_refs_steps _ _ _ _ Hs0 Hrefs) (invoke_allowed l0 p) E)
    as [Hno1 Hcount1].
  assert (Hhead : forall st2, rtc step s1 st2 ->
    new_events st st2 = EvInvoke (b, i) l0 p :: new_events (log (EvInvoke (b, i) l0 p) st) s1
                          ++ new_events s1 st2).
  { intros st2 Hs2. rewrite (new_events_trans st _ st2 Hs0) by (by etrans).
    rewrite (new_events_trans _ s1 st2 Hs1 Hs2). by rewrite new_events_logged. }
  assert (Hstop : o1 = o -> s1 = st' ->
    (forall ev, ev ∈ new_events st st' -> ~ hub_only g fw ev)).
  { intros -> <-. rewrite (Hhead s1) by done. rewrite (new_events_same s1 s1), app_nil_r by done.
    intros ev [->|Hev]%elem_of_cons; [simpl; tauto|by apply Hno1]. }
  destruct o1 as [[]| | |]; try (injection H as <- <-; split; [by apply Hstop|done]).
  assert (Hs2 : rtc step s1 st').
  { eapply emit_loop_steps; [|done]. intros. by eapply run_steps. }
  destruct (IH _ _ _ (hub_refs_steps _ _ _ _ Hs1 (hub_refs_steps _ _ _ _ Hs0 Hrefs)) H)
    as [Hno2 Hcount2].
  rewrite (Hhead st') by done. split.
  - intros ev [->|[Hev|Hev]%elem_of_app]%elem_of_cons; [simpl; tauto|by apply Hno1|by apply Hno2].
  - intros a y ->. rewrite !count_cons_app.
    rewrite (Hcount1 tt y eq_refl), (Hcount2 a y eq_refl).
    rewrite (owed_invoke y l0 p (b, i)). simpl. lia.
Qed.

(** A run of such a program makes no entry of the trace that is the
    hub's own, and if it returns, each emission on [g] in it is the one
    made by a call of a forwarding listener. *)
Lemma run_outside n : forall A (m : prog A) st o st',
  hub_refs g fw st -> outside g fw m \/ forwarding g m ->
  run code n m st = (o, st') ->
  (forall ev, ev ∈ new_events st st' -> ~ hub_only g fw ev) /\
  (forall a y, o = Done a ->
     count (is_emit g y) (new_events st st')
       = count (is_forward g y) (new_events st st') + owed g y m).
Proof.
  induction n as [|n IH]; intros A m st o st' Hrefs Hm H.
  { injection H as <- <-. rewrite new_events_same by done.
    split; [by intros ev ?%elem_of_nil | done]. }
  simpl in H.
  assert (Hstop : forall o0, (o0, st) = (o, st') -> (forall a : A, o0 ≠ Done a) ->
    (forall ev, ev ∈ new_events st st' -> ~ hub_only g fw ev) /\
    (forall a y, o = Done a ->
       count (is_emit g y) (new_events st st')
         = count (is_forward g y) (new_events st st') + owed g y m)).
  { intros o0 [= <- <-] Ho0. rewrite new_events_same by done.
    split; [by intros ev ?%elem_of_nil|]. intros a y ->. by destruct (Ho0 a). }
  assert (Hstep : forall st1 evs (k : prog A),
    step st st1 -> new_events st st1 = evs ->
    (forall ev, ev ∈ evs -> ~ hub_only g fw ev) ->
    (forall y, count (is_emit g y) evs = count (is_forward g y) evs) ->
    outside g fw k -> run code n k st1 = (o, st') ->
    (forall ev, ev ∈ new_events st st' -> ~ hub_only g fw ev) /\
    (forall a y, o = Done a ->
       count (is_emit g y) (new_events st st')
         = count (is_forward g y) (new_events st st'))).
  { intros st1 evs k Hst Hevs Hno Hc Hk Hrun.
    assert (Hs1 : rtc step st st1) by (by apply rtc_once).
    destruct (IH _ _ _ _ _ (hub_refs_steps _ _ _ _ Hs1 Hrefs) (or_introl Hk) Hrun)
      as [Hno' Hc'].
    rewrite (new_events_trans st st1 st' Hs1) by (by eapply run_steps).
    rewrite Hevs. split.
    - intros ev [?|?]%elem_of_app; [by apply Hno|by apply Hno'].
    - intros a y ->. rewrite !count_app, Hc, (Hc' a y eq_refl).
      rewrite (outside_owed g fw y _ k Hk). lia. }
  destruct Hm as [Hm|Hm].
  - destruct m; simpl in Hm; repeat case_decide;
      try (by eapply Hstop); rewrite ?(outside_owed g fw) by done.
    + injection H as <- <-. rewrite new_events_same by done.
      split; [by intros ev ?%elem_of_nil | done].
    + setoid_rewrite Nat.add_0_r.
      eapply Hstep; [apply step_new|by apply new_events_same| | |apply Hm|done].
      * by intros ev ?%elem_of_nil.
      * done.
      * destruct Hrefs. lia.
    + destruct Hm as [Hl Hk]. setoid_rewrite Nat.add_0_r.
      eapply Hstep; [by apply step_listen|by apply new_events_logged| | |apply Hk|done].
      * intros ev ->%list_elem_of_singleton. simpl.
        destruct l as [g' name|]; [|tauto]. intros ->. by destruct (Hl name).
      * done.
      * intros Hin. destruct Hrefs as [_ Hfw]. specialize (Hfw _ Hin). simpl in Hfw. lia.
    + destruct Hm as [Hh Hk]. setoid_rewrite Nat.add_0_r.
      eapply Hstep; [by apply step_unsub|by apply new_events_logged| | |apply Hk|done].
      * by intros ev ->%list_elem_of_singleton.
      * done.
    + destruct Hm as [Hb Hk].
      destruct (emit_loop _ _ _ _ _ _) as [o1 s1] eqn:E.
      assert (Hs0 : rtc step st (log (EvEmit b p) st)) by (by apply rtc_once, step_emit).
      assert (Hs1 : rtc step (log (EvEmit b p) st) s1).
      { eapply emit_loop_steps; [|done]. intros. by eapply run_steps. }
      destruct (emit_loop_outside n b p _ IH _ _ _ (hub_refs_steps _ _ _ _ Hs0 Hrefs) E)
        as [Hno1 Hc1].
      assert (Hhead : forall st2, rtc step s1 st2 ->
        new_events st st2 = EvEmit b p :: new_events (log (EvEmit b p) st) s1
                              ++ new_events s1 st2).
      { intros st2 Hs2. rewrite (new_events_trans st _ st2 Hs0) by (by etrans).
        rewrite (new_events_trans _ s1 st2 Hs1 Hs2). by rewrite new_events_logged. }
      destruct o1 as [[]| | |];
        try (injection H as <- <-; rewrite (Hhead s1) by done;
             rewrite (new_events_same s1 s1), app_nil_r by done;
             split; [intros ev [->|Hev]%elem_of_cons; [simpl; tauto|by apply Hno1]|done]).
      assert (Hs2 : rtc step s1 st') by (by eapply run_steps).
      destruct (IH _ _ _ _ _
                  (hub_refs_steps _ _ _ _ Hs1 (hub_refs_steps _ _ _ _ Hs0 Hrefs))
                  (or_introl Hk) H) as [Hno2 Hc2].
      rewrite (Hhead st') by done. split.
      * intros ev [->|[Hev|Hev]%elem_of_app]%elem_of_cons;
          [simpl; tauto|by apply Hno1|by apply Hno2].
      * intros a y ->. rewrite !count_cons_app.
        rewrite (Hc1 tt y eq_refl), (Hc2 a y eq_refl), (outside_owed g fw y _ m Hk).
        simpl. rewrite (bool_decide_eq_false_2 (b = g)) by done. simpl. lia.
    + destruct (st_cells st !! c) as [v|]; [|by eapply Hstop].
      destruct (IH _ _ _ _ _ Hrefs (or_introl (Hm v)) H) as [Hno Hc].
      split; [done|]. intros a y Ho. rewrite (Hc a y Ho).
      by rewrite (outside_owed g fw y _ _ (Hm v)).
    + setoid_rewrite Nat.add_0_r.
      eapply Hstep; [by apply step_set|by apply new_events_same| | |apply Hm|done].
      * by intros ev ?%elem_of_nil.
      * done.
  - destruct (forwarding_ret _ _ _ Hm) as (p & r & ->). simpl in H.
    rewrite decide_True in H by (by destruct Hrefs).
    destruct (emit_loop _ _ _ _ _ _) as [o1 s1] eqn:E.
    assert (Hs0 : rtc step st (log (EvEmit g p) st)).
    { apply rtc_once, step_emit. by destruct Hrefs. }
    assert (Hs1 : rtc step (log (EvEmit g p) st) s1).
    { eapply emit_loop_steps; [|done]. intros. by eapply run_steps. }
    destruct (emit_loop_outside n g p _ IH _ _ _ (hub_refs_steps _ _ _ _ Hs0 Hrefs) E)
      as [Hno1 Hc1].
    assert (st' = s1 /\ (forall a, o = Done a -> o1 = Done tt)) as [-> Ho].
    { destruct o1 as [[]| | |]; try (by injection H as <- <-).
      destruct n; simpl in H; by injection H as <- <-. }
    rewrite (new_events_trans st _ s1 Hs0 Hs1), new_events_logged by done.
    split.
    + intros ev [->|Hev]%elem_of_cons; [simpl; tauto|by apply Hno1].
    + intros a y Hd. simpl. rewrite (Hc1 tt y (Ho a Hd)). lia.
Qed.

End Outside.

(** ** The hub in place *)

(** A live slot was live before the step, or the step registered it. *)
Lemma step_slot_back st st' h l :
  step st st' -> slot st' h = Some (Some l) ->
  slot st h = Some (Some l) \/ new_events st st' = [EvListen h l].
Proof.
  unfold slot. destruct h as [b i]; cbn [fst snd].
  destruct 1 as [st|st b0 l0 Hb0|st [b0 i0] Hh|st b0 p Hb0|st b0 i0 l0 p Hl|st c v Hc];
    rewrite ?registry_log, ?registry_set_cell; intros Hx; try (by left).
  - left. by rewrite registry_new_bus in Hx.
  - rewrite registry_add_listener in Hx by done.
    case_decide; [subst|by left].
    destruct (decide (i < length (registry st b0))) as [Hlt|Hge].
    + left. by rewrite lookup_app_l in Hx.
    + rewrite lookup_app_r in Hx by lia.
      destruct (i - length (registry st b0)) as [|k] eqn:Hk; [|done].
      injection Hx as ->. right.
      assert (i = length (registry st b0)) as -> by lia.
      by apply new_events_logged.
  - left. rewrite registry_remove_listener in Hx; cbn [fst snd] in *.
    case_decide; [subst|done].
    destruct (decide (i0 = i)) as [->|Hne].
    + rewrite list_lookup_insert_eq in Hx by done. done.
    + by rewrite list_lookup_insert_ne in Hx.
Qed.

Lemma hub_state_refs g fws st : hub_state g fws st -> hub_refs g fws.*2 st.
Proof.
  intros [Hg Hfw _]. split; [done|].
  intros h [[name h'] [-> Hin]]%list_elem_of_fmap. simpl.
  specialize (Hfw _ _ Hin). unfold slot in Hfw. by apply lookup_lt_Some in Hfw.
Qed.

Lemma step_hub_state g fws st st' :
  step st st' ->
  (forall ev, ev ∈ new_events st st' -> ~ hub_only g fws.*2 ev) ->
  hub_state g fws st -> hub_state g fws st'.
Proof.
  intros Hstep Hno [Hg Hfw Honly]. split.
  - pose proof (step_buses _ _ Hstep). lia.
  - intros name h Hin.
    destruct (step_slot _ _ _ _ Hstep (Hfw _ _ Hin)) as [?|[_ Hev]]; [done|].
    destruct (Hno (EvUnsub h)); [rewrite Hev; by left|].
    simpl. apply list_elem_of_fmap. by exists (name, h).
  - intros name h Hl.
    destruct (step_slot_back _ _ _ _ Hstep Hl) as [?|Hev]; [by apply Honly|].
    destruct (Hno (EvListen h (Forward g name))); [rewrite Hev; by left|done].
Qed.

Lemma steps_hub_state g fws st st' :
  rtc step st st' ->
  (forall ev, ev ∈ new_events st st' -> ~ hub_only g fws.*2 ev) ->
  hub_state g fws st -> hub_state g fws st'.
Proof.
  induction 1 as [st|st st1 st' H1 H2 IH]; intros Hno Hhub; [done|].
  rewrite (new_events_trans st st1 st') in Hno by (done || by apply rtc_once).
  apply IH.
  - intros ev Hev. apply Hno, elem_of_app. by right.
  - eapply step_hub_state; [done| |done].
    intros ev Hev. apply Hno, elem_of_app. by left.
Qed.

(** While the hub is in place, the calls of its forwarding listeners are
    the calls of the registrations it made. *)
Lemma steps_forward_calls g fws st st' :
  rtc step st st' ->
  (forall ev, ev ∈ new_events st st' -> ~ hub_only g fws.*2 ev) ->
  hub_state g fws st ->
  forall h l x name, EvInvoke h l x ∈ new_events st st' ->
    l = Forward g name <-> (name, h) ∈ fws.
Proof.
  induction 1 as [st|st st1 st' H1 H2 IH]; intros Hno Hhub h l x name.
  { rewrite new_events_same by done. by intros ?%elem_of_nil. }
  rewrite (new_events_trans st st1 st') in Hno |- * by (done || by apply rtc_once).
  intros [Hin|Hin]%elem_of_app.
  - apply (step_invoked _ _ _ _ _ H1) in Hin. destruct Hhub as [_ Hfw Honly]. split.
    + intros ->. by apply Honly.
    + intros Hin'. specialize (Hfw _ _ Hin'). congruence.
  - eapply IH; [| |done].
    + intros ev Hev. apply Hno, elem_of_app. by right.
    + eapply step_hub_state; [done| |done].
      intros ev Hev. apply Hno, elem_of_app. by left.
Qed.

Lemma jsval_eqb_tagged name x name' x' :
  jsval_eqb (tagged name x) (tagged name' x')
    = bool_decide (name = name') && jsval_eqb x x'.
Proof.
  simpl. by rewrite !andb_true_r.
Qed.

(** *** The hub that construction leaves *)

Lemma register_all_only g entries : forall st h l,
  (forall e, e ∈ entries -> e.2 < length (st_buses st)) ->
  slot (register_all g entries st) h = Some (Some l) ->
  slot st h = Some (Some l) \/
  exists name, l = Forward g name /\ (name, h) ∈ forwarders g entries st.
Proof.
  induction entries as [|[name b] rest IH]; intros st h l Hvalid Hl; simpl in *.
  { by left. }
  assert (b < length (st_buses st)) by (apply (Hvalid (name, b)); by left).
  assert (Hrest : forall e, e ∈ rest -> e.2 < length (st_buses
            (log (EvListen (b, length (registry st b)) (Forward g name))
               (add_listener b (Forward g name) st)))).
  { intros e He. simpl. rewrite length_alter. apply Hvalid. by right. }
  destruct (IH _ h l Hrest Hl) as [Hl1|(name' & -> & Hin)].
  - destruct (step_slot_back _ _ h l (step_listen st b (Forward g name) H) Hl1)
      as [?|Hev]; [by left|].
    rewrite new_events_logged in Hev by done. injection Hev as <- <-.
    right. exists name. split; [done|]. by left.
  - right. exists name'. split; [done|]. by right.
Qed.

Lemma forwarders_elem g entries : forall st name b,
  (name, b) ∈ entries -> exists i, (name, (b, i)) ∈ forwarders g entries st.
Proof.
  induction entries as [|[name0 b0] rest IH]; intros st name b; simpl.
  { by intros ?%elem_of_nil. }
  intros [[= -> ->]|Hin]%elem_of_cons.
  - eexists. by left.
  - destruct (IH (log (EvListen (b0, length (registry st b0)) (Forward g name0))
                    (add_listener b0 (Forward g name0) st)) _ _ Hin) as [i Hi].
    exists i. by right.
Qed.

Lemma construction_hub_state g entries st :
  g < length (st_buses st) ->
  (forall e, e ∈ entries -> e.2 < length (st_buses st)) ->
  (forall h name, slot st h ≠ Some (Some (Forward g name))) ->
  hub_state g (forwarders g entries st) (register_all g entries st).
Proof.
  intros Hg Hvalid Hnone. split.
  - pose proof (steps_buses _ _ (register_all_steps g entries st Hvalid)). lia.
  - intros name h Hin. by apply forwarders_live.
  - intros name h Hl.
    destruct (register_all_only g entries st h _ Hvalid Hl) as [?|(name' & [= ->] & ?)];
      [by destruct (Hnone h name)|done].
Qed.

Lemma NoDup_fst_eq {A B} (l : list (A * B)) a b b' :
  NoDup l.*1 -> (a, b) ∈ l -> (a, b') ∈ l -> b = b'.
Proof.
  induction l as [|[a0 b0] l IH]; simpl; intros Hnd.
  { by intros ?%elem_of_nil. }
  apply list.NoDup_cons in Hnd as [Ha0 Hnd].
  intros [[= -> ->]|Hin]%elem_of_cons [[= ->]|Hin']%elem_of_cons; try done.
  - destruct Ha0. apply list_elem_of_fmap. by exists (a0, b').
  - simplify_eq. destruct Ha0. apply list_elem_of_fmap. by exists (a0, b).
  - by apply IH.
Qed.

Lemma channels_on_names buses entries :
  channels_on buses entries -> entries.*1 = obj_keys buses.
Proof.
  unfold obj_keys. induction 1 as [|[] [] ?? [? _] _ IH]; simpl in *; [done|].
  by f_equal.
Qed.

(** While the hub is in place: in a run that returns, a listener of the
    hub is called with the event of channel [name] as many times as
    there are emissions on that channel. *)
Lemma hub_forward_count code g fws st fuel A (m : prog A) a st' name b i j l p :
  (forall id x, outside g fws.*2 (code id x)) ->
  hub_state g fws st -> NoDup fws.*1 ->
  outside g fws.*2 m -> run code fuel m st = (Done a, st') ->
  (name, (b, i)) ∈ fws ->
  j < length (registry st g) -> slot st' (g, j) = Some (Some l) ->
  count (is_invoke (g, j) (tagged name p)) (new_events st st')
    = count (is_emit b p) (new_events st st').
Proof.
  intros Hcode Hhub Hnames Hm Hrun Hi Hj Hl.
  assert (Hs : rtc step st st') by (by eapply run_steps).
  destruct (run_outside code g fws.*2 Hcode _ _ _ _ _ _
              (hub_state_refs _ _ _ Hhub) (or_introl Hm) Hrun) as [Hno Hfwd].
  assert (Hhub' : hub_state g fws st') by (by eapply steps_hub_state).
  rewrite (run_balanced code _ _ _ _ _ _ g j (tagged name p) l Hrun Hj Hl).
  rewrite (Hfwd a (tagged name p) eq_refl), (outside_owed g fws.*2 _ _ m Hm), Nat.add_0_r.
  rewrite <-(run_balanced code _ _ _ _ _ _ b i p (Forward g name) Hrun).
  - apply count_ext. intros ev Hev.
    destruct ev as [| | |h l' x]; try done.
    pose proof (steps_forward_calls g fws st st' Hs Hno Hhub h l' x) as Hcalls.
    unfold is_forward, is_invoke.
    destruct (decide (h = (b, i))) as [->|Hh].
    + rewrite (proj2 (Hcalls name Hev) Hi).
      rewrite jsval_eqb_tagged, !bool_decide_eq_true_2 by done.
      done.
    + rewrite (bool_decide_eq_false_2 (h = (b, i))), andb_false_l by done.
      destruct l' as [g' name'|]; [|done].
      rewrite jsval_eqb_tagged.
      destruct (decide (g' = g)) as [->|]; [|by rewrite bool_decide_eq_false_2].
      destruct (decide (name' = name)) as [->|];
        [|by rewrite (bool_decide_eq_false_2 (name' = name)), andb_false_r].
      destruct Hh. eapply NoDup_fst_eq; [done| |done].
      by apply (Hcalls name Hev).
  - pose proof (hs_forwarders _ _ _ Hhub _ _ Hi) as Hslot.
    unfold slot in Hslot. simpl in Hslot. by apply lookup_lt_Some in Hslot.
  - by apply (hs_forwarders _ _ _ Hhub').
Qed.

(** C1, as amended. Take a hub made of channels that are buses, and any
    programs and listeners that have no reference to what is local to
    [createEventHub]. In every run that returns, a listener of the hub
    that was registered (by [hub.listen]) before the run and is still
    registered after it has been called with [{ name, details: p }]
    exactly as many times as [p] was emitted on the channel [name], by
    [hub.emit] or by the channel's own [emit]: once for each emission. *)
Theorem forwarded_exactly_once code def st0 n buses st1 entries
    fuel1 A1 (m1 : prog A1) o1 st3 fuel2 A2 (m2 : prog A2) a st4 name b j l p :
  let g := length (st_buses st0) in
  let fws := forwarders g entries st1 in
  let st2 := register_all g entries st1 in
  run code n (resolve def) (new_bus st0) = (Done buses, st1) ->
  channels_on buses entries ->
  (forall e, e ∈ entries -> e.2 < length (st_buses st1)) ->
  NoDup (obj_keys buses) ->
  (forall h name', slot st1 h ≠ Some (Some (Forward g name'))) ->
  (forall id x, outside g fws.*2 (code id x)) ->
  outside g fws.*2 m1 -> run code fuel1 m1 st2 = (o1, st3) ->
  outside g fws.*2 m2 -> run code fuel2 m2 st3 = (Done a, st4) ->
  (name, b) ∈ entries ->
  j < length (registry st3 g) -> slot st4 (g, j) = Some (Some l) ->
  count (is_invoke (g, j) (tagged name p)) (new_events st3 st4)
    = count (is_emit b p) (new_events st3 st4).
Proof.
  intros g fws st2 Hres Hon Hvalid Hnd Hnone Hcode Hm1 Hrun1 Hm2 Hrun2 Hname Hj Hl.
  assert (Hg : g < length (st_buses st1)).
  { pose proof (steps_buses _ _ (run_steps _ _ _ _ _ _ _ Hres)) as Hlen.
    unfold new_bus in Hlen; simpl in Hlen. rewrite length_app in Hlen.
    simpl in Hlen. unfold g. lia. }
  assert (Hhub2 : hub_state g fws st2) by (by apply construction_hub_state).
  assert (Hs1 : rtc step st2 st3) by (by eapply run_steps).
  destruct (run_outside code g fws.*2 Hcode _ _ _ _ _ _
              (hub_state_refs _ _ _ Hhub2) (or_introl Hm1) Hrun1) as [Hno1 _].
  assert (Hhub3 : hub_state g fws st3) by (by eapply steps_hub_state).
  destruct (forwarders_elem g entries st1 _ _ Hname) as [i Hi]. fold fws in Hi.
  assert (Hnames : NoDup fws.*1).
  { unfold fws. by rewrite forwarders_names, (channels_on_names _ _ Hon). }
  by eapply hub_forward_count.
Qed.

(** In the scenario of [nested_code]: while [1] is emitted on [a],
    listener 1 emits [2] on [b]; the hub's listener 0 is called once with
    the event of [a] and once with the event of [b]. *)
Lemma forwarded_exactly_once_witness :
  count (is_invoke (0, 0) (tagged "a" (VNum 1))) (new_events nested_ready nested_done)
    = count (is_emit 1 (VNum 1)) (new_events nested_ready nested_done) /\
  count (is_emit 1 (VNum 1)) (new_events nested_ready nested_done) = 1 /\
  count (is_invoke (0, 0) (tagged "b" (VNum 2))) (new_events nested_ready nested_done)
    = count (is_emit 2 (VNum 2)) (new_events nested_ready nested_done) /\
  count (is_emit 2 (VNum 2)) (new_events nested_ready nested_done) = 1.
Proof.
  assert (Hvalid : forall e : string * nat, e ∈ [("a", 1); ("b", 2)] ->
            e.2 < length (st_buses (new_bus (new_bus (new_bus empty_state))))).
  { intros e He. apply elem_of_cons in He as [->|He]; [vm_compute; lia|].
    apply elem_of_cons in He as [->|He]; [vm_compute; lia|].
    by apply elem_of_nil in He. }
  assert (Hnone : forall (h : nat * nat) (name' : string),
            slot (new_bus (new_bus (new_bus empty_state))) h
              ≠ Some (Some (Forward (length (st_buses empty_state)) name'))).
  { intros [[|[|[|b]]] i] name'; cbn; by destruct i. }
  assert (Hcode : forall id x,
            outside (length (st_buses empty_state))
              (forwarders (length (st_buses empty_state)) [("a", 1); ("b", 2)]
                 (new_bus (new_bus (new_bus empty_state)))).*2
              (nested_code ab_made (VNum 2) id x)).
  { intros [|[|id]] x; cbn; done. }
  assert (Hm1 : outside (length (st_buses empty_state))
            (forwarders (length (st_buses empty_state)) [("a", 1); ("b", 2)]
               (new_bus (new_bus (new_bus empty_state)))).*2 listen_and_on).
  { cbn. split; [done|]. intros h _. split; [done|]. done. }
  assert (Hm2 : forall b q, b ≠ 0 ->
            outside (length (st_buses empty_state))
              (forwarders (length (st_buses empty_state)) [("a", 1); ("b", 2)]
                 (new_bus (new_bus (new_bus empty_state)))).*2
              (EmitOp b q (Ret tt))).
  { intros b q Hb. cbn. split; [done|done]. }
  pose proof (fun name b p Hin =>
    forwarded_exactly_once (nested_code ab_made (VNum 2)) ab_factory empty_state 3
      ab_made (new_bus (new_bus (new_bus empty_state))) [("a", 1); ("b", 2)]
      5 thunk listen_and_on
      (run (nested_code ab_made (VNum 2)) 5 listen_and_on empty_hub_state).1
      nested_ready
      8 unit (hub_emit made_hub "a" (VNum 1)) tt nested_done name b 0 (User 0) p
      eq_refl ltac:(repeat constructor) Hvalid ltac:(compute_done) Hnone Hcode
      Hm1 (surjective_pairing _) (Hm2 1 (VNum 1) ltac:(lia)) eq_refl Hin
      ltac:(vm_compute; lia) eq_refl) as H.
  split; [exact (H "a" 1 (VNum 1) ltac:(compute_done))|]. split; [reflexivity|].
  split; [exact (H "b" 2 (VNum 2) ltac:(compute_done))|]. reflexivity.
Defined.

(** C1 as stated fails: listener 3 of [sample_code], which listens to the
    hub before listener 1 does, throws; [hub.emit("a", 1)] then throws,
    and listener 1, registered and remaining so, has not been called. *)
Lemma forwarded_exactly_once_counterexample :
  slot ab_listened (2, 1) = Some (Some (User 1)) /\
  (run sample_code 5 (hub_emit ab_hub "a" (VNum 1)) ab_listened).1
    = Thrown (VStr "boom") /\
  new_events ab_listened (run sample_code 5 (hub_emit ab_hub "a" (VNum 1)) ab_listened).2
    = [EvEmit 0 (VNum 1); EvInvoke (0, 0) (Forward 2 "a") (VNum 1);
       EvEmit 2 (tagged "a" (VNum 1)); EvInvoke (2, 0) (User 3) (tagged "a" (VNum 1))] /\
  count (is_emit 0 (VNum 1))
    (new_events ab_listened
       (run sample_code 5 (hub_emit ab_hub "a" (VNum 1)) ab_listened).2) = 1 /\
  count (is_invoke (2, 1) (tagged "a" (VNum 1)))
    (new_events ab_listened
       (run sample_code 5 (hub_emit ab_hub "a" (VNum 1)) ab_listened).2) = 0.
Proof. repeat split. Qed.

(** ** Nested emissions *)

Lemma received_app h evs1 evs2 :
  received h (evs1 ++ evs2) = received h evs1 ++ received h evs2.
Proof. apply omap_app. Qed.

Lemma count_pos_received h x evs : 0 < count (is_invoke h x) evs -> x ∈ received h evs.
Proof.
  induction evs as [|ev evs IH]; simpl; [lia|].
  destruct ev as [| | |h' l x']; simpl; try (intros; apply IH; lia).
  destruct (decide (h' = h)) as [->|Hne].
  - rewrite bool_decide_eq_true_2 by done. simpl.
    destruct (jsval_eqb x' x) eqn:Hx.
    + apply jsval_eqb_eq in Hx as ->. intros _. by left.
    + intros. right. apply IH. lia.
  - rewrite bool_decide_eq_false_2 by done. simpl. intros. apply IH. lia.
Qed.

Lemma appears_before_segments {A} (x y : A) l0 l1 l2 l3 l4 :
  x ∈ l1 -> y ∈ l3 -> appears_before x y (l0 ++ l1 ++ l2 ++ l3 ++ l4).
Proof.
  intros (a & b & ->)%list_elem_of_split (c & d & ->)%list_elem_of_split.
  exists (l0 ++ a), (b ++ l2 ++ c), (d ++ l4).
  repeat (rewrite <-?app_assoc, <-?app_comm_cons). done.
Qed.

Lemma seq_split s len i :
  s <= i -> i < s + len -> seq s len = seq s (i - s) ++ i :: seq (S i) (s + len - S i).
Proof.
  intros Hs Hi. replace len with ((i - s) + S (s + len - S i)) at 1 by lia.
  rewrite seq_app. simpl. by replace (s + (i - s)) with i by lia.
Qed.

Section Nested.

Context (code : code_table).

(** An emission that returns has called each registration of its slots
    that was there at the start and is live at the end. *)
Lemma emit_loop_call n b p sl1 i sl2 st st' l :
  emit_loop code (run code n) b p (sl1 ++ i :: sl2) st = (Done tt, st') ->
  i < length (registry st b) -> slot st' (b, i) = Some (Some l) ->
  exists s1 s2,
    rtc step st s1 /\ slot s1 (b, i) = Some (Some l) /\
    run code n (invoke code l p) (log (EvInvoke (b, i) l p) s1) = (Done tt, s2) /\
    emit_loop code (run code n) b p sl2 s2 = (Done tt, st') /\
    rtc step s2 st'.
Proof.
  intros H Hi Hl. rewrite emit_loop_app in H.
  destruct (emit_loop code (run code n) b p sl1 st) as [o1 s1] eqn:E1.
  assert (Hs1 : rtc step st s1).
  { eapply emit_loop_steps; [|done]. intros. by eapply run_steps. }
  destruct o1 as [[]| | |]; try done.
  assert (Hs2 : rtc step s1 st').
  { eapply emit_loop_steps; [|done]. intros. by eapply run_steps. }
  assert (Hl1 : slot s1 (b, i) = Some (Some l)).
  { eapply steps_live_before; [done| |done].
    pose proof (steps_registry_length _ _ b Hs1). lia. }
  simpl in H. pose proof Hl1 as Hl1'. unfold slot in Hl1'; simpl in Hl1'.
  rewrite Hl1' in H.
  destruct (run code n (invoke code l p) _) as [o2 s2] eqn:E2.
  destruct o2 as [[]| | |]; try done.
  exists s1, s2. repeat split; try done.
  eapply emit_loop_steps; [|done]. intros. by eapply run_steps.
Qed.

(** Registrations are called in the order of their slots. *)
Lemma emit_loop_order n b p st st' i j li lj :
  emit_loop code (run code n) b p (seq 0 (length (registry st b))) st = (Done tt, st') ->
  i < j -> j < length (registry st b) ->
  slot st' (b, i) = Some (Some li) -> slot st' (b, j) = Some (Some lj) ->
  exists s1 s2 s3 s4,
    rtc step st s1 /\ slot s1 (b, i) = Some (Some li) /\
    run code n (invoke code li p) (log (EvInvoke (b, i) li p) s1) = (Done tt, s2) /\
    rtc step s2 s3 /\ slot s3 (b, j) = Some (Some lj) /\
    run code n (invoke code lj p) (log (EvInvoke (b, j) lj p) s3) = (Done tt, s4) /\
    rtc step s4 st'.
Proof.
  intros H Hij Hj Hli Hlj.
  rewrite (seq_split 0 _ i) in H by lia.
  destruct (emit_loop_call _ _ _ _ _ _ _ _ _ H ltac:(lia) Hli)
    as (s1 & s2 & Hs1 & Hl1 & Hi & H2 & Hs2).
  rewrite (seq_split (S i) _ j) in H2 by lia.
  assert (Hj2 : j < length (registry s2 b)).
  { assert (rtc step st s2).
    { etrans; [done|]. eapply rtc_l; [by apply step_invoke|by eapply run_steps]. }
    pose proof (steps_registry_length _ _ b H0). lia. }
  destruct (emit_loop_call _ _ _ _ _ _ _ _ _ H2 Hj2 Hlj)
    as (s3 & s4 & Hs3 & Hl3 & Hjr & _ & Hs4).
  by exists s1, s2, s3, s4.
Qed.

(** What a listener of the hub receives during two calls that follow one
    another in a run. *)
Lemma calls_in_order h x y st s1 ev1 s2 s3 ev3 s4 st' :
  rtc step st s1 -> step s1 (log ev1 s1) -> rtc step (log ev1 s1) s2 ->
  rtc step s2 s3 -> step s3 (log ev3 s3) -> rtc step (log ev3 s3) s4 ->
  rtc step s4 st' ->
  x ∈ received h (new_events (log ev1 s1) s2) ->
  y ∈ received h (new_events (log ev3 s3) s4) ->
  appears_before x y (received h (new_events st st')).
Proof.
  intros H1 He1 H2 H3 He3 H4 H5 Hx Hy.
  assert (new_events st st' =
            (new_events st s1 ++ [ev1]) ++ new_events (log ev1 s1) s2
              ++ (new_events s2 s3 ++ [ev3]) ++ new_events (log ev3 s3) s4
              ++ new_events s4 st') as ->.
  { assert (T3e : rtc step (log ev3 s3) st') by (by etrans).
    assert (T3 : rtc step s3 st') by (by eapply rtc_l).
    assert (T2 : rtc step s2 st') by (by etrans).
    assert (T1e : rtc step (log ev1 s1) st') by (by etrans).
    assert (T1 : rtc step s1 st') by (by eapply rtc_l).
    rewrite (new_events_trans st s1 st' H1 T1).
    rewrite (new_events_trans s1 (log ev1 s1) st' (rtc_once _ _ He1) T1e).
    rewrite (new_events_trans (log ev1 s1) s2 st' H2 T2).
    rewrite (new_events_trans s2 s3 st' H3 T3).
    rewrite (new_events_trans s3 (log ev3 s3) st' (rtc_once _ _ He3) T3e).
    rewrite (new_events_trans (log ev3 s3) s4 st' H4 H5).
    rewrite !new_events_logged by done. by rewrite <-!app_assoc. }
  rewrite !received_app. rewrite <-!app_assoc.
  rewrite (app_assoc (received h (new_events st s1))).
  rewrite (app_assoc (received h (new_events s2 s3))).
  by apply appears_before_segments.
Qed.

Lemma run_emit_first n A b v (k : prog A) s a s' :
  run code n (EmitOp b v k) s = (Done a, s') ->
  exists evs, new_events s s' = EvEmit b v :: evs.
Proof.
  destruct n as [|n]; [done|]. simpl. case_decide; [|done].
  destruct (emit_loop _ _ _ _ _ _) as [o1 s1] eqn:E.
  destruct o1 as [[]| | |]; try done. intros Hk.
  assert (Hs1 : rtc step (log (EvEmit b v) s) s').
  { etrans; [|by eapply run_steps].
    eapply emit_loop_steps; [|done]. intros. by eapply run_steps. }
  rewrite (new_events_trans s (log (EvEmit b v) s) s') by (done || by apply rtc_once, step_emit).
  rewrite new_events_logged by done. eauto.
Qed.

(** A registration that is there before a run that emits [v] on its
    bus, and is live when the run returns, has received [v]. *)
Lemma emit_received n A b v (k : prog A) s a s' j l :
  run code n (EmitOp b v k) s = (Done a, s') ->
  j < length (registry s b) -> slot s' (b, j) = Some (Some l) ->
  v ∈ received (b, j) (new_events s s').
Proof.
  intros Hrun Hj Hl. apply count_pos_received.
  rewrite (run_balanced code _ _ _ _ _ _ b j v l Hrun Hj Hl).
  destruct (run_emit_first _ _ _ _ _ _ _ _ Hrun) as [evs ->]. simpl.
  rewrite bool_decide_eq_true_2, jsval_eqb_refl by done. simpl. lia.
Qed.

End Nested.

Lemma steps_hub_state_prefix g fws st s st' :
  rtc step st s -> rtc step s st' ->
  (forall ev, ev ∈ new_events st st' -> ~ hub_only g fws.*2 ev) ->
  hub_state g fws st -> hub_state g fws s.
Proof.
  intros H1 H2 Hno. apply steps_hub_state; [done|].
  intros ev Hev. apply Hno. rewrite (new_events_trans st s st') by done.
  apply elem_of_app. by left.
Qed.

(** C7, as amended. While the hub is in place, let listener [idL], in
    slot [j] of channel [a], emit [q] on channel [b] and go on with
    [rest], and let [p] be emitted on [a], the emission returning with
    that listener and a listener of the hub still registered. Then the
    nested emission has returned, and the hub's listener has received
    its event, when [rest] starts. The hub's listener receives the event
    of the outer emission before that of the nested one when the slot of
    the emitting listener comes after the slot [i] of the forwarding
    listener of [a], as for every listener registered once the hub is
    made; and the nested one's before the outer one's when it comes
    before. *)
Theorem nested_emission_order code g fws st n a ba i b bb ib idL j rest p q jG lG st' :
  (forall id x, outside g fws.*2 (code id x)) ->
  hub_state g fws st -> NoDup fws.*1 ->
  (a, (ba, i)) ∈ fws -> (b, (bb, ib)) ∈ fws -> ba ≠ g ->
  code idL p = (emit (eventBus bb) q ≫= fun _ => rest) ->
  j < length (registry st ba) -> slot st' (ba, j) = Some (Some (User idL)) ->
  jG < length (registry st g) -> slot st' (g, jG) = Some (Some lG) ->
  run code (S n) (emit (eventBus ba) p) st = (Done tt, st') ->
  (exists sL sN sR,
     rtc step st sL /\ slot sL (ba, j) = Some (Some (User idL)) /\
     run code n (emit (eventBus bb) q) (log (EvInvoke (ba, j) (User idL) p) sL)
       = (Done tt, sN) /\
     tagged b q ∈ received (g, jG) (new_events (log (EvInvoke (ba, j) (User idL) p) sL) sN) /\
     run code n rest sN = (Done tt, sR) /\ rtc step sR st') /\
  i < length (registry st ba) /\
  (i < j ->
     appears_before (tagged a p) (tagged b q) (received (g, jG) (new_events st st'))) /\
  (j < i ->
     appears_before (tagged b q) (tagged a p) (received (g, jG) (new_events st st'))).
Proof.
  intros Hcode Hhub Hnames Ha Hb Hba HL Hj HslotL HjG HslotG Hrun.
  assert (Hout : outside g fws.*2 (emit (eventBus ba) p)) by done.
  assert (Hs : rtc step st st') by (by eapply run_steps).
  destruct (run_outside code g fws.*2 Hcode _ _ _ _ _ _
              (hub_state_refs _ _ _ Hhub) (or_introl Hout) Hrun) as [Hno _].
  assert (Hhub' : hub_state g fws st') by (by eapply steps_hub_state).
  pose proof (hs_forwarders _ _ _ Hhub _ _ Ha) as Hi.
  pose proof (hs_forwarders _ _ _ Hhub' _ _ Ha) as HslotF.
  assert (Hi' : i < length (registry st ba)).
  { unfold slot in Hi. simpl in Hi. by apply lookup_lt_Some in Hi. }
  (* the loop of the outer emission *)
  simpl in Hrun. case_decide as Hvalid; [|done].
  destruct (emit_loop _ _ _ _ _ _) as [o1 s1] eqn:E.
  destruct o1 as [[]| | |]; try done.
  assert (s1 = st') as -> by (destruct n; simpl in Hrun; congruence).
  assert (Hs0 : rtc step st (log (EvEmit ba p) st)) by (by apply rtc_once, step_emit).
  (* what the call of the emitting listener does *)
  assert (Hnested : forall s3 s4,
    rtc step st s3 -> slot s3 (ba, j) = Some (Some (User idL)) ->
    run code n (invoke code (User idL) p) (log (EvInvoke (ba, j) (User idL) p) s3)
      = (Done tt, s4) ->
    rtc step s4 st' ->
    exists sN,
      run code n (emit (eventBus bb) q) (log (EvInvoke (ba, j) (User idL) p) s3)
        = (Done tt, sN) /\
      tagged b q ∈ received (g, jG) (new_events (log (EvInvoke (ba, j) (User idL) p) s3) sN) /\
      run code n rest sN = (Done tt, s4) /\
      tagged b q ∈ received (g, jG) (new_events (log (EvInvoke (ba, j) (User idL) p) s3) s4)).
  { intros s3 s4 Hs3 Hl3 Hcall Hs4. simpl in Hcall. rewrite HL in Hcall.
    destruct (run_bind_inv _ _ _ _ _ _ _ _ _ Hcall ltac:(done))
      as [([] & sN & Hemit & Hrest)|[(e & [=] & _)|[[=] _]]].
    assert (Hs3' : rtc step st (log (EvInvoke (ba, j) (User idL) p) s3)).
    { etrans; [done|]. by apply rtc_once, step_invoke. }
    assert (HsN : rtc step (log (EvInvoke (ba, j) (User idL) p) s3) sN)
      by (by eapply run_steps).
    assert (HsR : rtc step sN s4) by (by eapply run_steps).
    assert (Hhub3 : hub_state g fws (log (EvInvoke (ba, j) (User idL) p) s3)).
    { eapply steps_hub_state_prefix; [done| |done|done].
      etrans; [done|]. by etrans. }
    assert (Hbb : outside g fws.*2 (emit (eventBus bb) q)).
    { specialize (Hcode idL p). rewrite HL in Hcode. simpl in *. tauto. }
    assert (HG3 : jG < length (registry (log (EvInvoke (ba, j) (User idL) p) s3) g)).
    { pose proof (steps_registry_length _ _ g Hs3'). lia. }
    assert (HGN : slot sN (g, jG) = Some (Some lG)).
    { eapply steps_live_before; [by etrans| |done].
      pose proof (steps_registry_length _ _ g HsN). lia. }
    assert (Hrecv : tagged b q ∈ received (g, jG)
              (new_events (log (EvInvoke (ba, j) (User idL) p) s3) sN)).
    { apply count_pos_received.
      rewrite (hub_forward_count code g fws _ _ _ _ _ _ b bb ib jG lG q
                 Hcode Hhub3 Hnames Hbb Hemit Hb HG3 HGN).
      destruct (run_emit_first code _ _ _ _ _ _ _ _ Hemit) as [evs ->]. simpl.
      rewrite bool_decide_eq_true_2, jsval_eqb_refl by done. simpl. lia. }
    exists sN. repeat split; try done.
    rewrite (new_events_trans _ sN s4) by done. rewrite received_app.
    apply elem_of_app. by left. }
  (* what the call of the forwarding listener of [a] does *)
  assert (Hforward : forall s3 s4,
    rtc step st s3 -> slot s3 (ba, i) = Some (Some (Forward g a)) ->
    run code n (invoke code (Forward g a) p) (log (EvInvoke (ba, i) (Forward g a) p) s3)
      = (Done tt, s4) ->
    rtc step s4 st' ->
    tagged a p ∈ received (g, jG) (new_events (log (EvInvoke (ba, i) (Forward g a) p) s3) s4)).
  { intros s3 s4 Hs3 Hl3 Hcall Hs4.
    assert (Hs3' : rtc step st (log (EvInvoke (ba, i) (Forward g a) p) s3)).
    { etrans; [done|]. by apply rtc_once, step_invoke. }
    eapply (emit_received code); [exact Hcall| |].
    - pose proof (steps_registry_length _ _ g Hs3'). lia.
    - eapply steps_live_before; [done| |done].
      pose proof (steps_registry_length _ _ g Hs3').
      pose proof (steps_registry_length _ _ g (run_steps _ _ _ _ _ _ _ Hcall)). lia. }
  split; [|split; [done|split]].
  - rewrite (seq_split 0 _ j) in E by (rewrite ?registry_log; lia).
    destruct (emit_loop_call code _ _ _ _ _ _ _ _ _ E ltac:(by rewrite registry_log) HslotL)
      as (sL & s4 & HsL & HlL & Hcall & _ & Hs4).
    assert (HsL' : rtc step st sL) by (by etrans).
    destruct (Hnested sL s4 HsL' HlL Hcall Hs4) as (sN & ? & ? & ? & _).
    by exists sL, sN, s4.
  - intros Hij.
    destruct (emit_loop_order code _ _ _ _ _ i j _ _ E Hij
                ltac:(by rewrite registry_log) HslotF HslotL)
      as (s1 & s2 & s3 & s4 & H1 & Hl1 & Hc1 & H3 & Hl3 & Hc3 & H5).
    assert (H1' : rtc step st s1) by (by etrans).
    assert (H3' : rtc step st s3).
    { etrans; [done|]. etrans; [|done].
      eapply rtc_l; [by apply step_invoke|by eapply run_steps]. }
    assert (H45 : rtc step s2 st').
    { etrans; [done|]. etrans; [|done].
      eapply rtc_l; [by apply step_invoke|by eapply run_steps]. }
    eapply (calls_in_order _ _ _ st s1 _ s2 s3 _ s4 st'); try done.
    + by apply step_invoke.
    + by eapply run_steps.
    + by apply step_invoke.
    + by eapply run_steps.
    + by apply Hforward.
    + by destruct (Hnested s3 s4 H3' Hl3 Hc3 H5) as (sN & _ & _ & _ & ?).
  - intros Hji.
    destruct (emit_loop_order code _ _ _ _ _ j i _ _ E Hji
                ltac:(by rewrite registry_log) HslotL HslotF)
      as (s1 & s2 & s3 & s4 & H1 & Hl1 & Hc1 & H3 & Hl3 & Hc3 & H5).
    assert (H1' : rtc step st s1) by (by etrans).
    assert (H3' : rtc step st s3).
    { etrans; [done|]. etrans; [|done].
      eapply rtc_l; [by apply step_invoke|by eapply run_steps]. }
    assert (H45 : rtc step s2 st').
    { etrans; [done|]. etrans; [|done].
      eapply rtc_l; [by apply step_invoke|by eapply run_steps]. }
    eapply (calls_in_order _ _ _ st s1 _ s2 s3 _ s4 st'); try done.
    + by apply step_invoke.
    + by eapply run_steps.
    + by apply step_invoke.
    + by eapply run_steps.
    + by destruct (Hnested s1 s2 H1' Hl1 Hc1 H45) as (sN & _ & _ & _ & ?).
    + by apply Hforward.
Qed.

Lemma nested_ready_hub_state :
  hub_state 0 [("a", (1, 0)); ("b", (2, 0))] nested_ready.
Proof.
  split.
  - vm_compute. lia.
  - intros name h Hin.
    repeat (apply elem_of_cons in Hin as [[= -> ->]|Hin]; [reflexivity|]).
    by apply elem_of_nil in Hin.
  - intros name [b i] Hl.
    destruct b as [|[|[|b]]]; destruct i as [|[|i]]; vm_compute in Hl;
      try discriminate; injection Hl as <-; compute_done.
Qed.

(** The scenario of [scenario_on]: listener 1, registered by [hub.on]
    in slot 1 of [a], after the forwarding listener in slot 0, emits [2]
    on [b] while [1] is emitted on [a]; the hub's listener receives the
    event of [a], then the event of [b]. *)
Lemma nested_emission_order_witness :
  appears_before (tagged "a" (VNum 1)) (tagged "b" (VNum 2))
    (received (0, 0) (new_events nested_ready nested_done)) /\
  received (0, 0) (new_events nested_ready nested_done)
    = [tagged "a" (VNum 1); tagged "b" (VNum 2)].
Proof.
  assert (Hcode : forall id x,
            outside 0 [("a", (1, 0)); ("b", (2, 0))].*2 (nested_code ab_made (VNum 2) id x)).
  { intros [|[|id]] x; cbn; done. }
  destruct (nested_emission_order (nested_code ab_made (VNum 2)) 0
              [("a", (1, 0)); ("b", (2, 0))] nested_ready 7
              "a" 1 0 "b" 2 0 1 1 (Ret tt) (VNum 1) (VNum 2) 0 (User 0) nested_done
              Hcode nested_ready_hub_state ltac:(compute_done)
              ltac:(compute_done) ltac:(compute_done) ltac:(lia) eq_refl
              ltac:(vm_compute; lia) eq_refl ltac:(vm_compute; lia) eq_refl eq_refl)
    as (_ & _ & Hafter & _).
  split; [exact (Hafter ltac:(lia))|reflexivity].
Defined.

(** The same two emissions with the emitting listener registered by
    [hub.on], and with it registered on the channel before the hub is
    made: the traces, and what the hub's listener receives. *)
Lemma scenario_orders p q :
  (exists s,
     run (nested_code ab_made q) 12 (scenario_on p) empty_state = (Done tt, s) /\
     st_trace s =
       [EvListen (1, 0) (Forward 0 "a"); EvListen (2, 0) (Forward 0 "b");
        EvListen (0, 0) (User 0); EvListen (1, 1) (User 1);
        EvEmit 1 p;
          EvInvoke (1, 0) (Forward 0 "a") p;
            EvEmit 0 (tagged "a" p);
              EvInvoke (0, 0) (User 0) (tagged "a" p);
          EvInvoke (1, 1) (User 1) p;
            EvEmit 2 q;
              EvInvoke (2, 0) (Forward 0 "b") q;
                EvEmit 0 (tagged "b" q);
                  EvInvoke (0, 0) (User 0) (tagged "b" q)] /\
     received (0, 0) (st_trace s) = [tagged "a" p; tagged "b" q]) /\
  (exists s,
     run (nested_code ab_plain q) 12 (scenario_before p) empty_state = (Done tt, s) /\
     st_trace s =
       [EvListen (0, 0) (User 1);
        EvListen (0, 1) (Forward 2 "a"); EvListen (1, 0) (Forward 2 "b");
        EvListen (2, 0) (User 0);
        EvEmit 0 p;
          EvInvoke (0, 0) (User 1) p;
            EvEmit 1 q;
              EvInvoke (1, 0) (Forward 2 "b") q;
                EvEmit 2 (tagged "b" q);
                  EvInvoke (2, 0) (User 0) (tagged "b" q);
          EvInvoke (0, 1) (Forward 2 "a") p;
            EvEmit 2 (tagged "a" p);
              EvInvoke (2, 0) (User 0) (tagged "a" p)] /\
     received (2, 0) (st_trace s) = [tagged "b" q; tagged "a" p]).
Proof.
  split; eexists; (split; [reflexivity|]); split; reflexivity.
Qed.

(** C7 as stated fails: in [scenario_on], where listener 1 on [a],
    registered by [hub.on], emits [2] on [b] while [1] is emitted on [a],
    the hub's listener receives the event of [a] first, and the event of
    the nested emission does not come before it. *)
Lemma nested_emission_order_counterexample :
  (run (nested_code ab_made (VNum 2)) 12 (scenario_on (VNum 1)) empty_state).1 = Done tt /\
  received (0, 0)
    (st_trace (run (nested_code ab_made (VNum 2)) 12 (scenario_on (VNum 1)) empty_state).2)
    = [tagged "a" (VNum 1); tagged "b" (VNum 2)] /\
  ~ appears_before (tagged "b" (VNum 2)) (tagged "a" (VNum 1))
      (received (0, 0)
         (st_trace (run (nested_code ab_made (VNum 2)) 12 (scenario_on (VNum 1))
                      empty_state).2)).
Proof.
  split; [reflexivity|]. split; [reflexivity|].
  intros (l1 & l2 & l3 & H). vm_compute in H.
  destruct l1 as [|? [|? [|? l1]]]; try discriminate;
    destruct l2 as [|? [|? l2]]; discriminate.
Qed.

(** ** What a forwarding listener does when it is called *)

Lemma forwards_at_once_nil g : forwards_at_once g [].
Proof. intros evs1 h name p evs2 H. by destruct evs1. Qed.

Lemma forwards_at_once_app g evsA evsB :
  forwards_at_once g evsA -> forwards_at_once g evsB ->
  forwards_at_once g (evsA ++ evsB).
Proof.
  intros HA HB evs1 h name p evs2 H.
  apply app_eq_app in H as [l [[-> H]|[-> H]]].
  - destruct l as [|ev l]; simpl in H.
    + by apply (HB [] h name p evs2).
    + injection H as <- ->.
      destruct (HA evs1 h name p l eq_refl) as [evs3 ->]. eauto.
  - by apply (HB l h name p evs2).
Qed.

Lemma forwards_at_once_cons g ev evs :
  (forall h name p, ev ≠ EvInvoke h (Forward g name) p) ->
  forwards_at_once g evs -> forwards_at_once g (ev :: evs).
Proof.
  intros Hev H evs1 h name p evs2 Heq.
  destruct evs1 as [|ev1 evs1]; simpl in Heq.
  - injection Heq as -> _. by destruct (Hev h name p).
  - injection Heq as _ ->. by eapply H.
Qed.

Lemma forwards_at_once_call g h name p evs :
  forwards_at_once g (EvEmit g (tagged name p) :: evs) ->
  forwards_at_once g (EvInvoke h (Forward g name) p :: EvEmit g (tagged name p) :: evs).
Proof.
  intros H evs1 h' name' p' evs2 Heq.
  destruct evs1 as [|ev1 evs1]; simpl in Heq.
  - injection Heq as <- <- <- <-. eauto.
  - injection Heq as _ Heq. by eapply H.
Qed.

Section ForwardAtOnce.

Context (code : code_table) (g : bus_id).

(** An emission that is not cut short starts with its entry of the
    trace. *)
Lemma run_emit_head n A b v (k : prog A) s o s' :
  run code n (EmitOp b v k) s = (o, s') -> o ≠ OutOfFuel ->
  b < length (st_buses s) ->
  exists evs, new_events s s' = EvEmit b v :: evs.
Proof.
  destruct n as [|n]; [by intros [= <- <-]|]. simpl. intros H Ho Hb.
  rewrite decide_True in H by done.
  destruct (emit_loop _ _ _ _ _ _) as [o1 s1] eqn:E.
  assert (Hs1 : rtc step (log (EvEmit b v) s) s1).
  { eapply emit_loop_steps; [|done]. intros. by eapply run_steps. }
  assert (Hs : rtc step (log (EvEmit b v) s) s').
  { destruct o1 as [[]| | |]; try (by injection H as <- <-).
    etrans; [done|]. by eapply run_steps. }
  rewrite (new_events_trans s (log (EvEmit b v) s) s') by (done || by apply rtc_once, step_emit).
  rewrite new_events_logged by done. eauto.
Qed.

Lemma emit_loop_forwards n b p sl :
  (forall A (m : prog A) st o st',
     g < length (st_buses st) ->
     run code n m st = (o, st') -> o ≠ OutOfFuel ->
     forwards_at_once g (new_events st st')) ->
  forall st o st',
    g < length (st_buses st) ->
    emit_loop code (run code n) b p sl st = (o, st') -> o ≠ OutOfFuel ->
    forwards_at_once g (new_events st st').
Proof.
  intros IHn. induction sl as [|i rest IH]; intros st o st' Hg H Ho; simpl in H.
  { injection H as <- <-. rewrite new_events_same by done. apply forwards_at_once_nil. }
  destruct (registry st b !! i) as [[l0|]|] eqn:Hi0; [|by eapply IH..].
  destruct (run code n (invoke code l0 p) _) as [o1 s1] eqn:E.
  assert (Hs0 : rtc step st (log (EvInvoke (b, i) l0 p) st))
    by (by apply rtc_once, step_invoke).
  assert (Hs1 : rtc step (log (EvInvoke (b, i) l0 p) st) s1) by (by eapply run_steps).
  assert (Hs2 : rtc step s1 st').
  { destruct o1 as [[]| | |]; try (by injection H as <- <-).
    eapply emit_loop_steps; [|done]. intros. by eapply run_steps. }
  assert (Ho1 : o1 ≠ OutOfFuel).
  { intros ->. by injection H as <- <-. }
  assert (Hg0 : g < length (st_buses (log (EvInvoke (b, i) l0 p) st))) by done.
  assert (Hbody : forwards_at_once g (new_events (log (EvInvoke (b, i) l0 p) st) s1))
    by (by eapply IHn).
  assert (Hrest : forwards_at_once g (new_events s1 st')).
  { destruct o1 as [[]| | |];
      try (injection H as <- <-; rewrite new_events_same by done;
           apply forwards_at_once_nil).
    eapply IH; [|done..].
    pose proof (steps_buses _ _ Hs1). simpl in *. lia. }
  rewrite (new_events_trans st _ st' Hs0) by (by etrans).
  rewrite (new_events_trans _ s1 st' Hs1 Hs2), new_events_logged by done.
  cbn [app].
  destruct l0 as [g' name|id].
  - destruct (decide (g' = g)) as [->|Hne].
    + destruct (run_emit_head _ _ _ _ _ _ _ _ E Ho1 Hg0) as [evs Hevs].
      rewrite Hevs. cbn [app]. apply forwards_at_once_call.
      change (forwards_at_once g ((EvEmit g (tagged name p) :: evs) ++ new_events s1 st')).
      rewrite <-Hevs. by apply forwards_at_once_app.
    + apply forwards_at_once_cons; [congruence|]. by apply forwards_at_once_app.
  - apply forwards_at_once_cons; [done|]. by apply forwards_at_once_app.
Qed.

(** In every run that is not cut short, each call of a forwarding
    listener of [g] is followed at once by its emission on [g]. *)
Lemma run_forwards n : forall A (m : prog A) st o st',
  g < length (st_buses st) ->
  run code n m st = (o, st') -> o ≠ OutOfFuel ->
  forwards_at_once g (new_events st st').
Proof.
  induction n as [|n IH]; intros A m st o st' Hg H Ho.
  { injection H as <- <-. rewrite new_events_same by done. apply forwards_at_once_nil. }
  simpl in H.
  assert (Hstop : forall o0, (o0, st) = (o, st') -> forwards_at_once g (new_events st st')).
  { intros o0 [= <- <-]. rewrite new_events_same by done. apply forwards_at_once_nil. }
  assert (Hseq : forall st1 (k : prog A),
    rtc step st st1 -> forwards_at_once g (new_events st st1) ->
    run code n k st1 = (o, st') ->
    forwards_at_once g (new_events st st')).
  { intros st1 k Hs1 Hevs Hrun.
    rewrite (new_events_trans st st1 st' Hs1) by (by eapply run_steps).
    apply forwards_at_once_app; [done|].
    eapply IH; [|done..]. pose proof (steps_buses _ _ Hs1). lia. }
  destruct m; repeat case_decide; try (by eapply Hstop).
  - eapply Hseq; [by apply rtc_once, step_new| |done].
    rewrite new_events_same by done. apply forwards_at_once_nil.
  - eapply Hseq; [by apply rtc_once, step_listen| |done].
    rewrite new_events_logged by done.
    apply forwards_at_once_cons; [done|apply forwards_at_once_nil].
  - eapply Hseq; [by apply rtc_once, step_unsub| |done].
    rewrite new_events_logged by done.
    apply forwards_at_once_cons; [done|apply forwards_at_once_nil].
  - destruct (emit_loop _ _ _ _ _ _) as [o1 s1] eqn:E.
    assert (Hs0 : rtc step st (log (EvEmit b p) st)) by (by apply rtc_once, step_emit).
    assert (Hs1 : rtc step (log (EvEmit b p) st) s1).
    { eapply emit_loop_steps; [|done]. intros. by eapply run_steps. }
    assert (Ho1 : o1 ≠ OutOfFuel).
    { intros ->. by injection H as <- <-. }
    assert (Hloop : forwards_at_once g (new_events st s1)).
    { rewrite (new_events_trans st _ s1 Hs0 Hs1), new_events_logged by done.
      apply forwards_at_once_cons; [done|].
      eapply (emit_loop_forwards n b p _ IH); [|done..]. done. }
    destruct o1 as [[]| | |]; try (by injection H as <- <-).
    eapply Hseq; [by etrans|done|done].
  - destruct (st_cells st !! c) as [v|]; [|by eapply Hstop].
    by eapply IH.
  - eapply Hseq; [by apply rtc_once, step_set| |done].
    rewrite new_events_same by done. apply forwards_at_once_nil.
Qed.

End ForwardAtOnce.

(** ** What construction does *)

(** C8. [createEventHub] resolves its argument (a function is called
    with [createEventBus]) and, once that has returned channels that are
    buses, returns the hub having registered on each channel's bus, in
    the order of the channels, one listener [Forward g name]. The body
    of that listener is [global.emit({ name, details: payload })], the
    object having the two properties [name] and [details] in this order
    with the channel's name and the very payload; and in every later
    run that is not cut short, each call of such a listener with a
    payload is followed at once, before anything else happens, by the
    emission of that object on the global bus. Each of these
    registrations stays in its slot in every later run in which its
    unsubscribe function, which the hub dropped, is not called: in every
    run of a program that, like the listeners, has no reference to it. *)
Theorem forwarding_registered_eagerly code def st n buses st1 entries fuel :
  run code n (resolve def) (new_bus st) = (Done buses, st1) ->
  channels_on buses entries ->
  (forall e, e ∈ entries -> e.2 < length (st_buses st1)) ->
  n + length buses + 3 <= fuel ->
  let g := length (st_buses st) in
  let st' := register_all g entries st1 in
  (forall f, def = Factory f -> resolve def = f createEventBus) /\
  (forall m, def = Channels m -> resolve def = Ret m) /\
  run code fuel (createEventHub def) st
    = (Done (hub_object g buses (store_of buses [])), st') /\
  new_events st1 st'
    = map (fun nh => EvListen nh.2 (Forward g nh.1)) (forwarders g entries st1) /\
  (forwarders g entries st1).*1 = obj_keys buses /\
  (forall name payload,
     invoke code (Forward g name) payload
       = EmitOp g (VObj [("name", VStr name); ("details", payload)]) (Ret tt)) /\
  (forall fuel' A (m : prog A) o st2,
     run code fuel' m st' = (o, st2) -> o ≠ OutOfFuel ->
     forwards_at_once g (new_events st' st2)) /\
  (forall name h, (name, h) ∈ forwarders g entries st1 ->
     slot st' h = Some (Some (Forward g name)) /\
     (forall fuel' A (m : prog A) o st2,
        run code fuel' m st' = (o, st2) ->
        EvUnsub h ∉ new_events st' st2 ->
        slot st2 h = Some (Some (Forward g name))) /\
     (forall fuel' A (m : prog A) o st2,
        (forall id x, outside g (forwarders g entries st1).*2 (code id x)) ->
        outside g (forwarders g entries st1).*2 m ->
        run code fuel' m st' = (o, st2) ->
        slot st2 h = Some (Some (Forward g name)))).
Proof.
  intros Hres Hon Hvalid Hfuel g st'.
  assert (Hg : g < length (st_buses st')).
  { pose proof (steps_buses _ _ (run_steps _ _ _ _ _ _ _ Hres)) as Hlen.
    pose proof (steps_buses _ _ (register_all_steps g entries st1 Hvalid)).
    unfold new_bus in Hlen; simpl in Hlen. rewrite length_app in Hlen.
    simpl in Hlen. unfold g, st'. lia. }
  split; [by intros f ->|]. split; [by intros m ->|].
  split; [|split; [|split; [|split; [|split]]]].
  - apply (run_mono code (S (n + (length buses + 1 + 1)))); [|done|lia].
    cbn [createEventHub run]. eapply run_bind; [exact Hres| |done].
    eapply run_bind; [by apply forEach_on_buses| |done]. done.
  - by apply register_all_events.
  - rewrite forwarders_names. unfold obj_keys.
    clear -Hon. induction Hon as [|[] [] ?? [? _] _ IH]; simpl in *; [done|].
    by f_equal.
  - done.
  - intros fuel' A m o st2 Hrun Ho. by eapply run_forwards.
  - intros name h Hin.
    assert (slot st' h = Some (Some (Forward g name))) by (by apply forwarders_live).
    split; [done|]. split.
    + intros fuel' A m o st2 Hrun Hno.
      apply run_steps in Hrun. by eapply steps_live.
    + intros fuel' A m o st2 Hcode Hm Hrun.
      assert (Hrefs : hub_refs g (forwarders g entries st1).*2 st').
      { split; [done|].
        intros h' [[name' h''] [-> Hin']]%list_elem_of_fmap. simpl.
        pose proof (forwarders_live g entries st1 _ _ Hvalid Hin') as Hl.
        unfold slot in Hl. by apply lookup_lt_Some in Hl. }
      destruct (run_outside code g _ Hcode _ _ _ _ _ _ Hrefs (or_introl Hm) Hrun)
        as [Hno _].
      eapply steps_live; [by eapply run_steps|done|].
      intros Hev. apply (Hno _ Hev). simpl.
      apply list_elem_of_fmap. by exists (name, h).
Qed.

(** The hub of [ab_factory], which makes its two buses itself: the
    forwarding listeners are in slot 0 of buses 1 and 2 when the hub is
    returned; and when [7] is then emitted on bus 1, the forwarding
    listener of [a] is called and the next entry of the trace is the
    emission of [{ name: "a", details: 7 }] on the global bus 0. *)
Lemma forwarding_registered_eagerly_witness :
  run no_code 8 (createEventHub ab_factory) empty_state
    = (Done (hub_object 0 ab_made (store_of ab_made [])),
       register_all 0 [("a", 1); ("b", 2)] (new_bus (new_bus (new_bus empty_state)))) /\
  new_events (new_bus (new_bus (new_bus empty_state)))
      (register_all 0 [("a", 1); ("b", 2)] (new_bus (new_bus (new_bus empty_state))))
    = [EvListen (1, 0) (Forward 0 "a"); EvListen (2, 0) (Forward 0 "b")] /\
  slot (register_all 0 [("a", 1); ("b", 2)] (new_bus (new_bus (new_bus empty_state))))
       (2, 0) = Some (Some (Forward 0 "b")) /\
  forwards_at_once 0
    [EvEmit 1 (VNum 7); EvInvoke (1, 0) (Forward 0 "a") (VNum 7);
     EvEmit 0 (VObj [("name", VStr "a"); ("details", VNum 7)])].
Proof.
  assert (Hvalid : forall e : string * nat, e ∈ [("a", 1); ("b", 2)] ->
            e.2 < length (st_buses (new_bus (new_bus (new_bus empty_state))))).
  { intros e He. apply elem_of_cons in He as [->|He]; [vm_compute; lia|].
    apply elem_of_cons in He as [->|He]; [vm_compute; lia|].
    by apply elem_of_nil in He. }
  destruct (forwarding_registered_eagerly no_code ab_factory empty_state 3 ab_made
              (new_bus (new_bus (new_bus empty_state))) [("a", 1); ("b", 2)] 8
              eq_refl ltac:(repeat constructor) Hvalid ltac:(vm_compute; lia))
    as (_ & _ & Hrun & Hev & _ & _ & Hat & Hlive).
  split; [exact Hrun|]. split; [exact Hev|]. split.
  - exact (proj1 (Hlive "b" (2, 0) ltac:(compute_done))).
  - exact (Hat 4 unit (emit (eventBus 1) (VNum 7)) (Done tt)
             (run no_code 4 (emit (eventBus 1) (VNum 7))
                (register_all 0 [("a", 1); ("b", 2)]
                   (new_bus (new_bus (new_bus empty_state))))).2
             eq_refl ltac:(discriminate)).
Defined.

(** * Further properties of [createEventHub] *)

(** ** The keys of the store and of the hub *)

Lemma obj_keys_set {A} (o : obj A) k v :
  obj_keys (obj_set o k v) =
    if decide (k ∈ obj_keys o) then obj_keys o else obj_keys o ++ [k].
Proof.
  unfold obj_keys. induction o as [|[k' v'] o IH].
  - cbn [obj_set fmap list_fmap fst app]. rewrite decide_False; [done|].
    apply not_elem_of_nil.
  - cbn [obj_set]. destruct (decide (k' = k)) as [->|Hne].
    + rewrite !fmap_cons. cbn [fst]. rewrite decide_True; [done|]. by left.
    + rewrite !fmap_cons. cbn [fst]. rewrite IH.
      destruct (decide (k ∈ o.*1)) as [Hin|Hnin].
      * rewrite decide_True; [done|]. by right.
      * rewrite decide_False; [done|].
        rewrite not_elem_of_cons. split; [congruence|done].
Qed.

Lemma obj_keys_spread {A B} (f : A -> B) (src : obj A) : forall o : obj B,
  NoDup (obj_keys src) ->
  (forall k, k ∈ obj_keys src -> k ∉ obj_keys o) ->
  obj_keys (obj_spread f o src) = obj_keys o ++ obj_keys src.
Proof.
  unfold obj_spread. induction src as [|[k v] src IH]; intros o Hnd Hdisj; simpl.
  { by rewrite app_nil_r. }
  unfold obj_keys in Hnd. rewrite fmap_cons in Hnd.
  apply list.NoDup_cons in Hnd as [Hk Hnd]. simpl in Hk.
  rewrite IH; [| done |].
  - rewrite obj_keys_set, decide_False by (apply Hdisj; by left).
    by rewrite <-app_assoc.
  - intros k' Hk'. rewrite obj_keys_set, decide_False by (apply Hdisj; by left).
    rewrite not_elem_of_app, not_elem_of_cons. split; [|split].
    + apply Hdisj. by right.
    + intros ->. done.
    + apply not_elem_of_nil.
Qed.

Lemma obj_keys_store_of (buses : obj EventHubChannel) : forall store : Store,
  NoDup (obj_keys buses) ->
  (forall k, k ∈ obj_keys buses -> k ∉ obj_keys store) ->
  obj_keys (store_of buses store) =
    obj_keys store ++ valued buses.
Proof.
  unfold store_of, valued, obj. induction buses as [|[k bus] buses IH]; intros store Hnd Hdisj.
  { simpl. by rewrite app_nil_r. }
  unfold obj_keys in Hnd. rewrite fmap_cons in Hnd.
  apply list.NoDup_cons in Hnd as [Hk Hnd]. cbn [fst] in Hk.
  cbn [foldl fst snd]. rewrite filter_cons. cbn [fst snd].
  destruct (value bus) as [get|] eqn:Hv.
  - rewrite decide_True by done. rewrite IH; [|done|].
    + unfold defineProperty.
      rewrite obj_keys_set, decide_False by (apply Hdisj; by left).
      rewrite fmap_cons. cbn [fst]. by rewrite <-app_assoc.
    + intros k' Hk'. unfold defineProperty.
      rewrite obj_keys_set, decide_False by (apply Hdisj; by left).
      rewrite not_elem_of_app, not_elem_of_cons. split; [|split].
      * apply Hdisj. by right.
      * intros ->. done.
      * apply not_elem_of_nil.
  - rewrite decide_False by (by intros [? ?]). apply IH; [done|].
    intros k' Hk'. apply Hdisj. by right.
Qed.

(** X1. [Object.keys(hub.store)] is the list of the names of the channels
    that have a [value] accessor, in the order of the mapping: line 83
    defines an enumerable property for each of them and for no other
    name, in the order in which [Object.entries] gives the channels. *)
Theorem store_enumerates_accessors code def st buses hub st' :
  hub_from code def st buses hub st' ->
  NoDup (obj_keys buses) ->
  obj_keys (hub_store hub) = valued buses.
Proof.
  intros Hhub Hnd. rewrite (hub_store_of _ _ _ _ _ _ Hhub).
  rewrite obj_keys_store_of; [done..|].
  intros k _. apply not_elem_of_nil.
Qed.

(** Of the channels [a] (a plain bus) and [b] (a stack), only [b] is a
    key of the store. *)
Lemma store_enumerates_accessors_witness :
  obj_keys (hub_store ab_hub) = ["b"].
Proof.
  exact (store_enumerates_accessors no_code (Channels ab_channels) two_buses ab_channels
           ab_hub ab_state (ab_hub_from _) ltac:(compute_done)).
Defined.

(** X2. The own keys of the hub are the channel names, in the order in
    which [Object.entries] gives the channels, followed by those of
    [store], [on], [emit], [listen] that are not channel names: the
    spread of line 88 comes first, and a member of lines 89-92 whose name
    a channel has takes that channel's place. No key occurs twice. *)
Theorem hub_keys code def st buses hub st' :
  hub_from code def st buses hub st' ->
  NoDup (obj_keys buses) ->
  obj_keys hub =
    obj_keys buses ++ filter (fun k => k ∉ obj_keys buses) hub_members /\
  NoDup (obj_keys hub).
Proof.
  intros Hhub Hnd. rewrite (hub_from_inv _ _ _ _ _ _ Hhub).
  assert (obj_keys (hub_object (length (st_buses st)) buses (store_of buses [])) =
    obj_keys buses ++ filter (fun k => k ∉ obj_keys buses) hub_members) as ->.
  { unfold hub_object, hub_members. rewrite !obj_keys_set.
    rewrite obj_keys_spread; [|done|intros ? _; apply not_elem_of_nil].
    cbn [obj_keys fmap list_fmap app]. rewrite !filter_cons, filter_nil.
    repeat (match goal with
            | |- context [decide (?k ∈ ?l)] => destruct (decide (k ∈ l))
            | |- context [decide (?k ∉ ?l)] => destruct (decide (k ∉ l))
            | H : _ ∈ _ ++ _ |- _ => apply elem_of_app in H as [H|H]
            | H : _ ∉ _ ++ _ |- _ => apply not_elem_of_app in H as [? _]
            | H : _ ∈ [_] |- _ => apply list_elem_of_singleton in H
            end; try done; try discriminate);
      rewrite <-?app_assoc, ?app_nil_r; try done; exfalso; tauto. }
  split; [done|].
  apply NoDup_app. split; [done|]. split.
  - intros k Hk Hk'. by apply list_elem_of_filter in Hk' as [? _].
  - apply NoDup_filter. unfold hub_members. compute_done.
Qed.

(** [odd_hub] was given the channels [store] and [constructor]: its keys
    are these two, then [on], [emit] and [listen]. *)
Lemma hub_keys_witness :
  obj_keys odd_hub = ["store"; "constructor"; "on"; "emit"; "listen"] /\
  NoDup (obj_keys odd_hub).
Proof.
  exact (hub_keys no_code (Channels odd_channels) two_buses odd_channels
           odd_hub odd_state (odd_hub_from _) ltac:(compute_done)).
Defined.

(** X3. Reading [store.<name>] for a name that has no accessor, because
    no channel has the name or because its channel has no [value], calls
    nothing and never throws: the read gives [undefined], or the built-in
    of that name for the names every object inherits, and leaves the
    state as it was. *)
Theorem store_read_without_accessor code def st buses hub st' name depth :
  hub_from code def st buses hub st' ->
  NoDup (obj_keys buses) ->
  (forall bus, obj_get buses name = Some bus -> value bus = None) ->
  let v := if bool_decide (name ∈ Object_prototype) then VBuiltin name else VUndefined in
  read_store depth (hub_store hub) name = Ret v /\
  forall n s, run code (S n) (read_store depth (hub_store hub) name) s = (Done v, s).
Proof.
  intros Hhub Hnd Hno v.
  assert (read_store depth (hub_store hub) name = Ret v) as ->.
  { rewrite (hub_store_of _ _ _ _ _ _ Hhub).
    assert (Hnone : obj_get (store_of buses []) name = None).
    { rewrite obj_get_store_of by done.
      destruct (obj_get buses name) as [bus|] eqn:Hbus; [|done].
      by rewrite (Hno bus eq_refl). }
    destruct depth; simpl; unfold js_read; rewrite Hnone;
      subst v; by case_bool_decide. }
  split; [done|]. intros n s. reflexivity.
Qed.

(** In [ab_hub], the channel [a] has no accessor: [store.a] is
    [undefined], and so is [store.c] for the name [c] of no channel. *)
Lemma store_read_without_accessor_witness :
  run no_code 1 (read_store 1 (hub_store ab_hub) "a") ab_state = (Done VUndefined, ab_state) /\
  run no_code 1 (read_store 1 (hub_store ab_hub) "c") ab_state = (Done VUndefined, ab_state).
Proof.
  split.
  - refine (proj2 (store_read_without_accessor no_code (Channels ab_channels)
             two_buses ab_channels ab_hub ab_state "a" 1 (ab_hub_from _)
             ltac:(compute_done) _) 0 ab_state).
    intros bus Hbus. injection Hbus as <-. reflexivity.
  - refine (proj2 (store_read_without_accessor no_code (Channels ab_channels)
             two_buses ab_channels ab_hub ab_state "c" 1 (ab_hub_from _)
             ltac:(compute_done) _) 0 ab_state).
    intros bus Hbus. discriminate Hbus.
Defined.

(** X9. The hub has no member besides its channels and [store], [on],
    [emit], [listen]: reading any other name of the hub gives
    [undefined], or what every object inherits under that name. So it is
    for [once], [off], [clear], [clearAll], [remove] and [clearGlobal],
    which the comment above the function lists among what is returned,
    unless a channel has that name. *)
Theorem hub_has_no_other_member code def st buses hub st' k :
  hub_from code def st buses hub st' ->
  NoDup (obj_keys buses) ->
  k ∉ hub_members ->
  obj_get buses k = None ->
  js_read hub k = (if bool_decide (k ∈ Object_prototype) then Inherited else Undefined) /\
  (k ∈ ["once"; "off"; "clear"; "clearAll"; "remove"; "clearGlobal"] ->
   js_read hub k = Undefined).
Proof.
  intros Hhub Hnd Hk Hget.
  assert (js_read hub k
            = if bool_decide (k ∈ Object_prototype) then Inherited else Undefined) as ->.
  { rewrite (hub_from_inv _ _ _ _ _ _ Hhub). unfold js_read.
    rewrite hub_object_channel by done. by rewrite Hget. }
  split; [done|]. intros Hin.
  rewrite bool_decide_eq_false_2; [done|].
  intros Hproto. revert Hin. unfold Object_prototype in Hproto.
  repeat (apply elem_of_cons in Hproto as [->|Hproto]; [compute_done|]).
  by apply elem_of_nil in Hproto.
Qed.

(** [ab_hub] has no member [off]. *)
Lemma hub_has_no_other_member_witness :
  js_read ab_hub "off" = Undefined.
Proof.
  exact (proj2 (hub_has_no_other_member no_code (Channels ab_channels) two_buses
                  ab_channels ab_hub ab_state "off" (ab_hub_from _)
                  ltac:(compute_done) ltac:(compute_done) eq_refl)
           ltac:(compute_done)).
Defined.

(** ** Construction that fails *)

Section Failure.

Context (code : code_table).

(** A program that throws makes every sequence that starts with it throw. *)
Lemma run_bind_thrown n : forall A B (m : prog A) (f : A -> prog B) st e st1,
  run code n m st = (Thrown e, st1) ->
  run code n (m ≫= f) st = (Thrown e, st1).
Proof.
  unfold mbind, prog_bind.
  induction n as [|n IH]; intros A B m f st e st1 H; simpl in H.
  { congruence. }
  destruct m; simpl in *; repeat case_decide; try (by eapply IH); try done.
  - by injection H as <- <-.
  - destruct (emit_loop _ _ _ _ _ _) as [o1 s1] eqn:E.
    destruct o1 as [[]| | |]; try done; [by eapply IH|by injection H as <- <-].
  - destruct (st_cells st !! c); [by eapply IH | done].
Qed.

(** The loop of lines 82-85 goes through the channels in order: after
    channels that are buses it goes on with the rest, the forwarding
    listeners of those registered. *)
Lemma forEach_entries_app g pre entries rest k :
  channels_on pre entries ->
  forall store st o st',
    (forall e, e ∈ entries -> e.2 < length (st_buses st)) ->
    run code k (forEach_entries g rest (store_of pre store)) (register_all g entries st)
      = (o, st') ->
    o ≠ OutOfFuel ->
    run code (length pre + k) (forEach_entries g (pre ++ rest) store) st = (o, st').
Proof.
  induction 1 as [|[name bus] [name' b] pre entries [Hname [Hlisten _]] _ IH];
    intros store st o st' Hvalid Hrun Ho; [done|].
  simpl in Hname, Hlisten. subst name'.
  assert (b < length (st_buses st)) by (apply (Hvalid (name, b)); by left).
  cbn [app forEach_entries length Nat.add]. rewrite Hlisten.
  cbn [listen eventBus mbind prog_bind bind run]. rewrite decide_True by done.
  apply IH; [|done..].
  intros e He. simpl. rewrite length_alter. apply Hvalid. by right.
Qed.

End Failure.

(** X4. Construction is not undone when it fails. If [listen] of a
    channel throws while [createEventHub] registers its forwarding
    listeners (line 84), [createEventHub] throws that exception and
    returns no hub, in the state that the failed call left: the
    forwarding listeners of the channels before it, here buses, are
    registered and stay in their slots unless that call unsubscribed
    them, and the loop does not go on to the channels after it. *)
Theorem construction_not_undone code def st n pre entries name bus post st1 k e st2 fuel :
  run code n (resolve def) (new_bus st) = (Done (pre ++ (name, bus) :: post), st1) ->
  channels_on pre entries ->
  (forall en, en ∈ entries -> en.2 < length (st_buses st1)) ->
  let g := length (st_buses st) in
  run code k (listen bus (Forward g name)) (register_all g entries st1)
    = (Thrown e, st2) ->
  n + length pre + k + 1 <= fuel ->
  run code fuel (createEventHub def) st = (Thrown e, st2) /\
  forall nm h, (nm, h) ∈ forwarders g entries st1 ->
    EvUnsub h ∉ new_events (register_all g entries st1) st2 ->
    slot st2 h = Some (Some (Forward g nm)).
Proof.
  intros Hres Hon Hvalid g Hlisten Hfuel. split.
  - apply (run_mono code (S (n + (length pre + k)))); [|done|lia].
    cbn [createEventHub run]. eapply run_bind; [exact Hres| |done].
    apply run_bind_thrown.
    eapply forEach_entries_app; [done..| |done].
    cbn [forEach_entries]. by apply run_bind_thrown.
  - intros nm h Hin Hno.
    eapply steps_live; [by eapply run_steps| |done].
    by apply forwarders_live.
Qed.

(** [createEventHub({ a: bus0, x: broken, b: stack1 })], where [listen]
    of [x] throws: the call throws, [a]'s forwarding listener is
    registered on bus 0 and bus 1, of the later channel [b], has none. *)
Lemma construction_not_undone_witness :
  run no_code 4 (createEventHub (Channels broken_channels)) two_buses
    = (Thrown (VStr "no"), register_all 2 [("a", 0)] (new_bus two_buses)) /\
  slot (register_all 2 [("a", 0)] (new_bus two_buses)) (0, 0)
    = Some (Some (Forward 2 "a")) /\
  registry (register_all 2 [("a", 0)] (new_bus two_buses)) 1 = [].
Proof.
  assert (Hvalid : forall en : string * nat, en ∈ [("a", 0)] ->
            en.2 < length (st_buses (new_bus two_buses))).
  { intros en Hen. apply elem_of_cons in Hen as [->|Hen]; [vm_compute; lia|].
    by apply elem_of_nil in Hen. }
  assert (Hon : channels_on [("a", eventBus 0)] [("a", 0)]).
  { repeat constructor. }
  destruct (construction_not_undone no_code (Channels broken_channels) two_buses 1
              [("a", eventBus 0)] [("a", 0)] "x" (brokenChannel (VStr "no"))
              [("b", stateChannel 1 0)] (new_bus two_buses) 1 (VStr "no")
              (register_all 2 [("a", 0)] (new_bus two_buses)) 4
              eq_refl Hon Hvalid eq_refl ltac:(vm_compute; lia)) as [Hrun Hlive].
  split; [exact Hrun|]. split; [|reflexivity].
  apply (Hlive "a" (0, 0)); [by left|].
  vm_compute. apply not_elem_of_nil.
Defined.

(** ** What a hub listener can receive *)

Section Justified.

Context (code : code_table) (g : bus_id) (fw : list handle).
Context (Hcode : forall id p, outside g fw (code id p)).

Lemma owed_forward y l p h :
  owed g y (invoke code l p) ≠ 0 ->
  exists name, l = Forward g name /\ y = tagged name p /\
    EvInvoke h l p = EvInvoke h (Forward g name) p.
Proof.
  rewrite (owed_invoke code g fw Hcode y l p h).
  destruct l as [g' name|id]; unfold is_forward; [|done].
  destruct (bool_decide (g' = g)) eqn:Hg; [|done].
  destruct (jsval_eqb (tagged name p) y) eqn:Hy; [|done].
  apply bool_decide_eq_true in Hg. apply jsval_eqb_eq in Hy. subst. eauto.
Qed.

(** In the trace of one emission, every call is for a payload that was
    emitted on the bus of the called registration, and every emission on
    [g] is made by a call of a forwarding listener. *)
Lemma emit_loop_justified n b p sl :
  (forall A (m : prog A) st o st',
     hub_refs g fw st -> outside g fw m \/ forwarding g m ->
     run code n m st = (o, st') ->
     (forall b' i l y, EvInvoke (b', i) l y ∈ new_events st st' ->
        EvEmit b' y ∈ new_events st st') /\
     (forall y, EvEmit g y ∈ new_events st st' ->
        (exists h name x, EvInvoke h (Forward g name) x ∈ new_events st st' /\
           y = tagged name x) \/ owed g y m ≠ 0)) ->
  forall st o st',
    hub_refs g fw st ->
    emit_loop code (run code n) b p sl st = (o, st') ->
    (forall b' i l y, EvInvoke (b', i) l y ∈ new_events st st' ->
       (b' = b /\ y = p) \/ EvEmit b' y ∈ new_events st st') /\
    (forall y, EvEmit g y ∈ new_events st st' ->
       exists h name x, EvInvoke h (Forward g name) x ∈ new_events st st' /\
         y = tagged name x).
Proof.
  intros IHn. induction sl as [|i rest IH]; intros st o st' Hrefs H; simpl in H.
  { injection H as <- <-. rewrite new_events_same by done.
    split; [intros ???? ?%elem_of_nil | intros ? ?%elem_of_nil]; done. }
  destruct (registry st b !! i) as [[l0|]|] eqn:Hi0; [|by eapply IH..].
  destruct (run code n (invoke code l0 p) _) as [o1 s1] eqn:E.
  assert (Hs0 : rtc step st (log (EvInvoke (b, i) l0 p) st))
    by (by apply rtc_once, step_invoke).
  assert (Hs1 : rtc step (log (EvInvoke (b, i) l0 p) st) s1) by (by eapply run_steps).
  destruct (IHn _ _ _ _ _ (hub_refs_steps _ _ _ _ Hs0 Hrefs)
              (invoke_allowed code g fw Hcode l0 p) E) as [Ha1 Hb1].
  assert (Hhead : forall st2, rtc step s1 st2 ->
    new_events st st2 = EvInvoke (b, i) l0 p :: new_events (log (EvInvoke (b, i) l0 p) st) s1
                          ++ new_events s1 st2).
  { intros st2 Hs2. rewrite (new_events_trans st _ st2 Hs0) by (by etrans).
    rewrite (new_events_trans _ s1 st2 Hs1 Hs2). by rewrite new_events_logged. }
  assert (Hcall : forall st2 (Hs2 : rtc step s1 st2),
    (forall b' i' l y, EvInvoke (b', i') l y ∈ new_events s1 st2 ->
       (b' = b /\ y = p) \/ EvEmit b' y ∈ new_events s1 st2) ->
    (forall y, EvEmit g y ∈ new_events s1 st2 ->
       exists h name x, EvInvoke h (Forward g name) x ∈ new_events s1 st2 /\
         y = tagged name x) ->
    (forall b' i' l y, EvInvoke (b', i') l y ∈ new_events st st2 ->
       (b' = b /\ y = p) \/ EvEmit b' y ∈ new_events st st2) /\
    (forall y, EvEmit g y ∈ new_events st st2 ->
       exists h name x, EvInvoke h (Forward g name) x ∈ new_events st st2 /\
         y = tagged name x)).
  { intros st2 Hs2 Ha2 Hb2. rewrite (Hhead st2 Hs2). split.
    - intros b' i' l y [Hev|[Hev|Hev]%elem_of_app]%elem_of_cons.
      + injection Hev as -> _ _ ->. by left.
      + right. apply elem_of_cons. right. apply elem_of_app. left. by eapply Ha1.
      + destruct (Ha2 _ _ _ _ Hev) as [?|?]; [by left|right].
        apply elem_of_cons. right. apply elem_of_app. by right.
    - intros y [Hev|[Hev|Hev]%elem_of_app]%elem_of_cons; [done| |].
      + destruct (Hb1 _ Hev) as [(h & name & x & Hin & ->)|Howed].
        * exists h, name, x. split; [|done].
          apply elem_of_cons. right. apply elem_of_app. by left.
        * destruct (owed_forward y l0 p (b, i) Howed) as (name & -> & -> & _).
          exists (b, i), name, p. split; [by left|done].
      + destruct (Hb2 _ Hev) as (h & name & x & Hin & ->).
        exists h, name, x. split; [|done].
        apply elem_of_cons. right. apply elem_of_app. by right. }
  assert (Hstop : o1 = o -> s1 = st' ->
    (forall b' i' l y, EvInvoke (b', i') l y ∈ new_events st st' ->
       (b' = b /\ y = p) \/ EvEmit b' y ∈ new_events st st') /\
    (forall y, EvEmit g y ∈ new_events st st' ->
       exists h name x, EvInvoke h (Forward g name) x ∈ new_events st st' /\
         y = tagged name x)).
  { intros -> <-. apply Hcall; [done| |]; rewrite new_events_same by done.
    - by intros ???? ?%elem_of_nil.
    - by intros ? ?%elem_of_nil. }
  destruct o1 as [[]| | |]; try (injection H as <- <-; by apply Hstop).
  assert (Hs2 : rtc step s1 st').
  { eapply emit_loop_steps; [|done]. intros. by eapply run_steps. }
  destruct (IH _ _ _ (hub_refs_steps _ _ _ _ Hs1 (hub_refs_steps _ _ _ _ Hs0 Hrefs)) H)
    as [Ha2 Hb2].
  by apply Hcall.
Qed.

(** In the trace of a run with no reference to the hub's own, every call
    of a registration is for a payload emitted, in that run, on the bus
    of the registration, and every emission on [g] is made by a call of a
    forwarding listener, whether the run returns or not. *)
Lemma run_justified n : forall A (m : prog A) st o st',
  hub_refs g fw st -> outside g fw m \/ forwarding g m ->
  run code n m st = (o, st') ->
  (forall b' i l y, EvInvoke (b', i) l y ∈ new_events st st' ->
     EvEmit b' y ∈ new_events st st') /\
  (forall y, EvEmit g y ∈ new_events st st' ->
     (exists h name x, EvInvoke h (Forward g name) x ∈ new_events st st' /\
        y = tagged name x) \/ owed g y m ≠ 0).
Proof.
  induction n as [|n IH]; intros A m st o st' Hrefs Hm H.
  { injection H as <- <-. rewrite new_events_same by done.
    split; [intros ???? ?%elem_of_nil | intros ? ?%elem_of_nil]; done. }
  simpl in H.
  assert (Hstop : forall o0, (o0, st) = (o, st') ->
    (forall b' i l y, EvInvoke (b', i) l y ∈ new_events st st' ->
       EvEmit b' y ∈ new_events st st') /\
    (forall y, EvEmit g y ∈ new_events st st' ->
       (exists h name x, EvInvoke h (Forward g name) x ∈ new_events st st' /\
          y = tagged name x) \/ owed g y m ≠ 0)).
  { intros o0 [= <- <-]. rewrite new_events_same by done.
    split; [intros ???? ?%elem_of_nil | intros ? ?%elem_of_nil]; done. }
  assert (Hseq : forall st1 evs (k : prog A),
    rtc step st st1 -> new_events st st1 = evs ->
    (forall b' i l y, EvInvoke (b', i) l y ∈ evs -> EvEmit b' y ∈ evs) ->
    (forall y, EvEmit g y ∈ evs ->
       exists h name x, EvInvoke h (Forward g name) x ∈ evs /\ y = tagged name x) ->
    outside g fw k -> run code n k st1 = (o, st') ->
    (forall b' i l y, EvInvoke (b', i) l y ∈ new_events st st' ->
       EvEmit b' y ∈ new_events st st') /\
    (forall y, EvEmit g y ∈ new_events st st' ->
       (exists h name x, EvInvoke h (Forward g name) x ∈ new_events st st' /\
          y = tagged name x) \/ owed g y m ≠ 0)).
  { intros st1 evs k Hs1 Hevs Ha Hb Hk Hrun.
    destruct (IH _ _ _ _ _ (hub_refs_steps _ _ _ _ Hs1 Hrefs) (or_introl Hk) Hrun)
      as [Ha' Hb'].
    rewrite (new_events_trans st st1 st' Hs1) by (by eapply run_steps).
    rewrite Hevs. split.
    - intros b' i l y [Hev|Hev]%elem_of_app; apply elem_of_app;
        [left; by eapply Ha|right; by eapply Ha'].
    - intros y [Hev|Hev]%elem_of_app; left.
      + destruct (Hb _ Hev) as (h & name & x & Hin & ->).
        exists h, name, x. split; [|done]. apply elem_of_app. by left.
      + destruct (Hb' _ Hev) as [(h & name & x & Hin & ->)|Howed].
        * exists h, name, x. split; [|done]. apply elem_of_app. by right.
        * by rewrite (outside_owed g fw y _ k Hk) in Howed. }
  assert (Hone : forall st1 ev (k : prog A),
    step st st1 -> new_events st st1 = ev ->
    (forall ev0, ev0 ∈ ev ->
       (forall h l y, ev0 ≠ EvInvoke h l y) /\ forall y, ev0 ≠ EvEmit g y) ->
    outside g fw k -> run code n k st1 = (o, st') ->
    (forall b' i l y, EvInvoke (b', i) l y ∈ new_events st st' ->
       EvEmit b' y ∈ new_events st st') /\
    (forall y, EvEmit g y ∈ new_events st st' ->
       (exists h name x, EvInvoke h (Forward g name) x ∈ new_events st st' /\
          y = tagged name x) \/ owed g y m ≠ 0)).
  { intros st1 ev k Hst Hev Hnone Hk Hrun.
    eapply (Hseq st1 ev k); [by apply rtc_once|done| | |done..].
    - intros b' i l y Hin. destruct (Hnone _ Hin) as [Hne _]. by destruct (Hne (b', i) l y).
    - intros y Hin. destruct (Hnone _ Hin) as [_ Hne]. by destruct (Hne y). }
  destruct Hm as [Hm|Hm].
  - destruct m; simpl in Hm; repeat case_decide; try (by eapply Hstop).
    + eapply Hone; [apply step_new|by apply new_events_same| |apply Hm|done].
      * by intros ev ?%elem_of_nil.
      * destruct Hrefs. lia.
    + destruct Hm as [Hl Hk].
      eapply Hone; [by apply step_listen|by apply new_events_logged| |apply Hk|done].
      * intros ev ->%list_elem_of_singleton. by split.
      * intros Hin. destruct Hrefs as [_ Hfw]. specialize (Hfw _ Hin). simpl in Hfw. lia.
    + destruct Hm as [Hh Hk].
      eapply Hone; [by apply step_unsub|by apply new_events_logged| |apply Hk|done].
      intros ev ->%list_elem_of_singleton. by split.
    + destruct Hm as [Hb Hk].
      destruct (emit_loop _ _ _ _ _ _) as [o1 s1] eqn:E.
      assert (Hs0 : rtc step st (log (EvEmit b p) st)) by (by apply rtc_once, step_emit).
      assert (Hs1 : rtc step (log (EvEmit b p) st) s1).
      { eapply emit_loop_steps; [|done]. intros. by eapply run_steps. }
      destruct (emit_loop_justified n b p _ IH _ _ _ (hub_refs_steps _ _ _ _ Hs0 Hrefs) E)
        as [Ha1 Hb1].
      assert (Hevs : new_events st s1
                = EvEmit b p :: new_events (log (EvEmit b p) st) s1).
      { by rewrite (new_events_trans st _ s1 Hs0 Hs1), new_events_logged. }
      assert (Ha : forall b' i l y, EvInvoke (b', i) l y ∈ new_events st s1 ->
                EvEmit b' y ∈ new_events st s1).
      { rewrite Hevs. intros b' i l y [Hev|Hev]%elem_of_cons; [done|].
        destruct (Ha1 _ _ _ _ Hev) as [[-> ->]|?]; [by left|by right]. }
      assert (Hbb : forall y, EvEmit g y ∈ new_events st s1 ->
                exists h name x, EvInvoke h (Forward g name) x ∈ new_events st s1 /\
                  y = tagged name x).
      { rewrite Hevs. intros y [Hev|Hev]%elem_of_cons; [congruence|].
        destruct (Hb1 _ Hev) as (h & name & x & Hin & ->).
        exists h, name, x. split; [by right|done]. }
      destruct o1 as [[]| | |];
        try (injection H as <- <-; split; [done|]; intros y Hy; left; by apply Hbb).
      apply (Hseq s1 (new_events st s1) m); [by etrans|done..].
    + destruct (st_cells st !! c) as [v|]; [|by eapply Hstop].
      destruct (IH _ _ _ _ _ Hrefs (or_introl (Hm v)) H) as [Ha Hb].
      split; [done|]. intros y Hy. destruct (Hb y Hy) as [?|Howed]; [by left|].
      by rewrite (outside_owed g fw y _ _ (Hm v)) in Howed.
    + eapply Hone; [by apply step_set|by apply new_events_same| |apply Hm|done].
      by intros ev ?%elem_of_nil.
  - destruct (forwarding_ret _ _ _ Hm) as (p & r & ->). simpl in H.
    rewrite decide_True in H by (by destruct Hrefs).
    destruct (emit_loop _ _ _ _ _ _) as [o1 s1] eqn:E.
    assert (Hs0 : rtc step st (log (EvEmit g p) st)).
    { apply rtc_once, step_emit. by destruct Hrefs. }
    assert (Hs1 : rtc step (log (EvEmit g p) st) s1).
    { eapply emit_loop_steps; [|done]. intros. by eapply run_steps. }
    destruct (emit_loop_justified n g p _ IH _ _ _ (hub_refs_steps _ _ _ _ Hs0 Hrefs) E)
      as [Ha1 Hb1].
    assert (st' = s1) as ->.
    { destruct o1 as [[]| | |]; try (by injection H as <- <-).
      destruct n; simpl in H; by injection H as <- <-. }
    rewrite (new_events_trans st _ s1 Hs0 Hs1), new_events_logged by done.
    split.
    + intros b' i l y [Hev|Hev]%elem_of_cons; [done|].
      destruct (Ha1 _ _ _ _ Hev) as [[-> ->]|?]; [by left|by right].
    + intros y [Hev|Hev]%elem_of_cons.
      * right. injection Hev as ->. simpl.
        rewrite bool_decide_eq_true_2, jsval_eqb_refl by done. done.
      * left. destruct (Hb1 _ Hev) as (h & name & x & Hin & ->).
        exists h, name, x. split; [by right|done].
Qed.

End Justified.

(** X5. A listener registered with [hub.listen] is never called with
    anything but an event of the hub: in every run of a program that has
    no reference to the hub's own (the global bus and the forwarding
    registrations are local to [createEventHub]), whether it returns,
    throws or is cut short, each call of a listener on the global bus is
    for an event [{ name, details }] where [name] is a channel of the hub
    and [details] was emitted, in that run, on the bus on which the
    forwarding listener of [name] is registered. *)
Theorem hub_listener_events_sound code g fws st fuel A (m : prog A) o st' :
  hub_state g fws st ->
  (forall id x, outside g fws.*2 (code id x)) ->
  outside g fws.*2 m ->
  run code fuel m st = (o, st') ->
  forall j l y, EvInvoke (g, j) l y ∈ new_events st st' ->
    exists name b i x,
      y = tagged name x /\ (name, (b, i)) ∈ fws /\
      EvEmit b x ∈ new_events st st'.
Proof.
  intros Hhub Hcode Hm Hrun j l y Hcall.
  pose proof (hub_state_refs _ _ _ Hhub) as Hrefs.
  destruct (run_justified code g _ Hcode _ _ _ _ _ _ Hrefs (or_introl Hm) Hrun)
    as [Ha Hb].
  destruct (run_outside code g _ Hcode _ _ _ _ _ _ Hrefs (or_introl Hm) Hrun)
    as [Hno _].
  apply Ha in Hcall.
  destruct (Hb _ Hcall) as [(h & name & x & Hin & ->)|Howed];
    [|by rewrite (outside_owed g _ y _ m Hm) in Howed].
  destruct h as [b i]. exists name, b, i, x. split; [done|]. split.
  - eapply steps_forward_calls; [by eapply run_steps|done|done|done|done].
  - by eapply Ha.
Qed.

(** In the nested scenario, the hub's listener, in slot 0 of the global
    bus, is called with the event of [b]: [2] was emitted on bus 2, where
    the forwarding listener of [b] is. *)
Lemma hub_listener_events_sound_witness :
  EvInvoke (0, 0) (User 0) (tagged "b" (VNum 2)) ∈ new_events nested_ready nested_done /\
  exists name b i x,
    tagged "b" (VNum 2) = tagged name x /\
    (name, (b, i)) ∈ [("a", (1, 0)); ("b", (2, 0))] /\
    EvEmit b x ∈ new_events nested_ready nested_done.
Proof.
  assert (Hcode : forall id x,
            outside 0 [("a", (1, 0)); ("b", (2, 0))].*2 (nested_code ab_made (VNum 2) id x)).
  { intros [|[|id]] x; cbn; done. }
  assert (Hcall : EvInvoke (0, 0) (User 0) (tagged "b" (VNum 2))
                    ∈ new_events nested_ready nested_done).
  { vm_compute. do 8 right. left. }
  split; [exact Hcall|].
  exact (hub_listener_events_sound (nested_code ab_made (VNum 2)) 0
           [("a", (1, 0)); ("b", (2, 0))] nested_ready 8 unit
           (hub_emit made_hub "a" (VNum 1)) (Done tt) nested_done
           nested_ready_hub_state Hcode ltac:(cbn; done) eq_refl
           0 (User 0) (tagged "b" (VNum 2)) Hcall).
Defined.

(** ** Several hubs *)

(** [createEventHub] of channels that are buses: the hub it returns and
    the state it leaves. *)
Lemma createEventHub_on_buses code m entries st fuel :
  channels_on m entries ->
  (forall e, e ∈ entries -> e.2 < length (st_buses st)) ->
  length m + 4 <= fuel ->
  run code fuel (createEventHub (Channels m)) st
    = (Done (hub_object (length (st_buses st)) m (store_of m [])),
       register_all (length (st_buses st)) entries (new_bus st)).
Proof.
  intros Hon Hvalid Hfuel.
  apply (run_mono code (S (1 + (length m + 1 + 1)))); [|done|lia].
  cbn [createEventHub run]. eapply run_bind; [reflexivity| |done].
  eapply run_bind; [|reflexivity|done].
  apply forEach_on_buses; [done|].
  intros e He. unfold new_bus; simpl. rewrite length_app. specialize (Hvalid e He). lia.
Qed.

(** X6. Hubs compose. Making a second hub of channels that are buses, the
    channels of the first hub or others, leaves the first hub in place:
    in the state in which the second hub is returned, each of the two
    hubs has its forwarding listeners registered, one for each of its
    channels, and no other registration forwards to its global bus. *)
Theorem second_hub_keeps_first code g fws st m entries fuel :
  hub_state g fws st ->
  channels_on m entries ->
  (forall e, e ∈ entries -> e.2 < length (st_buses st)) ->
  (forall h name, slot st h ≠ Some (Some (Forward (length (st_buses st)) name))) ->
  length m + 4 <= fuel ->
  let g2 := length (st_buses st) in
  let st' := register_all g2 entries (new_bus st) in
  run code fuel (createEventHub (Channels m)) st
    = (Done (hub_object g2 m (store_of m [])), st') /\
  hub_state g fws st' /\
  hub_state g2 (forwarders g2 entries (new_bus st)) st'.
Proof.
  intros Hhub Hon Hvalid Hnone Hfuel g2 st'.
  assert (Hvalid' : forall e, e ∈ entries -> e.2 < length (st_buses (new_bus st))).
  { intros e He. unfold new_bus; simpl. rewrite length_app.
    specialize (Hvalid e He). lia. }
  assert (Hnew : rtc step st (new_bus st)) by apply rtc_once, step_new.
  assert (Hreg : rtc step (new_bus st) st') by (by apply register_all_steps).
  split; [by apply createEventHub_on_buses|]. split.
  - apply (steps_hub_state g fws st st'); [by etrans| |done].
    rewrite (new_events_trans st (new_bus st) st') by done.
    rewrite (new_events_same st (new_bus st)) by done.
    unfold st'. rewrite register_all_events by done.
    intros ev [[name h] [-> _]]%list_elem_of_fmap. simpl.
    destruct Hhub as [Hg _ _]. unfold g2. lia.
  - apply construction_hub_state; [|done|].
    + unfold g2, new_bus; simpl. rewrite length_app. simpl. lia.
    + intros h name Hl.
      destruct (step_slot_back _ _ h _ (step_new st) Hl) as [Hl'|Hev].
      * by destruct (Hnone h name).
      * by rewrite new_events_same in Hev.
Qed.

(** A second hub made of the channels [a] and [b] of the hub of the
    nested scenario, which has a listener of its own: the first hub's
    forwarding listeners are in slot 0 of buses 1 and 2, those of the
    second hub, whose global bus is bus 3, in slots 2 and 1. *)
Lemma second_hub_keeps_first_witness :
  hub_state 0 [("a", (1, 0)); ("b", (2, 0))]
    (register_all 3 [("a", 1); ("b", 2)] (new_bus nested_ready)) /\
  hub_state 3 [("a", (1, 2)); ("b", (2, 1))]
    (register_all 3 [("a", 1); ("b", 2)] (new_bus nested_ready)).
Proof.
  assert (Hvalid : forall e : string * nat, e ∈ [("a", 1); ("b", 2)] ->
            e.2 < length (st_buses nested_ready)).
  { intros e He. apply elem_of_cons in He as [->|He]; [vm_compute; lia|].
    apply elem_of_cons in He as [->|He]; [vm_compute; lia|].
    by apply elem_of_nil in He. }
  assert (Hnone : forall h name,
            slot nested_ready h ≠ Some (Some (Forward (length (st_buses nested_ready)) name))).
  { intros [b i] name Hl.
    destruct b as [|[|[|b]]]; destruct i as [|[|i]]; vm_compute in Hl; discriminate. }
  assert (Hon : channels_on ab_made [("a", 1); ("b", 2)]).
  { repeat constructor. }
  exact (proj2 (second_hub_keeps_first no_code 0 [("a", (1, 0)); ("b", (2, 0))]
                  nested_ready ab_made [("a", 1); ("b", 2)] 6
                  nested_ready_hub_state Hon Hvalid Hnone ltac:(vm_compute; lia))).
Defined.

(** ** What the hub hands out *)

Lemma channels_on_get buses entries name bus :
  channels_on buses entries ->
  obj_get buses name = Some bus ->
  exists b, (name, b) ∈ entries /\ on_bus b bus.
Proof.
  induction 1 as [|[k c] [k' b] buses entries [Hk Hon] _ IH]; simpl; [done|].
  simpl in Hk, Hon. subst k'.
  destruct (decide (k = name)) as [->|Hne].
  - intros [= ->]. exists b. split; [by left|done].
  - intros Hget. destruct (IH Hget) as (b' & Hin & Hon').
    exists b'. split; [by right|done].
Qed.

(** X7. The hub gives no access to what is local to [createEventHub].
    Of the global bus it hands out [listen] alone (line 92), and the
    unsubscribe functions of its forwarding listeners are dropped (line
    84): a program that calls [hub.on], [hub.listen] or [hub.emit], with
    listeners of its own, and goes on with the unsubscribe function it is
    given, in a way that has no reference to the hub's own, has none
    either: it does not emit on the global bus, and it does not register
    or unsubscribe a forwarding listener of the hub. *)
Theorem hub_interface_outside code def st buses hub st' entries fw B name :
  hub_from code def st buses hub st' ->
  channels_on buses entries ->
  (forall e, e ∈ entries -> e.2 ≠ length (st_buses st)) ->
  let g := length (st_buses st) in
  (forall l (k : thunk -> prog B),
     (forall nm : string, Forward g nm ≠ l) ->
     (forall t, outside g fw t -> outside g fw (k t)) ->
     outside g fw (hub_on hub name l ≫= k) /\
     outside g fw (hub_listen hub l ≫= k)) /\
  (forall p (k : unit -> prog B),
     outside g fw (k tt) -> outside g fw (hub_emit hub name p ≫= k)).
Proof.
  intros Hhub Hon Hne g. split.
  - intros l k Hl Hk. split.
    + rewrite (hub_on_eq _ _ _ _ _ _ Hhub). unfold on_, js_read.
      destruct (obj_get buses name) as [bus|] eqn:Hbus.
      * destruct (channels_on_get _ _ _ _ Hon Hbus) as (b & _ & [Hlisten _]).
        rewrite Hlisten. unfold mbind, prog_bind. simpl. split; [done|].
        intros h Hh. apply Hk. simpl. done.
      * by destruct (bool_decide _).
    + rewrite (hub_listen_eq _ _ _ _ _ _ Hhub).
      unfold mbind, prog_bind. simpl. split; [done|].
      intros h Hh. apply Hk. simpl. done.
  - intros p k Hk. rewrite (hub_emit_eq _ _ _ _ _ _ Hhub). unfold emit_, js_read.
    destruct (obj_get buses name) as [bus|] eqn:Hbus.
    + destruct (channels_on_get _ _ _ _ Hon Hbus) as (b & Hin & [_ Hemit]).
      rewrite Hemit. unfold mbind, prog_bind. simpl. split; [|done].
      apply (Hne _ Hin).
    + by destruct (bool_decide _).
Qed.

(** With [odd_hub], whose global bus is bus 2: registering a listener on
    the channel [store] and unsubscribing it at once, and emitting on
    the channel [constructor]. *)
Lemma hub_interface_outside_witness :
  outside 2 [(0, 0); (1, 0)] (hub_on odd_hub "store" (User 0) ≫= (fun t : thunk => t)) /\
  outside 2 [(0, 0); (1, 0)] (hub_emit odd_hub "store" (VNum 1) ≫= (fun _ => Ret tt)).
Proof.
  assert (Hon : channels_on odd_channels [("store", 0); ("constructor", 1)]).
  { repeat constructor. }
  assert (Hne : forall e : string * nat, e ∈ [("store", 0); ("constructor", 1)] ->
            e.2 ≠ length (st_buses two_buses)).
  { intros e He. apply elem_of_cons in He as [->|He]; [vm_compute; lia|].
    apply elem_of_cons in He as [->|He]; [vm_compute; lia|].
    by apply elem_of_nil in He. }
  destruct (hub_interface_outside no_code (Channels odd_channels) two_buses
              odd_channels odd_hub odd_state [("store", 0); ("constructor", 1)]
              [(0, 0); (1, 0)] unit "store" (odd_hub_from _) Hon Hne) as [Hl He].
  split.
  - refine (proj1 (Hl (User 0) (fun t => t) _ _)); [done|]. by intros t Ht.
  - by apply (He (VNum 1) (fun _ => Ret tt)).
Defined.

(** ** What construction changes *)

Lemma forwarders_on_none g entries b :
  (forall e, e ∈ entries -> e.2 ≠ b) -> forwarders_on g entries b = [].
Proof.
  unfold forwarders_on. induction entries as [|e rest IH]; intros Hne; [done|].
  rewrite filter_cons, decide_False by (apply Hne; by left).
  apply IH. intros e' He'. apply Hne. by right.
Qed.

Lemma register_all_frame g entries : forall st,
  (forall e, e ∈ entries -> e.2 < length (st_buses st)) ->
  st_cells (register_all g entries st) = st_cells st /\
  length (st_buses (register_all g entries st)) = length (st_buses st) /\
  forall b, registry (register_all g entries st) b
              = registry st b ++ forwarders_on g entries b.
Proof.
  unfold forwarders_on.
  induction entries as [|[name b0] rest IH]; intros st Hvalid.
  { simpl. split; [done|]. split; [done|]. intros b. by rewrite app_nil_r. }
  assert (Hb0 : b0 < length (st_buses st)) by (apply (Hvalid (name, b0)); by left).
  assert (Hrest : forall e, e ∈ rest -> e.2 < length (st_buses
            (log (EvListen (b0, length (registry st b0)) (Forward g name))
               (add_listener b0 (Forward g name) st)))).
  { intros e He. simpl. rewrite length_alter. apply Hvalid. by right. }
  destruct (IH _ Hrest) as (Hcells & Hlen & Hreg).
  cbn [register_all]. split; [by rewrite Hcells|]. split.
  { rewrite Hlen. simpl. by rewrite length_alter. }
  intros b. rewrite Hreg, registry_log, registry_add_listener by done.
  rewrite filter_cons. cbn [snd].
  destruct (decide (b = b0)) as [->|Hne].
  - rewrite decide_True by done. rewrite fmap_cons. cbn [fst].
    by rewrite <-app_assoc.
  - rewrite decide_False by (by intros ->). done.
Qed.

(** X8. What making a hub changes. When [createEventHub] is given
    channels that are buses and returns, the state differs from the one
    before in this only: there is one more bus, the global one, which is
    the last and has no listener, and each bus has, after the listeners
    it had and in their order, one forwarding listener for each channel
    name given for it, in the order of the channels. The cells that the
    channels' [value] accessors read are as they were. *)
Theorem construction_frame code m entries st fuel hub st' :
  channels_on m entries ->
  (forall e, e ∈ entries -> e.2 < length (st_buses st)) ->
  run code fuel (createEventHub (Channels m)) st = (Done hub, st') ->
  let g := length (st_buses st) in
  st_cells st' = st_cells st /\
  length (st_buses st') = S g /\
  registry st' g = [] /\
  forall b, b < g -> registry st' b = registry st b ++ forwarders_on g entries b.
Proof.
  intros Hon Hvalid Hrun g. subst g.
  assert (Hvalid' : forall e, e ∈ entries -> e.2 < length (st_buses (new_bus st))).
  { intros e He. unfold new_bus; simpl. rewrite length_app.
    specialize (Hvalid e He). lia. }
  pose proof (createEventHub_on_buses code m entries st (length m + 4) Hon Hvalid
                ltac:(lia)) as Hrun'.
  destruct (run_det code _ _ _ _ _ _ _ _ _ Hrun ltac:(done) Hrun' ltac:(done))
    as [_ ->].
  destruct (register_all_frame (length (st_buses st)) entries (new_bus st) Hvalid')
    as (Hcells & Hlen & Hreg).
  split; [done|]. split.
  { rewrite Hlen. unfold new_bus; simpl. rewrite length_app. simpl. lia. }
  split.
  - rewrite Hreg, registry_new_bus.
    unfold registry at 1. rewrite lookup_ge_None_2 by lia. simpl.
    apply forwarders_on_none. intros e He. specialize (Hvalid e He). lia.
  - intros b Hb. by rewrite Hreg, registry_new_bus.
Qed.

(** A hub of the channels [x] and [y], both bus 1, made in the state of
    the nested scenario, where bus 1 has the first hub's forwarding
    listener and listener 1: bus 1 gets the two forwarding listeners
    after these, and the new global bus 3 is empty. *)
Lemma construction_frame_witness :
  run no_code 6 (createEventHub (Channels xy_channels)) nested_ready
    = (Done xy_hub, xy_state) /\
  registry xy_state 3 = [] /\
  registry xy_state 1
    = [Some (Forward 0 "a"); Some (User 1); Some (Forward 3 "x"); Some (Forward 3 "y")].
Proof.
  assert (Hvalid : forall e : string * nat, e ∈ [("x", 1); ("y", 1)] ->
            e.2 < length (st_buses nested_ready)).
  { intros e He. apply elem_of_cons in He as [->|He]; [vm_compute; lia|].
    apply elem_of_cons in He as [->|He]; [vm_compute; lia|].
    by apply elem_of_nil in He. }
  assert (Hon : channels_on xy_channels [("x", 1); ("y", 1)]).
  { repeat constructor. }
  assert (Hrun : run no_code 6 (createEventHub (Channels xy_channels)) nested_ready
                   = (Done xy_hub, xy_state)) by reflexivity.
  destruct (construction_frame no_code xy_channels [("x", 1); ("y", 1)] nested_ready 6
              xy_hub xy_state Hon Hvalid Hrun) as (_ & _ & Hg & Hb).
  split; [exact Hrun|]. split; [exact Hg|].
  exact (Hb 1 ltac:(vm_compute; lia)).
Defined.

(** ** Listening to the hub *)

Lemma made_hub_from code :
  hub_from code ab_factory empty_state ab_made made_hub empty_hub_state.
Proof. exists 8, (new_bus (new_bus (new_bus empty_state))). split; reflexivity. Qed.

Lemma empty_hub_state_hub_state :
  hub_state 0 [("a", (1, 0)); ("b", (2, 0))] empty_hub_state.
Proof.
  split.
  - vm_compute. lia.
  - intros name h Hin.
    repeat (apply elem_of_cons in Hin as [[= -> ->]|Hin]; [reflexivity|]).
    by apply elem_of_nil in Hin.
  - intros name [b i] Hl.
    destruct b as [|[|[|b]]]; destruct i as [|i]; vm_compute in Hl;
      try discriminate; injection Hl as <-; compute_done.
Qed.

(** X10. [hub.listen(a)] (line 92) registers [a] on the global bus, after
    the listeners of the hub already there, and returns the unsubscribe
    function of that registration. The hub stays in place when the
    listener is registered and when it is unsubscribed; and in every run
    of programs with no reference to the hub's own that returns with the
    listener still registered, the listener is called with the event of
    a channel as many times as there are emissions on that channel. *)
Theorem hub_listen_then_receives code def st0 buses hub st0' fws s n a :
  hub_from code def st0 buses hub st0' ->
  let g := length (st_buses st0) in
  hub_state g fws s -> NoDup fws.*1 ->
  (forall id x, outside g fws.*2 (code id x)) ->
  (forall nm : string, a ≠ Forward g nm) ->
  let h := (g, length (registry s g)) in
  let s1 := log (EvListen h a) (add_listener g a s) in
  run code (S (S n)) (hub_listen hub a) s = (Done (UnsubOp h (Ret tt)), s1) /\
  hub_state g fws s1 /\
  (forall s2, hub_state g fws s2 -> h.2 < length (registry s2 h.1) ->
     hub_state g fws (log (EvUnsub h) (remove_listener h s2))) /\
  (forall fuel A (m : prog A) r s' name b i p,
     outside g fws.*2 m -> run code fuel m s1 = (Done r, s') ->
     (name, (b, i)) ∈ fws -> slot s' h = Some (Some a) ->
     count (is_invoke h (tagged name p)) (new_events s1 s')
       = count (is_emit b p) (new_events s1 s')).
Proof.
  intros Hhub g Hstate Hnd Hcode Ha h s1.
  assert (Hg : g < length (st_buses s)) by (by destruct Hstate).
  assert (Hstate1 : hub_state g fws s1).
  { eapply step_hub_state; [by apply step_listen| |done].
    unfold s1. rewrite new_events_logged by done.
    intros ev ->%list_elem_of_singleton. simpl.
    destruct a as [g' nm|]; [|tauto]. intros ->. by destruct (Ha nm). }
  split; [|split; [done|split]].
  - rewrite (hub_listen_eq _ _ _ _ _ _ Hhub). fold g.
    cbn [listen eventBus run]. by rewrite decide_True.
  - intros s2 Hstate2 Hlen.
    eapply step_hub_state; [by apply step_unsub| |done].
    rewrite new_events_logged by done.
    intros ev ->%list_elem_of_singleton. simpl.
    intros [[nm h'] [Heq Hin]]%list_elem_of_fmap. simpl in Heq. subst h'.
    pose proof (hs_forwarders _ _ _ Hstate _ _ Hin) as Hslot.
    unfold slot, h in Hslot. simpl in Hslot. apply lookup_lt_Some in Hslot. lia.
  - intros fuel A m r s' name b i p Hm Hrun Hin Hslot.
    eapply hub_forward_count; [done|done|done|done|done|done| |done].
    unfold s1. rewrite registry_log, registry_add_listener, decide_True by done.
    rewrite length_app. simpl. lia.
Qed.

(** The hub of [ab_factory]: [hub.listen(listener0)] puts listener 0 in
    slot 0 of the global bus 0, and [hub.emit("a", 1)] then calls it
    once with [{ name: "a", details: 1 }], [1] being emitted once on the
    bus of [a]. *)
Lemma hub_listen_then_receives_witness :
  run no_code 2 (hub_listen made_hub (User 0)) empty_hub_state
    = (Done (UnsubOp (0, 0) (Ret tt)), listened_state) /\
  count (is_invoke (0, 0) (tagged "a" (VNum 1))) (new_events listened_state listened_done)
    = count (is_emit 1 (VNum 1)) (new_events listened_state listened_done) /\
  count (is_emit 1 (VNum 1)) (new_events listened_state listened_done) = 1.
Proof.
  destruct (hub_listen_then_receives no_code ab_factory empty_state ab_made made_hub
              empty_hub_state [("a", (1, 0)); ("b", (2, 0))] empty_hub_state 0 (User 0)
              (made_hub_from _) empty_hub_state_hub_state ltac:(compute_done)
              ltac:(intros id x; exact I) ltac:(intros nm; discriminate))
    as (Hrun & _ & _ & Hcount).
  split; [exact Hrun|]. split; [|reflexivity].
  exact (Hcount 8 unit (hub_emit made_hub "a" (VNum 1)) tt listened_done "a" 1 0 (VNum 1)
           ltac:(cbn; done) eq_refl ltac:(by left) eq_refl).
Defined.
